(** * suffixlemmatizer: the suffix statistics engine of [Model.cpp]

    A shallow embedding of [src/Model.cpp] (namespace [suflem]) and the
    properties of its segmenter, trainer, inferencer, trimmer and
    persistence layer.

    Conventions.
    - A [std::string] is a Rocq [string]: a sequence of 8-bit characters.
      [byte_of] is [static_cast<unsigned char>].
    - A [long] is a [Z]; the additions on counts wrap to 64 bits ([ladd]).
      Positions and sizes are far below the wrap-around and are plain [Z].
    - A [double] is a primitive binary64 [float].
    - The class declaration ([Model.hpp]) makes the three tables
      [std::unordered_map]s.  They are finite maps ([gmap]) supporting the
      operations [Model.cpp] uses ([operator[]], [find], [erase], [size]);
      the order in which [begin() .. end()] visits a table, which the
      container leaves open, is a parameter ([Traversal]). *)

From Stdlib Require Import ZArith Lia Floats Uint63 Ascii String DecimalString
  DecimalPos.
From stdpp Require Import gmap strings list fin_maps sorting.

Local Open Scope string_scope.
Local Open Scope list_scope.
Local Open Scope Z_scope.

(* ===================================================================== *)
(** * Strings as byte sequences *)
(* ===================================================================== *)

Definition byte_of (a : ascii) : Z := Z.of_N (N_of_ascii a).

Definition str_size (s : string) : Z := Z.of_nat (String.length s).

Fixpoint sdrop (n : nat) (s : string) : string :=
  match n, s with
  | O, _ => s
  | S n', String _ s' => sdrop n' s'
  | S _, EmptyString => EmptyString
  end.

Fixpoint stake (n : nat) (s : string) : string :=
  match n, s with
  | O, _ => EmptyString
  | S n', String a s' => String a (stake n' s')
  | S _, EmptyString => EmptyString
  end.

(** The concatenation of a list of strings. *)
Fixpoint join (l : list string) : string :=
  match l with
  | [] => EmptyString
  | x :: l' => x +:+ join l'
  end.

(** [s.substr(pos)] and [s.substr(pos, len)] for [pos <= s.size()]. *)
Definition substr_from (s : string) (pos : Z) : string :=
  sdrop (Z.to_nat pos) s.

Definition substr (s : string) (pos len : Z) : string :=
  stake (Z.to_nat len) (sdrop (Z.to_nat pos) s).

(** [s[i]]; at [i = s.size()] the C++ string yields the terminating NUL. *)
Definition char_at (s : string) (i : Z) : ascii :=
  match String.get (Z.to_nat i) s with
  | Some a => a
  | None => "000"%char
  end.

(** [std::isspace] in the "C" locale. *)
Definition isspace (a : ascii) : bool :=
  let c := byte_of a in (c =? 0x20) || ((0x09 <=? c) && (c <=? 0x0D)).

(** [ltrim] erases up to the first character that is not a space. *)
Fixpoint ltrim (s : string) : string :=
  match s with
  | String a s' => if isspace a then ltrim s' else s
  | EmptyString => EmptyString
  end.

(** [rtrim] erases what follows the last character that is not a space:
    a character stays when it is not a space or something stays after it. *)
Fixpoint rtrim (s : string) : string :=
  match s with
  | EmptyString => EmptyString
  | String a s' =>
      match rtrim s' with
      | EmptyString => if isspace a then EmptyString else String a EmptyString
      | kept => String a kept
      end
  end.

Definition trim (s : string) : string := ltrim (rtrim s).

(* ===================================================================== *)
(** * Miscellaneous functions: the codepoint segmenter *)
(* ===================================================================== *)

Definition masks : list Z := [0; 0x6; 0xE; 0x1E; 0x3E; 0x7E].
Definition shift : list Z := [7; 5; 4; 3; 2; 1].

(** The inner [for (int j=0 ; j<6 ; ++j)] of [store_codepoints]. *)
Definition found_start (c : Z) : bool :=
  existsb (fun j : nat => Z.shiftr c (shift !!! j) =? masks !!! j)
          (seq 0 6).

(** The outer loop, at byte offset [i] with the vector [v] built so far. *)
Fixpoint store_codepoints_loop (s : string) (i : Z) (v : list Z)
  : bool * list Z :=
  match s with
  | EmptyString => (true, v)
  | String a s' =>
      let c := byte_of a in
      if found_start c then store_codepoints_loop s' (i + 1) (v ++ [i])
      else if negb (Z.shiftr c 6 =? 0x2) || (i =? 0) then (false, v)
      else store_codepoints_loop s' (i + 1) v
  end.

Definition store_codepoints (s : string) : bool * list Z :=
  store_codepoints_loop s 0 [].

(** ** Well-formed UTF-8 (Unicode, table 3-7), used to state the properties *)

Definition in_range (lo hi : Z) (a : ascii) : bool :=
  (lo <=? byte_of a) && (byte_of a <=? hi).

Definition is_cont (a : ascii) : bool := in_range 0x80 0xBF a.

Definition second_of_three (a1 a2 : ascii) : bool :=
  (in_range 0xE0 0xE0 a1 && in_range 0xA0 0xBF a2)
  || (in_range 0xE1 0xEC a1 && in_range 0x80 0xBF a2)
  || (in_range 0xED 0xED a1 && in_range 0x80 0x9F a2)
  || (in_range 0xEE 0xEF a1 && in_range 0x80 0xBF a2).

Definition second_of_four (a1 a2 : ascii) : bool :=
  (in_range 0xF0 0xF0 a1 && in_range 0x90 0xBF a2)
  || (in_range 0xF1 0xF3 a1 && in_range 0x80 0xBF a2)
  || (in_range 0xF4 0xF4 a1 && in_range 0x80 0x8F a2).

Fixpoint valid_utf8 (s : string) : bool :=
  match s with
  | EmptyString => true
  | String a1 r1 =>
    if in_range 0x00 0x7F a1 then valid_utf8 r1 else
    match r1 with
    | EmptyString => false
    | String a2 r2 =>
      if in_range 0xC2 0xDF a1 then is_cont a2 && valid_utf8 r2 else
      match r2 with
      | EmptyString => false
      | String a3 r3 =>
        if in_range 0xE0 0xEF a1
        then second_of_three a1 a2 && is_cont a3 && valid_utf8 r3 else
        match r3 with
        | EmptyString => false
        | String a4 r4 =>
            second_of_four a1 a2 && is_cont a3 && is_cont a4 && valid_utf8 r4
        end
      end
    end
  end.

(** Lead byte of a multi-byte sequence: [110xxxxx] .. [1111110x]. *)
Definition is_multibyte_lead (a : ascii) : bool := in_range 0xC0 0xFD a.

(** The two byte values that match no pattern of the segmenter. *)
Definition is_stray (a : ascii) : bool := in_range 0xFE 0xFF a.

Fixpoint all_chars (p : ascii -> bool) (s : string) : bool :=
  match s with
  | EmptyString => true
  | String a s' => p a && all_chars p s'
  end.

Definition starts_with (p : ascii -> bool) (s : string) : bool :=
  match s with
  | EmptyString => false
  | String a _ => p a
  end.

(** The inner [for (long i=preflen ; i<acodepoints[j] ; ++i)]: [true] when
    no byte differs. *)
Definition same_bytes (a b : string) (from upto : Z) : bool :=
  forallb (fun i => bool_decide (char_at a i = char_at b i))
          (seqZ from (upto - from)).

(** The outer [for (long j=0 ; j<N ; ++j)]: both vectors are consumed in
    step, so the lists run out exactly when [j] reaches [N]. *)
Fixpoint common_prefix_loop (a b : string) (acodepoints bcodepoints : list Z)
    (j preflen : Z) : Z :=
  match acodepoints, bcodepoints with
  | x :: acodepoints', y :: bcodepoints' =>
      if negb (x =? y) then j
      else if negb (same_bytes a b preflen x) then j
      else common_prefix_loop a b acodepoints' bcodepoints' (j + 1) x
  | _, _ => j
  end.

Definition common_prefix_size (a b : string)
    (acodepoints bcodepoints : list Z) : Z :=
  common_prefix_loop a b acodepoints bcodepoints 0 0.

(* ===================================================================== *)
(** * Arithmetic of [long] and [double] *)
(* ===================================================================== *)

Definition wrap64 (z : Z) : Z := (z + 2 ^ 63) mod 2 ^ 64 - 2 ^ 63.

(** [x + y] and [x += y] on [long]. *)
Definition ladd (x y : Z) : Z := wrap64 (x + y).

(** [static_cast<double>] of a [long]: round to nearest, ties to even. *)
Definition double_of_long (z : Z) : float :=
  if 0 <=? z then PrimFloat.of_uint63 (Uint63.of_Z z)
  else if z =? - 2 ^ 63 then (- 9223372036854775808)%float
  else (- PrimFloat.of_uint63 (Uint63.of_Z (- z)))%float.

(** simple function for computing probability of tp and fp counts *)
Definition compute_prob (p : Z * Z) : float :=
  (double_of_long p.1 / double_of_long (ladd p.1 p.2))%float.

(* ===================================================================== *)
(** * Exceptions *)
(* ===================================================================== *)

(** [std::runtime_error] with its message, as [Model.cpp] throws it, and
    the [std::out_of_range] of [std::string::substr]. *)
Inductive exception : Type :=
  | runtime_error (what : string)
  | out_of_range.

Inductive result (A : Type) : Type :=
  | Ok (a : A)
  | Throw (e : exception).
Arguments Ok {A} a.
Arguments Throw {A} e.

Global Instance result_bind : MBind result := fun A B k r =>
  match r with
  | Ok a => k a
  | Throw e => Throw e
  end.

(** [s.substr(pos)] with its range check. *)
Definition substr_checked (s : string) (pos : Z) : result string :=
  if str_size s <? pos then Throw out_of_range
  else Ok (substr_from s pos).

(* ===================================================================== *)
(** * Iteration order of the tables *)
(* ===================================================================== *)

(** The tables are [std::unordered_map]s, whose iteration order is not
    specified; [Model.cpp] only needs that [begin() .. end()] visits every
    entry once. *)
Class Traversal : Type := {
  entries : forall {V : Type}, gmap string V -> list (string * V);
  entries_perm : forall (V : Type) (m : gmap string V),
    entries m ≡ₚ map_to_list m
}.

Definition key_le {V : Type} (x y : string * V) : Prop := String.le x.1 y.1.

Global Instance key_le_dec {V : Type} : RelDecision (@key_le V).
Proof. intros x y. unfold key_le. apply _. Defined.

(** One such order, that of a [std::map<std::string, _>]: ascending keys,
    compared byte-wise. *)
Global Program Instance ordered_map : Traversal := {|
  entries := fun V m => merge_sort key_le (map_to_list m)
|}.
Next Obligation. intros V m. apply merge_sort_Permutation. Qed.

(* ===================================================================== *)
(** * The [printf] and [scanf] conversions used by [save] and [load] *)
(* ===================================================================== *)

Definition TAB : string := String "009"%char "".
Definition NL : string := String "010"%char "".

(** [%ld] and [%d] of [fprintf]. *)
Definition print_long (z : Z) : string := NilZero.string_of_int (Z.to_int z).

(** [%s] of [fprintf] on [s.c_str()], and the assignment of a [char]
    buffer to a [std::string]: the bytes before the first NUL. *)
Fixpoint c_str (s : string) : string :=
  match s with
  | EmptyString => EmptyString
  | String a s' => if (byte_of a =? 0) then EmptyString else String a (c_str s')
  end.

Inductive directive : Type :=
  | whitespace
  | conv_ld
  | conv_d
  | conv_set (assign : bool) (width : option Z) (negated : bool)
             (chars : list ascii).

Inductive scanned : Type :=
  | scanned_long (z : Z)
  | scanned_int (z : Z)
  | scanned_str (s : string).

Definition is_digit (a : ascii) : bool := in_range 0x30 0x39 a.

Fixpoint scan_digits (s : string) (acc : Z) : Z * string :=
  match s with
  | String a s' =>
      if is_digit a then scan_digits s' (10 * acc + (byte_of a - 0x30))
      else (acc, s)
  | EmptyString => (acc, EmptyString)
  end.

(** A decimal integer as [strtol] reads it: white space, an optional sign,
    one digit at least. *)
Definition scan_integer (s : string) : option (Z * string) :=
  let s := ltrim s in
  let '(negative, s) :=
    match s with
    | String "-"%char s' => (true, s')
    | String "+"%char s' => (false, s')
    | _ => (false, s)
    end in
  if starts_with is_digit s
  then let '(v, rest) := scan_digits s 0 in
       Some (if negative : bool then - v else v, rest)
  else None.

(** Out of range, [%ld] stores [LONG_MAX] or [LONG_MIN]; [%d] stores the
    low 32 bits of that. *)
Definition clamp_long (z : Z) : Z := Z.max (- 2 ^ 63) (Z.min z (2 ^ 63 - 1)).
Definition wrap32 (z : Z) : Z := (z + 2 ^ 31) mod 2 ^ 32 - 2 ^ 31.

Definition in_set (negated : bool) (chars : list ascii) (a : ascii) : bool :=
  xorb negated (bool_decide (a ∈ chars)).

Fixpoint scan_set (width : nat) (negated : bool) (chars : list ascii)
    (s : string) : string * string :=
  match width, s with
  | Datatypes.S width', String a s' =>
      if in_set negated chars a
      then let '(got, rest) := scan_set width' negated chars s' in
           (String a got, rest)
      else (EmptyString, s)
  | _, _ => (EmptyString, s)
  end.

(** [fscanf(fin, format, ...)]: the values assigned, in order (their
    number is the return value when any directive was reached), and the
    rest of the stream. *)
Fixpoint fscanf (format : list directive) (fin : string)
  : list scanned * string :=
  match format with
  | [] => ([], fin)
  | whitespace :: format' => fscanf format' (ltrim fin)
  | conv_ld :: format' =>
      match scan_integer fin with
      | Some (z, rest) =>
          let '(got, fin') := fscanf format' rest in
          (scanned_long (clamp_long z) :: got, fin')
      | None => ([], fin)
      end
  | conv_d :: format' =>
      match scan_integer fin with
      | Some (z, rest) =>
          let '(got, fin') := fscanf format' rest in
          (scanned_int (wrap32 (clamp_long z)) :: got, fin')
      | None => ([], fin)
      end
  | conv_set assign width negated chars :: format' =>
      let w := match width with
               | Some w => Z.to_nat w
               | None => String.length fin
               end in
      match scan_set w negated chars fin with
      | (EmptyString, _) => ([], fin)
      | (str, rest) =>
          let '(got, fin') := fscanf format' rest in
          (if assign then scanned_str str :: got else got, fin')
      end
  end.

(** ["%ld\t%d%*[\n]"], ["%ld%*[\n]"], ["%1024[^\t]\t%ld\t%ld%*[^\n]"] and
    ["%1024[^\t]\t%ld%*[^\n]"]. *)
Definition format_header : list directive :=
  [conv_ld; whitespace; conv_d; conv_set false None false ["010"%char]].
Definition format_number : list directive :=
  [conv_ld; conv_set false None false ["010"%char]].
Definition format_counts : list directive :=
  [conv_set true (Some 1024) true ["009"%char]; whitespace; conv_ld;
   whitespace; conv_ld; conv_set false None true ["010"%char]].
Definition format_inflected : list directive :=
  [conv_set true (Some 1024) true ["009"%char]; whitespace; conv_ld;
   conv_set false None true ["010"%char]].

(** [feof(fin)] right after [fscanf(fin, format, ...)]: the end-of-file
    indicator is set when a directive tried to read past the last byte.
    A scan set that has filled its width reads no further. *)
Fixpoint fscanf_feof (format : list directive) (fin : string) : bool :=
  match format with
  | [] => false
  | whitespace :: format' =>
      match ltrim fin with
      | EmptyString => true
      | rest => fscanf_feof format' rest
      end
  | conv_ld :: format' | conv_d :: format' =>
      match scan_integer fin with
      | Some (_, EmptyString) => true
      | Some (_, rest) => fscanf_feof format' rest
      | None =>
          match ltrim fin with
          | EmptyString | String "-"%char EmptyString
          | String "+"%char EmptyString => true
          | _ => false
          end
      end
  | conv_set _ width negated chars :: format' =>
      let w := match width with
               | Some w => Z.to_nat w
               | None => String.length fin
               end in
      match scan_set w negated chars fin with
      | (EmptyString, _) => bool_decide (fin = EmptyString)
      | (str, rest) =>
          let filled := match width with
                        | Some w => (Z.to_nat w <=? String.length str)%nat
                        | None => false
                        end in
          if filled then fscanf_feof format' rest
          else match rest with
               | EmptyString => true
               | _ => fscanf_feof format' rest
               end
      end
  end.

(** ["%1024[^\t]\t%1024[^\t]\t%ld%*[\n]"] *)
Definition format_line : list directive :=
  [conv_set true (Some 1024) true ["009"%char]; whitespace;
   conv_set true (Some 1024) true ["009"%char]; whitespace; conv_ld;
   conv_set false None false ["010"%char]].

(* ===================================================================== *)
(** * Main model methods *)
(* ===================================================================== *)

Module Model.

Record t : Type := mk {
  _replacements : gmap string (gmap string (Z * Z));
  _lemcounts : gmap string (Z * Z);
  _infcounts : gmap string (Z * Z);
  _max_suffix_size : Z;
  _is_trimmed : bool
}.

Definition is_trimmed (model : t) : bool := _is_trimmed model.

(** [Model::Model(size_t max_suffix_size)] *)
Definition new (max_suffix_size : Z) : result t :=
  if (max_suffix_size <? 1) || (1024 <? max_suffix_size)
  then Throw (runtime_error "must be 1 <= max_suffix_size <= 1024")
  else Ok (mk ∅ ∅ ∅ max_suffix_size false).

(** [data.first += tp; data.second += fp;] *)
Definition accumulate (data : Z * Z) (tp fp : Z) : Z * Z :=
  (ladd data.1 tp, ladd data.2 fp).

(** [m[key]] of a table of counts: a missing entry reads as the
    value-initialised pair, which [operator[]] inserts. *)
Definition at_key (m : gmap string (Z * Z)) (key : string) : Z * Z :=
  match m !! key with
  | Some data => data
  | None => (0, 0)
  end.

Definition update_replacement (model : t) (inf lem : string) (tp fp : Z) : t :=
  let inner :=
    match _replacements model !! inf with
    | Some inner => inner
    | None => ∅
    end in
  let data := at_key inner lem in
  mk (<[inf := <[lem := accumulate data tp fp]> inner]> (_replacements model))
     (_lemcounts model) (_infcounts model)
     (_max_suffix_size model) (_is_trimmed model).

Definition update_inflected (model : t) (inf : string) (tp fp : Z) : t :=
  let data := at_key (_infcounts model) inf in
  mk (_replacements model) (_lemcounts model)
     (<[inf := accumulate data tp fp]> (_infcounts model))
     (_max_suffix_size model) (_is_trimmed model).

Definition update_lemma (model : t) (lem : string) (tp fp : Z) : t :=
  let data := at_key (_lemcounts model) lem in
  mk (_replacements model)
     (<[lem := accumulate data tp fp]> (_lemcounts model)) (_infcounts model)
     (_max_suffix_size model) (_is_trimmed model).

(** [v[k]] of a [std::vector<long>] *)
Definition vec_at (v : list Z) (k : Z) : Z := v !!! Z.to_nat k.

(** [s.substr(codepoints[std::min(size-1, i)])], with [size] the size of
    the vector. *)
Definition suffix_at (s : string) (codepoints : list Z) (i : Z) : string :=
  substr_from s
    (vec_at codepoints (Z.min (Z.of_nat (length codepoints) - 1) i)).

(** The five calls that record one pair of suffixes; [correct] is the test
    [i <= prefixsize-1]. *)
Definition record_pair (infsuf lemsuf : string) (correct : bool) (count : Z)
    (model : t) : t :=
  let model :=
    if correct
    then update_replacement model infsuf lemsuf count 0
    else update_replacement model infsuf lemsuf 0 count in
  let model := update_lemma model lemsuf count 0 in
  let model := update_lemma model infsuf 0 count in
  let model := update_inflected model infsuf count 0 in
  update_inflected model lemsuf 0 count.

(** The body of the training loop at suffix-start index [i]. *)
Definition update_at (inf lem : string) (infcodepoints lemcodepoints : list Z)
    (prefixsize count : Z) (model : t) (i : Z) : t :=
  let infsuf := suffix_at inf infcodepoints i in
  let lemsuf := suffix_at lem lemcodepoints i in
  record_pair infsuf lemsuf (i <=? prefixsize - 1) count model.

(** [for (long i = from ; i >= m ; --i) body]; [fuel] bounds the number
    of iterations. *)
Fixpoint for_down {S : Type} (fuel : nat) (i m : Z) (body : S -> Z -> S)
    (st : S) : S :=
  match fuel with
  | O => st
  | Datatypes.S fuel' =>
      if i >=? m then for_down fuel' (i - 1) m body (body st i) else st
  end.

(** [n] and [m] of [Model::update], from the sizes of the two vectors
    (sentinel included). *)
Definition update_n (infsize lemsize : Z) : Z := Z.max infsize lemsize.

Definition update_m (n max_suffix_size : Z) : Z :=
  Z.max (n - (max_suffix_size + 1)) 0.

Definition update (model : t) (inflected lemma : string) (count : Z)
  : result t :=
  if is_trimmed model
  then Throw (runtime_error "Cannot update a trimmed model.") else
  let inf := "$" +:+ inflected in
  let lem := "$" +:+ lemma in
  let '(infok, infcodepoints) := store_codepoints inf in
  let '(lemok, lemcodepoints) := store_codepoints lem in
  if negb infok || negb lemok
  then Throw (runtime_error "Utf-8 decode error.") else
  let infcodepoints := infcodepoints ++ [str_size inf] in
  let lemcodepoints := lemcodepoints ++ [str_size lem] in
  let infsize := Z.of_nat (length infcodepoints) in
  let lemsize := Z.of_nat (length lemcodepoints) in
  let n := update_n infsize lemsize in
  let m := update_m n (_max_suffix_size model) in
  let prefixsize := common_prefix_size inf lem infcodepoints lemcodepoints in
  Ok (for_down (Z.to_nat (n - 1 - m)) (n - 2) m
        (update_at inf lem infcodepoints lemcodepoints prefixsize count)
        model).

Section Traversed.
Context `{Traversal}.

(** One candidate [k] of [repit->second] in the loop of [lemmatize]; the
    state is [(best_lemma, best_prob, iter_found)]. *)
Definition consider (model : t) (inf : string) (cp : Z) (prB : float)
    (st : string * float * bool) (k : string * (Z * Z))
  : string * float * bool :=
  let lemsuf := k.1 in
  match _lemcounts model !! lemsuf with
  | None => st
  | Some lemdata =>
      let prA := compute_prob lemdata in
      let prBA := compute_prob k.2 in
      let prAB := (prBA * prA / prB)%float in
      if (st.1.2 <? prAB)%float
      then (substr inf 0 cp +:+ lemsuf, prAB, true)
      else st
  end.

(** [for (long i=0 ; i<n ; ++i)] over [codepoints[i]]. *)
Fixpoint lemmatize_loop (model : t) (inflected inf : string)
    (codepoints : list Z) (best_lemma : string) : result string :=
  match codepoints with
  | [] => Ok inflected
  | cp :: codepoints' =>
      let infsuf := substr_from inf cp in
      match _infcounts model !! infsuf with
      | None => lemmatize_loop model inflected inf codepoints' best_lemma
      | Some infdata =>
          let prB := compute_prob infdata in
          match _replacements model !! infsuf with
          | None => lemmatize_loop model inflected inf codepoints' best_lemma
          | Some reps =>
              let st := fold_left (consider model inf cp prB) (entries reps)
                                  (best_lemma, 0%float, false) in
              if st.2 then substr_checked st.1.1 1
              else lemmatize_loop model inflected inf codepoints' st.1.1
          end
      end
  end.

Definition lemmatize (model : t) (inflected : string) : result string :=
  let inf := trim ("$" +:+ inflected) in
  let '(ok, codepoints) := store_codepoints inf in
  if negb ok then Throw (runtime_error "Utf-8 decode error!") else
  lemmatize_loop model inflected inf (codepoints ++ [str_size inf]) "".

End Traversed.

(** ** Other model related methods: [train]

    The file is the string of its bytes; [fopen] succeeds. *)

(** The [while] loop of [Model::train]; every pass that goes on consumes
    at least one byte of the file, which bounds the passes by [fuel]. *)
Fixpoint train_loop (fuel : nat) (fin : string) (model : t) (lineno : Z)
  : result t :=
  match fuel with
  | O => Ok model
  | S fuel' =>
      match fscanf format_line fin with
      | ([scanned_str inflected; scanned_str lemma; scanned_long count], fin') =>
          let inf := trim (c_str inflected) in
          let lem := trim (c_str lemma) in
          if (str_size inf =? 0) || (str_size lem =? 0)
          then Throw (runtime_error
                        ("Zero-length string on line " +:+ print_long lineno))
          else if count <=? 0
          then Throw (runtime_error ("count<=0 on line " +:+ print_long lineno))
          else
            model ← update model inf lem count;
            train_loop fuel' fin' model (ladd lineno 1)
      | _ =>
          if fscanf_feof format_line fin then Ok model
          else Throw (runtime_error
                        ("Read error after line " +:+ print_long lineno))
      end
  end.

Definition train (file : string) (max_suffix_size : Z) : result t :=
  model ← new max_suffix_size;
  train_loop (S (String.length file)) file model 0.

(** ** Other model related methods: [load] and [save]

    A file is the string of its bytes; [fopen] succeeds and the stream
    never reports an error. *)

(** [for (long i=0 ; i<num ; ++i)] reading ["key\ttp\tfp"] lines into
    [record] (one of [update_lemma], [update_inflected],
    [update_replacement inf]). *)
Fixpoint load_counts (num : nat) (record : t -> string -> Z -> Z -> t)
    (fin : string) (model : t) : result (t * string) :=
  match num with
  | O => Ok (model, fin)
  | Datatypes.S num' =>
      match fscanf format_counts fin with
      | ([scanned_str key; scanned_long tp; scanned_long fp], fin') =>
          let key := trim (c_str key) in
          load_counts num' record fin' (record model key tp fp)
      | _ => Throw (runtime_error "Could not read model data.")
      end
  end.

Fixpoint load_replacements (num : nat) (fin : string) (model : t)
  : result (t * string) :=
  match num with
  | O => Ok (model, fin)
  | Datatypes.S num' =>
      match fscanf format_inflected fin with
      | ([scanned_str inflected; scanned_long numlems], fin') =>
          let inf := trim (c_str inflected) in
          r ← load_counts (Z.to_nat numlems)
                (fun model lem => update_replacement model inf lem)
                fin' model;
          load_replacements num' r.2 r.1
      | _ => Throw (runtime_error "Could not read model data.")
      end
  end.

Definition load (file : string) : result t :=
  match fscanf format_header file with
  | ([scanned_long maxsuf; scanned_int trimmed], fin) =>
      model ← new maxsuf;
      let model :=
        mk (_replacements model) (_lemcounts model) (_infcounts model)
           (_max_suffix_size model) (negb (trimmed =? 0)) in
      match fscanf format_number fin with
      | ([scanned_long numlemmas], fin) =>
          r ← load_counts (Z.to_nat numlemmas) update_lemma fin model;
          match fscanf format_number r.2 with
          | ([scanned_long numinflections], fin) =>
              r ← load_counts (Z.to_nat numinflections) update_inflected
                    fin r.1;
              match fscanf format_number r.2 with
              | ([scanned_long numreplacements], fin) =>
                  r ← load_replacements (Z.to_nat numreplacements) fin r.1;
                  Ok r.1
              | _ => Throw (runtime_error
                              "Could not read the number of replacements")
              end
          | _ => Throw (runtime_error
                          "Could not read number of inflected forms.")
          end
      | _ => Throw (runtime_error "Could not read number of lemmas.")
      end
  | _ => Throw (runtime_error
                  "Could not read max suffix size and trimmed state.")
  end.

Section Saved.
Context `{Traversal}.

(** ["%s\t%ld\t%ld\n"] *)
Definition counts_line (kv : string * (Z * Z)) : string :=
  c_str kv.1 +:+ TAB +:+ print_long kv.2.1 +:+ TAB +:+ print_long kv.2.2
  +:+ NL.

Definition counts_lines (m : gmap string (Z * Z)) : string :=
  join (counts_line <$> entries m).

(** ["%s\t%ld\n"] and the inner loop of [save]. *)
Definition replacement_lines (kv : string * gmap string (Z * Z)) : string :=
  c_str kv.1 +:+ TAB +:+ print_long (Z.of_nat (size kv.2)) +:+ NL
  +:+ counts_lines kv.2.

Definition save (model : t) : string :=
  print_long (_max_suffix_size model) +:+ TAB
  +:+ print_long (if is_trimmed model then 1 else 0) +:+ NL
  +:+ print_long (Z.of_nat (size (_lemcounts model))) +:+ NL
  +:+ counts_lines (_lemcounts model)
  +:+ print_long (Z.of_nat (size (_infcounts model))) +:+ NL
  +:+ counts_lines (_infcounts model)
  +:+ print_long (Z.of_nat (size (_replacements model))) +:+ NL
  +:+ join (replacement_lines <$> entries (_replacements model)).

End Saved.

(** ** [Model::trim] *)

(** The erase loops of [Model::trim] keep exactly the entries whose
    [first] is not 0. *)
Definition keep (kv : string * (Z * Z)) : Prop := kv.2.1 ≠ 0.

Global Instance keep_dec kv : Decision (keep kv).
Proof. unfold keep. apply _. Defined.

Definition trim_inner (inner : gmap string (Z * Z))
  : option (gmap string (Z * Z)) :=
  let inner' := filter keep inner in
  if decide (size inner' = 0%nat) then None else Some inner'.

Definition trim (model : t) : t :=
  if is_trimmed model then model else
  mk (omap trim_inner (_replacements model))
     (filter keep (_lemcounts model))
     (filter keep (_infcounts model))
     (_max_suffix_size model) true.

End Model.

(* ===================================================================== *)
(** * Vocabulary of the properties *)
(* ===================================================================== *)

(** Offsets, counted from [i], of the bytes of [s] that begin a codepoint. *)
Fixpoint starts_from (s : string) (i : Z) : list Z :=
  match s with
  | EmptyString => []
  | String a s' =>
      if found_start (byte_of a) then i :: starts_from s' (i + 1)
      else starts_from s' (i + 1)
  end.

(** What the segmenter accepts: no byte [0xFE] or [0xFF], and no
    continuation byte in front. *)
Definition segmentable (s : string) : bool :=
  all_chars (fun a => negb (is_stray a)) s && negb (starts_with is_cont s).

(** Accumulating [(tp, fp)] at [key] of a table of counts, creating the
    entry with zero counts when it is absent. *)
Definition bump (m : gmap string (Z * Z)) (key : string) (tp fp : Z)
  : gmap string (Z * Z) :=
  <[key := Model.accumulate (Model.at_key m key) tp fp]> m.

(** [m[inf]] of the nested table, empty when [inf] is absent. *)
Definition inner (m : gmap string (gmap string (Z * Z))) (inf : string)
  : gmap string (Z * Z) :=
  match m !! inf with
  | Some reps => reps
  | None => ∅
  end.

Definition bump_replacement (m : gmap string (gmap string (Z * Z)))
    (inf lem : string) (tp fp : Z) : gmap string (gmap string (Z * Z)) :=
  <[inf := bump (inner m inf) lem tp fp]> m.

(** The counts a table holds at [key]: zero counts when it has no entry
    there. *)
Definition counts_at (m : gmap string (Z * Z)) (key : string) : Z * Z :=
  default (0, 0) (m !! key).

(** The pair [p] with [tp] added to its first count and [fp] to its
    second, in the arithmetic of [long]. *)
Definition plus_counts (p : Z * Z) (tp fp : Z) : Z * Z :=
  (wrap64 (p.1 + tp), wrap64 (p.2 + fp)).

(** The table [m'] is the table [m] after [(tp, fp)] has been accumulated
    at [key]: the entry at [key] holds what [m] held there, or zero
    counts, plus [(tp, fp)], and every other key is as in [m]. *)
Definition accumulated (m m' : gmap string (Z * Z)) (key : string)
    (tp fp : Z) : Prop :=
  m' !! key = Some (plus_counts (counts_at m key) tp fp) /\
  forall k, k <> key -> m' !! k = m !! k.

(** The same for the nested table: [(tp, fp)] has been accumulated at
    [lem] of the inner table of [inf], and every other outer key is as in
    [m]. *)
Definition accumulated_replacement (m m' : gmap string (gmap string (Z * Z)))
    (inf lem : string) (tp fp : Z) : Prop :=
  (exists reps', m' !! inf = Some reps' /\
                 accumulated (inner m inf) reps' lem tp fp) /\
  forall k, k <> inf -> m' !! k = m !! k.

(** One call of an update primitive. *)
Inductive record_op : Type :=
  | op_replacement (inf lem : string) (tp fp : Z)
  | op_lemma (lem : string) (tp fp : Z)
  | op_inflected (inf : string) (tp fp : Z).

Definition run (model : Model.t) (o : record_op) : Model.t :=
  match o with
  | op_replacement inf lem tp fp => Model.update_replacement model inf lem tp fp
  | op_lemma lem tp fp => Model.update_lemma model lem tp fp
  | op_inflected inf tp fp => Model.update_inflected model inf tp fp
  end.

Definition pair_ops (infsuf lemsuf : string) (correct : bool) (count : Z)
  : list record_op :=
  [ op_replacement infsuf lemsuf (if correct then count else 0)
                                 (if correct then 0 else count);
    op_lemma lemsuf count 0; op_lemma infsuf 0 count;
    op_inflected infsuf count 0; op_inflected lemsuf 0 count ].

(** The indices [hi], [hi - 1], ..., [lo]. *)
Definition descending (hi lo : Z) : list Z := rev (seqZ lo (hi - lo + 1)).

(** The codepoints of [s] as its boundaries cut them: the spans between
    consecutive entries, starting at [from]. *)
Fixpoint spans (s : string) (from : Z) (cps : list Z) : list string :=
  match cps with
  | [] => []
  | x :: cps' => substr s from (x - from) :: spans s x cps'
  end.

Definition codepoints_of (s : string) (cps : list Z) : list string :=
  match cps with
  | [] => []
  | x :: cps' => spans s x cps'
  end.

Fixpoint shared_prefix (l1 l2 : list string) : nat :=
  match l1, l2 with
  | c1 :: l1', c2 :: l2' =>
      if decide (c1 = c2) then S (shared_prefix l1' l2') else O
  | _, _ => O
  end.

(** The number of leading codepoints shared verbatim by [a] and [b]. *)
Definition shared_codepoints (a b : string) (acodepoints bcodepoints : list Z)
  : Z :=
  Z.of_nat (shared_prefix (codepoints_of a acodepoints)
                          (codepoints_of b bcodepoints)).

(** A codepoint index list of [s]: it starts at 0, never decreases and
    stays within the string. *)
Definition index_list (s : string) (cps : list Z) : Prop :=
  head cps = Some 0 /\ StronglySorted Z.le cps /\
  Forall (fun x => x <= str_size s) cps.

(** The word with the start marker in front. *)
Definition marked (word : string) : string := "$" +:+ word.

(** The codepoint index list of [s] as the trainer and the inferencer
    build it: the starts of its codepoints, then the sentinel. *)
Definition boundaries (s : string) : list Z := starts_from s 0 ++ [str_size s].

Definition codepoint_count (s : string) : Z :=
  Z.of_nat (length (starts_from s 0)).

(** The suffix of [s] made of its codepoints from the [i]-th on. *)
Definition suffix_from_codepoint (s : string) (i : Z) : string :=
  join (drop (Z.to_nat i) (codepoints_of s (boundaries s))).

(** The loop body of one training call. *)
Definition training_step (inflected lemma : string) (count : Z)
  : Model.t -> Z -> Model.t :=
  let inf := marked inflected in
  let lem := marked lemma in
  Model.update_at inf lem (boundaries inf) (boundaries lem)
    (common_prefix_size inf lem (boundaries inf) (boundaries lem)) count.

(** The lowest suffix-start index as the specification words it. *)
Definition claimed_m (n max_suffix_size : Z) : Z :=
  Z.max (n - max_suffix_size - 2) 0.

(** Every count pair of the three tables satisfies [P]. *)
Definition all_counts (P : Z * Z -> Prop) (model : Model.t) : Prop :=
  map_Forall (fun _ p => P p) (Model._lemcounts model) /\
  map_Forall (fun _ p => P p) (Model._infcounts model) /\
  map_Forall (fun _ reps => map_Forall (fun _ p => P p) reps)
             (Model._replacements model).

(** The score [prAB] of the candidate [lemsuf] for [infsuf]; there is none
    when one of the three entries is missing. *)
Definition score (model : Model.t) (infsuf lemsuf : string) : option float :=
  match Model._infcounts model !! infsuf,
        inner (Model._replacements model) infsuf !! lemsuf,
        Model._lemcounts model !! lemsuf with
  | Some infdata, Some repdata, Some lemdata =>
      Some (compute_prob repdata * compute_prob lemdata
            / compute_prob infdata)%float
  | _, _, _ => None
  end.

(** The same score, for an entry [k] of the inner table of an inflected
    suffix whose probability is [prB]. *)
Definition candidate_score (model : Model.t) (prB : float)
    (k : string * (Z * Z)) : option float :=
  match Model._lemcounts model !! k.1 with
  | Some lemdata =>
      Some (compute_prob k.2 * compute_prob lemdata / prB)%float
  | None => None
  end.

(** Some candidate of [infsuf] has a strictly positive score. *)
Definition applicable (model : Model.t) (infsuf : string) : Prop :=
  exists lemsuf x, score model infsuf lemsuf = Some x /\ (0 <? x)%float = true.

(** [a] is visited before [b] in the traversal [l]. *)
Definition precedes {V : Type} (l : list (string * V)) (a b : string) : Prop :=
  exists l1 l2 va vb, l = l1 ++ (b, vb) :: l2 /\ (a, va) ∈ l1.

(** [lemsuf], of score [x], is the candidate the inferencer picks for
    [infsuf]: its score is positive, no candidate scores strictly higher,
    and no candidate visited before it scores as high. *)
Definition winner `{Traversal} (model : Model.t) (infsuf lemsuf : string)
    (x : float) : Prop :=
  score model infsuf lemsuf = Some x /\ (0 <? x)%float = true /\
  (forall l y, score model infsuf l = Some y -> (x <? y)%float = false) /\
  (forall l y,
     precedes (entries (inner (Model._replacements model) infsuf)) l lemsuf ->
     score model infsuf l = Some y -> (x <=? y)%float = false).

(** The store built from a new model by training on the corpus lines
    [(inflected, lemma, count)] in order. *)
Definition trained_on (max_suffix_size : Z)
    (corpus : list (string * string * Z)) : result Model.t :=
  fold_left (fun r line => r ≫= fun model =>
               Model.update model line.1.1 line.1.2 line.2)
            corpus (Model.new max_suffix_size).

(** The start marker ['$']. *)
Definition is_marker (a : ascii) : bool := byte_of a =? 0x24.

Definition marker_free (word : string) : bool :=
  all_chars (fun a => negb (is_marker a)) word.

(** No suffix that starts with the marker is mapped to the empty lemma
    suffix. *)
Definition marker_safe (model : Model.t) : Prop :=
  forall k, starts_with is_marker k = true ->
            inner (Model._replacements model) k !! "" = None.

(** An inflected suffix that starts with the marker is only ever replaced
    by lemma suffixes that start with the marker. *)
Definition marker_kept (model : Model.t) : Prop :=
  forall k l, starts_with is_marker k = true ->
    is_Some (inner (Model._replacements model) k !! l) ->
    starts_with is_marker l = true.

(** ** Vocabulary of the further properties *)

(** The last character of [s] satisfies [p]. *)
Fixpoint ends_with (p : ascii -> bool) (s : string) : bool :=
  match s with
  | EmptyString => false
  | String a s' =>
      match s' with
      | EmptyString => p a
      | String _ _ => ends_with p s'
      end
  end.

(** One codepoint as the segmenter sees it: a byte that matches one of
    its six patterns, then continuation bytes only. *)
Definition one_codepoint (c : string) : bool :=
  match c with
  | EmptyString => false
  | String a r => found_start (byte_of a) && all_chars is_cont r
  end.

(** [(tp, fp)] with the two counts exchanged. *)
Definition swap_counts (p : Z * Z) : Z * Z := (p.2, p.1).

(** The inflected counts are the lemma counts with [tp] and [fp]
    exchanged. *)
Definition mirrored (model : Model.t) : Prop :=
  Model._infcounts model = swap_counts <$> Model._lemcounts model.

(** Every pair of the replacement table has its inflected suffix in the
    inflected counts and its lemma suffix in the lemma counts. *)
Definition covered (model : Model.t) : Prop :=
  forall k l, is_Some (inner (Model._replacements model) k !! l) ->
    is_Some (Model._infcounts model !! k) /\
    is_Some (Model._lemcounts model !! l).

(** One line of the corpus applied to the outcome so far. *)
Definition train_line (r : result Model.t) (line : string * string * Z)
  : result Model.t :=
  r ≫= fun model => Model.update model line.1.1 line.1.2 line.2.

(** No byte of the word is [0xFE] or [0xFF]. *)
Definition stray_free (w : string) : bool :=
  all_chars (fun a => negb (is_stray a)) w.

(** [k] is a key of one of the tables of the store. *)
Definition is_key (model : Model.t) (k : string) : Prop :=
  is_Some (Model._lemcounts model !! k) \/
  is_Some (Model._infcounts model !! k) \/
  is_Some (Model._replacements model !! k) \/
  exists inf, is_Some (inner (Model._replacements model) inf !! k).

(** A double that is a zero or not a number. *)
Definition zero_or_nan (x : float) : bool :=
  match Prim2SF x with
  | S754_zero _ | S754_nan => true
  | _ => false
  end.

(** Every inflected suffix that has replacements has a nonzero [tp] in the
    inflected counts, if it is counted there at all. *)
Definition supported (model : Model.t) : Prop :=
  forall k p, Model._infcounts model !! k = Some p -> p.1 = 0 ->
              Model._replacements model !! k = None.

(** Erasing entries of a table does not reorder the entries that stay. *)
Definition erase_stable `{Traversal} : Prop :=
  forall m : gmap string (Z * Z),
    entries (filter Model.keep m) = filter Model.keep (entries m).

(** Both counts of the pair lie between 0 and [b]. *)
Definition within (b : Z) (p : Z * Z) : Prop :=
  0 <= p.1 <= b /\ 0 <= p.2 <= b.

(** Every inflected suffix that has replacements is counted as an
    inflected suffix at least once. *)
Definition backed (model : Model.t) : Prop :=
  forall k, is_Some (Model._replacements model !! k) ->
    exists p, Model._infcounts model !! k = Some p /\ 1 <= p.1.

(** The sum of the counts of the corpus lines. *)
Definition total_count (corpus : list (string * string * Z)) : Z :=
  foldr (fun line acc => line.2 + acc) 0 corpus.

(** A key that [save] writes and [load] reads back as it is: not empty,
    without tab or NUL, without white space at either end, and of at most
    1023 bytes. *)
Definition clean_key (k : string) : bool :=
  negb (bool_decide (k = ""))
  && all_chars (fun a => negb (byte_of a =? 0x09) && negb (byte_of a =? 0)) k
  && negb (starts_with isspace k) && negb (ends_with isspace k)
  && (str_size k <=? 1023).

(** [z] is a value of a [long]. *)
Definition is_long (z : Z) : Prop := - 2 ^ 63 <= z < 2 ^ 63.

(** An entry that [save] writes and [load] reads back as it is. *)
Definition clean_entry (kv : string * (Z * Z)) : Prop :=
  clean_key kv.1 = true /\ is_long kv.2.1 /\ is_long kv.2.2.

(** What is left in front of the stream after a section of [l] lines that
    began after [pre]. *)
Definition left_over {A : Type} (pre : string) (l : list A) : string :=
  match l with
  | [] => pre
  | _ :: _ => NL
  end.

(** An inner table that [save] writes and [load] reads back as it is. *)
Definition clean_table (m : gmap string (Z * Z)) : Prop :=
  map_Forall (fun k p => clean_entry (k, p)) m /\ is_long (Z.of_nat (size m)).

(** A store that [save] writes in a form [load] reads back: a maximal
    suffix size the constructor accepts, clean keys, counts and sizes that
    are values of a [long], and no inflected suffix with an empty inner
    table. *)
Definition persistable (model : Model.t) : Prop :=
  1 <= Model._max_suffix_size model <= 1024 /\
  clean_table (Model._lemcounts model) /\
  clean_table (Model._infcounts model) /\
  is_long (Z.of_nat (size (Model._replacements model))) /\
  map_Forall (fun k reps => clean_key k = true /\ clean_table reps /\ reps <> ∅)
             (Model._replacements model).

(** The training file of a corpus: one line
    ["inflected\tlemma\tcount\n"] per entry. *)
Definition corpus_line (line : string * string * Z) : string :=
  line.1.1 +:+ TAB +:+ line.1.2 +:+ TAB +:+ print_long line.2 +:+ NL.

(** The file of the whole corpus. *)
Definition corpus_file (corpus : list (string * string * Z)) : string :=
  join (corpus_line <$> corpus).

(** A corpus line whose two words are clean keys and whose count is a
    value of a [long]. *)
Definition clean_line (line : string * string * Z) : Prop :=
  clean_key line.1.1 = true /\ clean_key line.1.2 = true /\ is_long line.2.

(** Every replacement of the store maps a suffix to itself. *)
Definition diagonal (model : Model.t) : Prop :=
  forall k l, is_Some (inner (Model._replacements model) k !! l) -> k = l.

(** The byte cannot begin the text of a number: it is no white space, no
    digit and no sign. *)
Definition no_number_start (a : ascii) : bool :=
  negb (isspace a) && negb (is_digit a)
  && negb (byte_of a =? 0x2D) && negb (byte_of a =? 0x2B).

(** A field of white space only that [fscanf] reads as a first field: not
    empty, of at most 1024 bytes, without tab, and not starting with the
    newline that ends the line before. *)
Definition blank_field (f : string) : bool :=
  negb (bool_decide (f = ""))
  && all_chars (fun a => isspace a && negb (byte_of a =? 0x09)) f
  && negb (starts_with (fun a => byte_of a =? 0x0A) f)
  && (str_size f <=? 1024).

(* ===================================================================== *)
(** * Properties of strings and bytes *)
(* ===================================================================== *)

Lemma byte_of_range a : 0 <= byte_of a < 256.
Proof. destruct a as [[] [] [] [] [] [] [] []]; vm_compute; split; congruence. Qed.

Lemma in_range_true lo hi a :
  in_range lo hi a = true <-> lo <= byte_of a <= hi.
Proof. unfold in_range. rewrite andb_true_iff, !Z.leb_le. tauto. Qed.

Lemma in_range_false lo hi a :
  in_range lo hi a = false <-> byte_of a < lo \/ hi < byte_of a.
Proof. unfold in_range. rewrite andb_false_iff, !Z.leb_gt. tauto. Qed.

Lemma found_start_spec a :
  found_start (byte_of a) = negb (is_cont a) && negb (is_stray a).
Proof. destruct a as [[] [] [] [] [] [] [] []]; reflexivity. Qed.

Lemma shift6_spec a : (Z.shiftr (byte_of a) 6 =? 0x2) = is_cont a.
Proof. destruct a as [[] [] [] [] [] [] [] []]; reflexivity. Qed.

Lemma str_size_nonneg s : 0 <= str_size s.
Proof. unfold str_size. lia. Qed.

Lemma str_size_cons a s : str_size (String a s) = 1 + str_size s.
Proof. unfold str_size. simpl String.length. lia. Qed.

Lemma length_sdrop n : forall s,
  String.length (sdrop n s) = (String.length s - n)%nat.
Proof. induction n as [|n IH]; intros [|a s]; simpl; auto with lia. Qed.

Lemma length_stake n : forall s,
  String.length (stake n s) = (n `min` String.length s)%nat.
Proof. induction n as [|n IH]; intros [|a s]; simpl; auto with lia. Qed.

Lemma get_sdrop n : forall s i,
  String.get i (sdrop n s) = String.get (n + i) s.
Proof.
  induction n as [|n IH]; intros [|a s] i; simpl; auto.
Qed.

Lemma get_stake n : forall s i,
  String.get i (stake n s) = if decide (i < n)%nat then String.get i s else None.
Proof.
  induction n as [|n IH]; intros [|a s] i; simpl.
  - done.
  - by destruct i.
  - by case_decide.
  - destruct i as [|i]; simpl; [done|].
    rewrite IH. repeat case_decide; auto with lia.
Qed.

Lemma get_is_Some s : forall i,
  (i < String.length s)%nat -> is_Some (String.get i s).
Proof.
  induction s as [|a s IH]; intros i Hi; simpl in *; [lia|].
  destruct i; [eauto | apply IH; lia].
Qed.

Lemma get_None s : forall i,
  (String.length s <= i)%nat -> String.get i s = None.
Proof.
  induction s as [|a s IH]; intros i Hi; simpl in *; [done|].
  destruct i; [lia | apply IH; lia].
Qed.

Lemma stake_sdrop n s : stake n s +:+ sdrop n s = s.
Proof.
  revert s. induction n as [|n IH]; intros [|a s]; simpl; auto.
  unfold String.app in *. simpl. by rewrite IH.
Qed.

Lemma length_substr s pos len :
  0 <= pos -> 0 <= len -> pos + len <= str_size s ->
  str_size (substr s pos len) = len.
Proof.
  unfold str_size, substr. intros. rewrite length_stake, length_sdrop. lia.
Qed.

Lemma same_bytes_true a b from upto :
  same_bytes a b from upto = true <->
  forall i, from <= i < upto -> char_at a i = char_at b i.
Proof.
  unfold same_bytes. rewrite forallb_forall. split.
  - intros H i Hi. specialize (H i). rewrite bool_decide_eq_true in H.
    apply H. apply list_elem_of_In, elem_of_seqZ. lia.
  - intros H i Hi%list_elem_of_In%elem_of_seqZ.
    apply bool_decide_eq_true, H. lia.
Qed.

(** Two spans that begin at the same offset are the same codepoint exactly
    when they end at the same offset and no byte in between differs. *)
Lemma substr_eq_same_bytes a b p x y :
  0 <= p -> p <= x <= str_size a -> p <= y <= str_size b ->
  substr a p (x - p) = substr b p (y - p) <->
  x = y /\ same_bytes a b p x = true.
Proof.
  intros Hp Hx Hy. rewrite same_bytes_true. split.
  - intros Heq.
    assert (x = y) as <-.
    { apply (f_equal str_size) in Heq.
      rewrite !length_substr in Heq by lia. lia. }
    split; [done|]. intros i Hi.
    apply (f_equal (String.get (Z.to_nat (i - p)))) in Heq.
    unfold substr in Heq. rewrite !get_stake, !get_sdrop in Heq.
    rewrite !decide_True in Heq by lia.
    unfold char_at. replace (Z.to_nat i) with (Z.to_nat p + Z.to_nat (i - p))%nat by lia.
    by rewrite Heq.
  - intros [<- Hb]. apply String.get_correct. intros n.
    unfold substr. rewrite !get_stake, !get_sdrop.
    case_decide; [|done].
    specialize (Hb (p + Z.of_nat n) ltac:(lia)). unfold char_at in Hb.
    replace (Z.to_nat (p + Z.of_nat n)) with (Z.to_nat p + n)%nat in Hb by lia.
    unfold str_size in *.
    destruct (get_is_Some a (Z.to_nat p + n)) as [c1 H1]; [lia|].
    destruct (get_is_Some b (Z.to_nat p + n)) as [c2 H2]; [lia|].
    rewrite H1, H2 in *. by subst.
Qed.

(** ** The common prefix *)

Lemma common_prefix_loop_shared a b : forall xs ys j p,
  0 <= p ->
  StronglySorted Z.le (p :: xs) -> Forall (fun x => x <= str_size a) xs ->
  StronglySorted Z.le (p :: ys) -> Forall (fun y => y <= str_size b) ys ->
  common_prefix_loop a b xs ys j p =
  j + Z.of_nat (shared_prefix (spans a p xs) (spans b p ys)).
Proof.
  induction xs as [|x xs IH]; intros ys j p Hp Hsa Hba Hsb Hbb; simpl.
  { destruct ys; lia. }
  destruct ys as [|y ys]; simpl; [lia|].
  apply StronglySorted_inv in Hsa as [Hsa Hpa].
  apply StronglySorted_inv in Hsb as [Hsb Hpb].
  apply Forall_cons in Hba as [Hxa Hba], Hbb as [Hyb Hbb].
  apply Forall_cons in Hpa as [Hpx _], Hpb as [Hpy _].
  pose proof (substr_eq_same_bytes a b p x y Hp ltac:(lia) ltac:(lia)) as Heq.
  destruct (x =? y) eqn:Hxy; simpl.
  - apply Z.eqb_eq in Hxy as <-.
    destruct (same_bytes a b p x) eqn:Hsame; simpl.
    + rewrite decide_True by (apply Heq; auto).
      rewrite IH; auto with lia.
    + rewrite decide_False; [lia|]. rewrite Heq. intros [_ ?]; done.
  - apply Z.eqb_neq in Hxy.
    rewrite decide_False; [lia|]. rewrite Heq. intros [? _]; done.
Qed.

(** ** The segmenter *)

Lemma store_codepoints_loop_ok s : forall i v,
  0 <= i ->
  (store_codepoints_loop s i v).1 = true <->
  all_chars (fun a => negb (is_stray a)) s = true /\
  (i = 0 -> starts_with is_cont s = false).
Proof.
  induction s as [|a s IH]; intros i v Hi; simpl.
  - tauto.
  - rewrite found_start_spec, shift6_spec.
    destruct (is_cont a) eqn:Hc, (is_stray a) eqn:Hs; simpl.
    + unfold is_cont, is_stray in *.
      apply in_range_true in Hc, Hs. lia.
    + destruct (i =? 0) eqn:Hi0; simpl.
      * apply Z.eqb_eq in Hi0. split; [done | intros [_ H]; symmetry; auto].
      * apply Z.eqb_neq in Hi0. rewrite IH by lia. intuition lia.
    + split; [done | intros [? _]; done].
    + rewrite IH by lia. intuition lia.
Qed.

Lemma store_codepoints_loop_result s : forall i v,
  (store_codepoints_loop s i v).1 = true ->
  (store_codepoints_loop s i v).2 = v ++ starts_from s i.
Proof.
  induction s as [|a s IH]; intros i v; simpl.
  - intros _. by rewrite app_nil_r.
  - destruct (found_start (byte_of a)).
    + intros H. rewrite IH by done. by rewrite <- app_assoc.
    + destruct (negb (Z.shiftr (byte_of a) 6 =? 2) || (i =? 0)); [done|].
      apply IH.
Qed.

Lemma starts_from_bounds s : forall i x,
  x ∈ starts_from s i -> i <= x < i + str_size s.
Proof.
  induction s as [|a s IH]; intros i x; simpl.
  - intros H. by apply elem_of_nil in H.
  - rewrite str_size_cons. pose proof (str_size_nonneg s).
    destruct (found_start (byte_of a)).
    + intros [->|H1]%elem_of_cons; [lia|]. apply IH in H1. lia.
    + intros H1. apply IH in H1. lia.
Qed.

Lemma starts_from_sorted s : forall i, StronglySorted Z.lt (starts_from s i).
Proof.
  induction s as [|a s IH]; intros i; simpl; [constructor|].
  destruct (found_start (byte_of a)); [|apply IH].
  constructor; [apply IH|].
  apply Forall_forall. intros x Hx. apply starts_from_bounds in Hx. lia.
Qed.

Lemma boundaries_sorted s i :
  StronglySorted Z.lt (starts_from s i ++ [i + str_size s]).
Proof.
  apply StronglySorted_app_2; [| apply starts_from_sorted | repeat constructor].
  intros x y Hx ->%list_elem_of_singleton.
  apply starts_from_bounds in Hx. lia.
Qed.

Lemma starts_from_head a s i :
  found_start (byte_of a) = true ->
  starts_from (String a s) i = i :: starts_from s (i + 1).
Proof. simpl. by intros ->. Qed.

Lemma store_codepoints_ok s :
  (store_codepoints s).1 = segmentable s.
Proof.
  unfold store_codepoints, segmentable.
  apply eq_true_iff_eq.
  rewrite store_codepoints_loop_ok, andb_true_iff, negb_true_iff by lia.
  tauto.
Qed.

Lemma store_codepoints_result s :
  segmentable s = true -> store_codepoints s = (true, starts_from s 0).
Proof.
  intros H. rewrite <- store_codepoints_ok in H.
  pose proof (store_codepoints_loop_result s 0 [] H) as H2.
  unfold store_codepoints in *.
  destruct (store_codepoints_loop s 0 []) as [b v]; simpl in *. by subst.
Qed.

(** Turns the range tests on bytes into linear arithmetic. *)
Ltac byte_ranges :=
  unfold is_stray, is_cont, second_of_three, second_of_four in *;
  repeat progress (rewrite ?andb_true_iff, ?orb_true_iff, ?negb_true_iff,
    ?in_range_true, ?in_range_false in * ).

(** A well-formed string has no stray byte, and a lead byte in front. *)
Lemma valid_utf8_segmentable_aux n : forall s,
  (String.length s <= n)%nat -> valid_utf8 s = true ->
  all_chars (fun a => negb (is_stray a)) s = true /\
  starts_with is_cont s = false.
Proof.
  induction n as [|n IH]; intros s Hn Hv.
  { destruct s; [done | simpl in Hn; lia]. }
  destruct s as [|a1 r1]; [done|].
  simpl in Hv. simpl in Hn.
  destruct (in_range 0 127 a1) eqn:H1.
  { destruct (IH r1 ltac:(lia) Hv) as [Ha _]. simpl. rewrite Ha.
    clear IH Hv Ha. byte_ranges. lia. }
  destruct r1 as [|a2 r2]; [done|]. simpl in Hn.
  destruct (in_range 194 223 a1) eqn:H2.
  { apply andb_true_iff in Hv as [Hc2 Hv].
    destruct (IH r2 ltac:(lia) Hv) as [Ha _]. simpl. rewrite Ha.
    clear IH Hv Ha. byte_ranges. lia. }
  destruct r2 as [|a3 r3]; [done|]. simpl in Hn.
  destruct (in_range 224 239 a1) eqn:H3.
  { apply andb_true_iff in Hv as [Hv' Hv].
    destruct (IH r3 ltac:(lia) Hv) as [Ha _]. simpl. rewrite Ha.
    clear IH Hv Ha. byte_ranges. lia. }
  destruct r3 as [|a4 r4]; [done|]. simpl in Hn.
  apply andb_true_iff in Hv as [Hv' Hv].
  destruct (IH r4 ltac:(lia) Hv) as [Ha _]. simpl. rewrite Ha.
  clear IH Hv Ha. byte_ranges. lia.
Qed.

Lemma valid_utf8_segmentable s : valid_utf8 s = true -> segmentable s = true.
Proof.
  intros Hv. unfold segmentable.
  destruct (valid_utf8_segmentable_aux _ s (le_n _) Hv) as [-> ->]. done.
Qed.

(** C9, as amended: on well-formed UTF-8 the segmenter succeeds, and the
    boundaries it stores, followed by the sentinel (the byte length), are
    strictly increasing and end with the byte length.  A string starting
    with a continuation byte is refused.  Nothing else is checked but the
    bytes 0xFE and 0xFF: the segmenter accepts exactly the strings that
    have neither of these bytes nor a continuation byte in front, so a
    string ending in a lead byte whose continuation bytes are missing is
    accepted. *)
Theorem store_codepoints_spec :
  (forall s, valid_utf8 s = true ->
     exists v, store_codepoints s = (true, v) /\
       StronglySorted Z.lt (v ++ [str_size s]) /\
       last (v ++ [str_size s]) = Some (str_size s) /\
       Forall (fun x => 0 <= x) v) /\
  (forall s, starts_with is_cont s = true -> (store_codepoints s).1 = false) /\
  (forall s, (store_codepoints s).1 = true <->
     all_chars (fun a => negb (is_stray a)) s = true /\
     starts_with is_cont s = false) /\
  (forall s a, valid_utf8 s = true -> is_multibyte_lead a = true ->
     (store_codepoints (s +:+ String a "")).1 = true).
Proof.
  split; [|split; [|split]].
  - intros s Hv. exists (starts_from s 0).
    rewrite (store_codepoints_result s) by by apply valid_utf8_segmentable.
    split; [done|]. split; [apply (boundaries_sorted s 0)|].
    split; [by rewrite last_snoc|].
    apply Forall_forall. intros x Hx%starts_from_bounds. lia.
  - intros s Hs. rewrite store_codepoints_ok. unfold segmentable.
    rewrite Hs. apply andb_false_r.
  - intros s. rewrite store_codepoints_ok. unfold segmentable.
    rewrite andb_true_iff, negb_true_iff. tauto.
  - intros s a Hv Ha. rewrite store_codepoints_ok.
    apply valid_utf8_segmentable in Hv. unfold segmentable in *.
    apply andb_true_iff in Hv as [Hall Hhd].
    assert (Hl : negb (is_stray a) = true /\ is_cont a = false).
    { unfold is_multibyte_lead in Ha. byte_ranges. lia. }
    destruct Hl as [Hl1 Hl2].
    apply andb_true_iff. split.
    + clear Hhd. induction s as [|c s IH]; simpl in *.
      * by rewrite Hl1.
      * apply andb_true_iff in Hall as [-> Hall]. by apply IH.
    + destruct s; simpl in *; [by rewrite Hl2 | done].
Qed.

Lemma store_codepoints_spec_witness :
  let s := String "110" (String "195" (String "169" "e")) in
  exists v, store_codepoints s = (true, v) /\
    StronglySorted Z.lt (v ++ [str_size s]) /\
    last (v ++ [str_size s]) = Some (str_size s) /\
    Forall (fun x => 0 <= x) v.
Proof.
  destruct store_codepoints_spec as [H _]. apply H. reflexivity.
Defined.

(** C9 refuted as stated: the lone lead byte 0xC3 is a string ending
    mid-sequence, and the segmenter accepts it. *)
Lemma store_codepoints_accepts_truncated :
  let s := String "195"%char "" in
  valid_utf8 s = false /\ starts_with is_multibyte_lead s = true /\
  store_codepoints s = (true, [0]).
Proof. repeat split. Qed.

(** C4, as amended: on the codepoint index lists of the two strings
    (sentinel included) [common_prefix_size] returns one more than the
    number of leading codepoints shared verbatim: it counts the leading
    boundaries that agree, offset 0 included, and the trainer compares a
    cut [i] against [prefixsize - 1]. *)
Theorem common_prefix_size_spec (a b : string) (acodepoints bcodepoints : list Z) :
  index_list a acodepoints -> index_list b bcodepoints ->
  common_prefix_size a b acodepoints bcodepoints =
  1 + shared_codepoints a b acodepoints bcodepoints.
Proof.
  intros (Ha0 & Hsa & Hba) (Hb0 & Hsb & Hbb).
  destruct acodepoints as [|x xs]; [done|].
  destruct bcodepoints as [|y ys]; [done|].
  simpl in Ha0, Hb0. injection Ha0 as ->. injection Hb0 as ->.
  unfold common_prefix_size, shared_codepoints. simpl.
  replace (same_bytes a b 0 0) with true by done. simpl.
  apply Forall_cons in Hba as [_ Hba], Hbb as [_ Hbb].
  rewrite (common_prefix_loop_shared a b xs ys (0 + 1) 0); auto with lia.
Qed.

Lemma common_prefix_size_spec_witness :
  common_prefix_size "$cats" "$cat" [0; 1; 2; 3; 4; 5] [0; 1; 2; 3; 4] =
  1 + shared_codepoints "$cats" "$cat" [0; 1; 2; 3; 4; 5] [0; 1; 2; 3; 4].
Proof.
  apply common_prefix_size_spec.
  - split; [reflexivity|]. split.
    + repeat (constructor; [|repeat (constructor; [lia|]); constructor]).
      constructor.
    + repeat (constructor; [vm_compute; congruence|]). constructor.
  - split; [reflexivity|]. split.
    + repeat (constructor; [|repeat (constructor; [lia|]); constructor]).
      constructor.
    + repeat (constructor; [vm_compute; congruence|]). constructor.
Defined.

(** C4 refuted as stated: "$ab" and "$ac" share two leading codepoints,
    and [common_prefix_size] returns 3. *)
Lemma common_prefix_size_not_shared_count :
  common_prefix_size "$ab" "$ac" [0; 1; 2; 3] [0; 1; 2; 3] = 3 /\
  shared_codepoints "$ab" "$ac" [0; 1; 2; 3] [0; 1; 2; 3] = 2 /\
  store_codepoints "$ab" = (true, [0; 1; 2]) /\
  store_codepoints "$ac" = (true, [0; 1; 2]).
Proof. repeat split. Qed.

(** ** Counts *)

Lemma wrap64_small z : - 2 ^ 63 <= z < 2 ^ 63 -> wrap64 z = z.
Proof. intros Hz. unfold wrap64. rewrite Z.mod_small; lia. Qed.

Lemma wrap64_add_l x y : wrap64 (wrap64 x + y) = wrap64 (x + y).
Proof.
  unfold wrap64.
  replace ((x + 2 ^ 63) mod 2 ^ 64 - 2 ^ 63 + y + 2 ^ 63)
    with ((x + 2 ^ 63) mod 2 ^ 64 + y) by lia.
  rewrite Zplus_mod_idemp_l. f_equal. f_equal. lia.
Qed.

Lemma ladd_ladd x a b : ladd (ladd x a) b = ladd x (a + b).
Proof. unfold ladd. rewrite wrap64_add_l. f_equal. lia. Qed.

Lemma accumulate_accumulate d a b c e :
  Model.accumulate (Model.accumulate d a b) c e = Model.accumulate d (a + c) (b + e).
Proof. unfold Model.accumulate. simpl. by rewrite !ladd_ladd. Qed.

Lemma lookup_bump m k tp fp k' :
  bump m k tp fp !! k' =
  if decide (k = k') then Some (Model.accumulate (Model.at_key m k) tp fp)
  else m !! k'.
Proof. unfold bump. apply lookup_insert. Qed.

Lemma at_key_bump m k tp fp k' :
  Model.at_key (bump m k tp fp) k' =
  if decide (k = k') then Model.accumulate (Model.at_key m k) tp fp
  else Model.at_key m k'.
Proof. unfold Model.at_key at 1. rewrite lookup_bump. by case_decide. Qed.

Lemma bump_bump m k a b c e :
  bump (bump m k a b) k c e = bump m k (a + c) (b + e).
Proof.
  unfold bump at 1. rewrite at_key_bump, decide_True by done.
  rewrite accumulate_accumulate. unfold bump. apply insert_insert_eq.
Qed.

Lemma bump_comm m k a b k' c e :
  bump (bump m k a b) k' c e = bump (bump m k' c e) k a b.
Proof.
  destruct (decide (k = k')) as [<-|Hne].
  - rewrite !bump_bump. f_equal; lia.
  - unfold bump at 1 3. rewrite !at_key_bump, !decide_False by done.
    unfold bump. by apply insert_insert_ne.
Qed.

Lemma inner_bump_replacement m inf lem tp fp k :
  inner (bump_replacement m inf lem tp fp) k =
  if decide (inf = k) then bump (inner m inf) lem tp fp else inner m k.
Proof.
  unfold inner at 1, bump_replacement. rewrite lookup_insert.
  by case_decide.
Qed.

Lemma bump_replacement_twice m inf lem a b c e :
  bump_replacement (bump_replacement m inf lem a b) inf lem c e =
  bump_replacement m inf lem (a + c) (b + e).
Proof.
  unfold bump_replacement at 1.
  rewrite inner_bump_replacement, decide_True, bump_bump by done.
  unfold bump_replacement. apply insert_insert_eq.
Qed.

Lemma bump_replacement_comm m inf lem a b inf' lem' c e :
  bump_replacement (bump_replacement m inf lem a b) inf' lem' c e =
  bump_replacement (bump_replacement m inf' lem' c e) inf lem a b.
Proof.
  unfold bump_replacement at 1 3. rewrite !inner_bump_replacement.
  destruct (decide (inf = inf')) as [<-|Hne].
  - rewrite !decide_True by done. unfold bump_replacement.
    rewrite !insert_insert_eq. f_equal. apply bump_comm.
  - rewrite !decide_False by done. unfold bump_replacement.
    by apply insert_insert_ne.
Qed.

Lemma bump_accumulated m key tp fp : accumulated m (bump m key tp fp) key tp fp.
Proof.
  split.
  - rewrite lookup_bump, decide_True by done.
    unfold Model.accumulate, Model.at_key, counts_at, plus_counts, ladd.
    by destruct (m !! key).
  - intros k Hk. by rewrite lookup_bump, decide_False.
Qed.

Lemma bump_replacement_accumulated m inf lem tp fp :
  accumulated_replacement m (bump_replacement m inf lem tp fp) inf lem tp fp.
Proof.
  split.
  - exists (bump (inner m inf) lem tp fp). split.
    + unfold bump_replacement. by rewrite lookup_insert, decide_True.
    + apply bump_accumulated.
  - intros k Hk. unfold bump_replacement. by rewrite lookup_insert_ne.
Qed.

(** ** The update primitives as operations on a model *)

Lemma run_comm st o1 o2 : run (run st o1) o2 = run (run st o2) o1.
Proof.
  destruct st as [rep lem inf maxsuf trimmed].
  destruct o1, o2; simpl; unfold Model.update_replacement, Model.update_lemma,
    Model.update_inflected; simpl; f_equal;
    first [ apply bump_replacement_comm | apply bump_comm ].
Qed.

Lemma fold_run_perm l1 l2 :
  l1 ≡ₚ l2 -> forall st, fold_left run l1 st = fold_left run l2 st.
Proof.
  induction 1 as [|x l1 l2 _ IH|x y l|l1 l2 l3 _ IH1 _ IH2]; intros st; simpl.
  - done.
  - apply IH.
  - by rewrite run_comm.
  - by rewrite IH1.
Qed.

Lemma fold_run_merge x1 x2 x12 l1 l2 st :
  (forall s, run (run s x1) x2 = run s x12) ->
  fold_left run (x1 :: l1 ++ x2 :: l2) st =
  fold_left run (l1 ++ l2) (run st x12).
Proof.
  intros Hm.
  rewrite (fold_run_perm (x1 :: l1 ++ x2 :: l2) (x1 :: x2 :: l1 ++ l2)).
  - simpl. by rewrite Hm.
  - constructor. symmetry. apply Permutation_middle.
Qed.

Lemma record_pair_ops infsuf lemsuf correct count st :
  Model.record_pair infsuf lemsuf correct count st =
  fold_left run (pair_ops infsuf lemsuf correct count) st.
Proof. unfold Model.record_pair. by destruct correct. Qed.

Lemma run_replacement_twice s inf lem a b c e :
  run (run s (op_replacement inf lem a b)) (op_replacement inf lem c e) =
  run s (op_replacement inf lem (a + c) (b + e)).
Proof.
  destruct s. simpl. unfold Model.update_replacement. simpl. f_equal.
  apply bump_replacement_twice.
Qed.

Lemma run_lemma_twice s k a b c e :
  run (run s (op_lemma k a b)) (op_lemma k c e) =
  run s (op_lemma k (a + c) (b + e)).
Proof.
  destruct s. simpl. unfold Model.update_lemma. simpl. f_equal.
  apply bump_bump.
Qed.

Lemma run_inflected_twice s k a b c e :
  run (run s (op_inflected k a b)) (op_inflected k c e) =
  run s (op_inflected k (a + c) (b + e)).
Proof.
  destruct s. simpl. unfold Model.update_inflected. simpl. f_equal.
  apply bump_bump.
Qed.

(** Recording a pair with [c1] and again with [c2] is recording it once
    with [c1 + c2]. *)
Lemma record_pair_twice infsuf lemsuf correct c1 c2 st :
  Model.record_pair infsuf lemsuf correct c2
    (Model.record_pair infsuf lemsuf correct c1 st) =
  Model.record_pair infsuf lemsuf correct (c1 + c2) st.
Proof.
  rewrite !record_pair_ops, <- fold_left_app. unfold pair_ops.
  cbn [app].
  etrans; [eapply (fold_run_merge _ _ _ [_; _; _; _]); intros;
             apply run_replacement_twice|].
  cbn [app].
  etrans; [eapply (fold_run_merge _ _ _ [_; _; _]); intros; apply run_lemma_twice|].
  cbn [app].
  etrans; [eapply (fold_run_merge _ _ _ [_; _]); intros; apply run_lemma_twice|].
  cbn [app].
  etrans; [eapply (fold_run_merge _ _ _ [_]); intros; apply run_inflected_twice|].
  cbn [app].
  etrans; [eapply (fold_run_merge _ _ _ []); intros; apply run_inflected_twice|].
  cbn [app fold_left]. by destruct correct.
Qed.

Lemma record_pair_comm f1 l1 b1 c1 f2 l2 b2 c2 st :
  Model.record_pair f2 l2 b2 c2 (Model.record_pair f1 l1 b1 c1 st) =
  Model.record_pair f1 l1 b1 c1 (Model.record_pair f2 l2 b2 c2 st).
Proof.
  rewrite !record_pair_ops, <- !fold_left_app.
  apply fold_run_perm, Permutation_app_comm.
Qed.

(** ** The training loop *)

Lemma descending_nil hi lo : hi < lo -> descending hi lo = [].
Proof. intros. unfold descending. by rewrite seqZ_nil by lia. Qed.

Lemma descending_cons hi lo :
  lo <= hi -> descending hi lo = hi :: descending (hi - 1) lo.
Proof.
  intros. unfold descending.
  replace (hi - lo + 1) with ((hi - 1 - lo + 1) + 1) by lia.
  rewrite seqZ_app by lia. rewrite rev_app_distr.
  rewrite seqZ_cons, seqZ_nil by lia. simpl. f_equal. lia.
Qed.

Lemma elem_of_descending hi lo i : i ∈ descending hi lo <-> lo <= i <= hi.
Proof.
  unfold descending.
  rewrite list_elem_of_In, <- in_rev, <- list_elem_of_In, elem_of_seqZ. lia.
Qed.

Lemma for_down_descending {S : Type} (body : S -> Z -> S) m : forall fuel i st,
  (Z.to_nat (i - m + 1) <= fuel)%nat ->
  Model.for_down fuel i m body st = fold_left body (descending i m) st.
Proof.
  induction fuel as [|fuel IH]; intros i st Hfuel; simpl.
  - by rewrite descending_nil by lia.
  - destruct (i >=? m) eqn:Him.
    + rewrite descending_cons by lia. simpl. apply IH. lia.
    + by rewrite descending_nil by lia.
Qed.

Lemma length_boundaries s :
  Z.of_nat (length (boundaries s)) = codepoint_count s + 1.
Proof. unfold boundaries, codepoint_count. rewrite length_app. simpl. lia. Qed.

(** A training call that is neither refused nor undecodable runs the loop
    body over [n-2, ..., m]. *)
Lemma update_unfold model inflected lemma count :
  Model.is_trimmed model = false ->
  segmentable (marked inflected) = true -> segmentable (marked lemma) = true ->
  let n := Z.max (codepoint_count (marked inflected))
                 (codepoint_count (marked lemma)) + 1 in
  let m := Z.max (n - Model._max_suffix_size model - 1) 0 in
  Model.update model inflected lemma count =
  Ok (fold_left (training_step inflected lemma count)
                (descending (n - 2) m) model).
Proof.
  intros Ht Hi Hl n m. unfold Model.update. rewrite Ht.
  fold (marked inflected). fold (marked lemma).
  rewrite (store_codepoints_result _ Hi), (store_codepoints_result _ Hl).
  simpl negb. simpl orb. cbv iota.
  fold (boundaries (marked inflected)). fold (boundaries (marked lemma)).
  rewrite !length_boundaries.
  unfold Model.update_n, Model.update_m.
  replace (Z.max (codepoint_count (marked inflected) + 1)
                 (codepoint_count (marked lemma) + 1)) with n by lia.
  replace (Z.max (n - (Model._max_suffix_size model + 1)) 0) with m by lia.
  f_equal. apply for_down_descending. lia.
Qed.

(** ** Suffixes cut at codepoint boundaries *)

Lemma sdrop_sdrop n1 : forall n2 s, sdrop n2 (sdrop n1 s) = sdrop (n1 + n2) s.
Proof.
  induction n1 as [|n1 IH]; intros n2 [|a s]; simpl; auto.
  by destruct n2.
Qed.

Lemma sdrop_all n : forall s, (String.length s <= n)%nat -> sdrop n s = "".
Proof.
  induction n as [|n IH]; intros [|a s] Hn; simpl in *; auto with lia.
Qed.

Lemma suffix_at_spans s : forall rest x0 k,
  0 <= x0 -> StronglySorted Z.le (x0 :: rest) ->
  last (x0 :: rest) = Some (str_size s) ->
  Model.suffix_at s (x0 :: rest) (Z.of_nat k) = join (drop k (spans s x0 rest)).
Proof.
  unfold Model.suffix_at, Model.vec_at.
  induction rest as [|x1 rest IH]; intros x0 k Hx0 Hs Hlast.
  - simpl in *. injection Hlast as ->.
    replace (Z.to_nat (_ `min` Z.of_nat k)) with O by lia. simpl.
    unfold substr_from. rewrite sdrop_all by (unfold str_size; lia).
    by destruct k.
  - apply StronglySorted_inv in Hs as [Hs Hle].
    apply Forall_cons in Hle as [Hle _].
    destruct k as [|k].
    + replace (Z.to_nat (_ `min` Z.of_nat 0)) with O by lia.
      specialize (IH x1 O ltac:(lia) Hs Hlast).
      replace (Z.to_nat (_ `min` Z.of_nat 0)) with O in IH by lia.
      simpl in *. change (drop 0 (spans s x1 rest)) with (spans s x1 rest) in IH.
      rewrite <- IH. unfold substr_from, substr.
      rewrite <- (stake_sdrop (Z.to_nat (x1 - x0)) (sdrop (Z.to_nat x0) s)) at 1.
      rewrite sdrop_sdrop. do 2 f_equal. lia.
    + specialize (IH x1 k ltac:(lia) Hs Hlast). simpl drop. rewrite <- IH.
      simpl length.
      replace (Z.to_nat ((Z.of_nat (S (S (length rest))) - 1) `min` Z.of_nat (S k)))
        with (S (Z.to_nat ((Z.of_nat (S (length rest)) - 1) `min` Z.of_nat k)))
        by lia.
      done.
Qed.

Lemma StronglySorted_lt_le l : StronglySorted Z.lt l -> StronglySorted Z.le l.
Proof.
  induction 1 as [|x l _ IH Hx]; constructor; [done|].
  eapply Forall_impl; [exact Hx|]. intros; lia.
Qed.

Lemma suffix_at_boundaries s i :
  0 <= i -> Model.suffix_at s (boundaries s) i = suffix_from_codepoint s i.
Proof.
  intros Hi. unfold suffix_from_codepoint.
  pose proof (boundaries_sorted s 0) as Hs. rewrite Z.add_0_l in Hs.
  assert (Hlast : last (boundaries s) = Some (str_size s))
    by (unfold boundaries; apply last_snoc).
  assert (H0 : Forall (fun x => 0 <= x) (boundaries s)).
  { unfold boundaries. apply Forall_app. split.
    - apply Forall_forall. intros x Hx%starts_from_bounds. lia.
    - repeat constructor. apply str_size_nonneg. }
  fold (boundaries s) in Hs. destruct (boundaries s) as [|x0 rest]; [done|].
  apply Forall_cons in H0 as [H0 _].
  rewrite <- (Z2Nat.id i) at 1 by lia. rewrite suffix_at_spans; auto.
  by apply StronglySorted_lt_le.
Qed.

(** C5, as amended: a training call that goes through enumerates the
    suffix-start indices from [n-2] down to [m] inclusive, where [n] is
    the larger codepoint count of the two marked words plus one for the
    sentinel and [m = max(n - maxSuffixSize - 1, 0)]; at index [i] the two
    suffixes start at entry [min(size-1, i)] of the index lists ([size]
    counting the sentinel), that is, they are made of the codepoints of
    the marked word from the [i]-th on, and are empty from the sentinel
    on. *)
Theorem update_enumerates model inflected lemma count :
  Model.is_trimmed model = false ->
  segmentable (marked inflected) = true -> segmentable (marked lemma) = true ->
  let inf := marked inflected in
  let lem := marked lemma in
  let n := Z.max (codepoint_count inf) (codepoint_count lem) + 1 in
  let m := Z.max (n - Model._max_suffix_size model - 1) 0 in
  Model.update model inflected lemma count =
    Ok (fold_left (training_step inflected lemma count)
                  (descending (n - 2) m) model) /\
  (forall i, i ∈ descending (n - 2) m <-> m <= i <= n - 2) /\
  (forall st i, 0 <= i ->
     training_step inflected lemma count st i =
     Model.record_pair (suffix_from_codepoint inf i)
       (suffix_from_codepoint lem i)
       (i <=? common_prefix_size inf lem (boundaries inf) (boundaries lem) - 1)
       count st).
Proof.
  intros Ht Hi Hl inf lem n m. split; [|split].
  - by apply update_unfold.
  - intros i. apply elem_of_descending.
  - intros st i Hi0. unfold training_step, Model.update_at.
    fold inf lem. by rewrite !suffix_at_boundaries.
Qed.

Lemma update_enumerates_witness :
  Model.update (Model.mk ∅ ∅ ∅ 2 false) "cats" "cat" 5 =
  Ok (fold_left (training_step "cats" "cat" 5) [4; 3]
                (Model.mk ∅ ∅ ∅ 2 false)).
Proof.
  exact (proj1 (update_enumerates (Model.mk ∅ ∅ ∅ 2 false) "cats" "cat" 5
                  eq_refl eq_refl eq_refl)).
Defined.

(** C5 refuted as stated: with [maxSuffixSize = 1] and the pair
    ("abc", "abc"), [n = 5]; the trainer visits index 3 only and never
    records the suffix "bc", which the claimed bound
    [max(n - maxSuffixSize - 2, 0) = 2] would include. *)
Lemma update_not_claimed_range :
  let model := Model.mk ∅ ∅ ∅ 1 false in
  let n := Z.max (codepoint_count (marked "abc"))
                 (codepoint_count (marked "abc")) + 1 in
  n = 5 /\ descending (n - 2) (claimed_m n 1) = [3; 2] /\
  Model.update model "abc" "abc" 1 =
    Ok (fold_left (training_step "abc" "abc" 1) [3] model) /\
  Model._infcounts (fold_left (training_step "abc" "abc" 1) [3] model)
    !! "bc" = None /\
  Model._infcounts (fold_left (training_step "abc" "abc" 1) [3; 2] model)
    !! "bc" = Some (1, 1).
Proof. vm_compute. repeat split. Qed.

(** ** What a training call does to the store *)

Lemma update_cases model inflected lemma count :
  Model.update model inflected lemma count =
  if Model.is_trimmed model
  then Throw (runtime_error "Cannot update a trimmed model.")
  else if negb (segmentable (marked inflected))
          || negb (segmentable (marked lemma))
  then Throw (runtime_error "Utf-8 decode error.")
  else
    let n := Z.max (codepoint_count (marked inflected))
                   (codepoint_count (marked lemma)) + 1 in
    let m := Z.max (n - Model._max_suffix_size model - 1) 0 in
    Ok (fold_left (training_step inflected lemma count)
                  (descending (n - 2) m) model).
Proof.
  destruct (Model.is_trimmed model) eqn:Ht.
  { unfold Model.update. by rewrite Ht. }
  destruct (segmentable (marked inflected)) eqn:Hi,
           (segmentable (marked lemma)) eqn:Hl; simpl.
  - by apply update_unfold.
  - unfold Model.update. rewrite Ht. fold (marked inflected) (marked lemma).
    pose proof (store_codepoints_ok (marked lemma)) as H. rewrite Hl in H.
    destruct (store_codepoints (marked inflected)) as [b1 v1].
    destruct (store_codepoints (marked lemma)) as [b2 v2].
    simpl in H. subst b2. by rewrite orb_true_r.
  - unfold Model.update. rewrite Ht. fold (marked inflected) (marked lemma).
    pose proof (store_codepoints_ok (marked inflected)) as H. rewrite Hi in H.
    destruct (store_codepoints (marked inflected)) as [b1 v1].
    destruct (store_codepoints (marked lemma)) as [b2 v2].
    simpl in H. by subst b1.
  - unfold Model.update. rewrite Ht. fold (marked inflected) (marked lemma).
    pose proof (store_codepoints_ok (marked inflected)) as H. rewrite Hi in H.
    destruct (store_codepoints (marked inflected)) as [b1 v1].
    destruct (store_codepoints (marked lemma)) as [b2 v2].
    simpl in H. by subst b1.
Qed.

Lemma record_pair_tables infsuf lemsuf correct count st :
  Model.record_pair infsuf lemsuf correct count st =
  Model.mk
    (bump_replacement (Model._replacements st) infsuf lemsuf
       (if correct then count else 0) (if correct then 0 else count))
    (bump (bump (Model._lemcounts st) lemsuf count 0) infsuf 0 count)
    (bump (bump (Model._infcounts st) infsuf count 0) lemsuf 0 count)
    (Model._max_suffix_size st) (Model._is_trimmed st).
Proof. destruct st. by destruct correct. Qed.

Lemma fold_training_step_flags inflected lemma count l : forall st,
  let st' := fold_left (training_step inflected lemma count) l st in
  Model._max_suffix_size st' = Model._max_suffix_size st /\
  Model._is_trimmed st' = Model._is_trimmed st.
Proof.
  induction l as [|i l IH]; intros st; simpl; [done|].
  destruct (IH (training_step inflected lemma count st i)) as [-> ->].
  unfold training_step, Model.update_at. by rewrite record_pair_tables.
Qed.

(** On the marked words the trainer passes, the value of
    [common_prefix_size] is one more than the number of shared leading
    codepoints. *)
Lemma common_prefix_size_marked a b :
  common_prefix_size (marked a) (marked b)
    (boundaries (marked a)) (boundaries (marked b)) =
  1 + shared_codepoints (marked a) (marked b)
        (boundaries (marked a)) (boundaries (marked b)).
Proof.
  assert (Hb : forall w,
    boundaries (marked w) = 0 :: (starts_from w 1 ++ [str_size (marked w)]) /\
    StronglySorted Z.le (0 :: (starts_from w 1 ++ [str_size (marked w)])) /\
    Forall (fun x => x <= str_size (marked w))
           (starts_from w 1 ++ [str_size (marked w)])).
  { intros w. split; [done|]. split.
    - apply StronglySorted_lt_le.
      pose proof (boundaries_sorted (marked w) 0) as Hs.
      by rewrite Z.add_0_l in Hs.
    - apply Forall_app. split; [|by repeat constructor].
      apply Forall_forall. intros x Hx%starts_from_bounds.
      change (marked w) with (String "$"%char w). rewrite str_size_cons. lia. }
  destruct (Hb a) as (-> & Hsa & Hba), (Hb b) as (-> & Hsb & Hbb).
  unfold common_prefix_size, shared_codepoints. simpl.
  replace (same_bytes (marked a) (marked b) 0 0) with true by done. simpl.
  rewrite (common_prefix_loop_shared (marked a) (marked b) _ _ (0 + 1) 0);
    auto with lia.
Qed.

(** C2, as amended: a training call on a non-trimmed store with decodable
    words runs the loop body over the enumerated indices.  At index [i],
    with [infSuf] and [lemSuf] the suffixes of the marked words from
    codepoint [i] on and [prefixLen] the number of leading codepoints the
    marked words share, the body accumulates [(count, 0)] into
    [replacement[infSuf][lemSuf]] when [i <= prefixLen] and [(0, count)]
    otherwise; in either case it accumulates [(count, 0)] at [lemSuf] and
    [(0, count)] at [infSuf] of the lemma counts, and [(count, 0)] at
    [infSuf] and [(0, count)] at [lemSuf] of the inflected counts.
    Accumulating adds to the counts the entry held, or to zero counts when
    there was none, and leaves every other entry alone. *)
Theorem update_records model inflected lemma count :
  Model.is_trimmed model = false -> 0 < count ->
  segmentable (marked inflected) = true -> segmentable (marked lemma) = true ->
  let inf := marked inflected in
  let lem := marked lemma in
  let prefixLen := shared_codepoints inf lem (boundaries inf) (boundaries lem) in
  let n := Z.max (codepoint_count inf) (codepoint_count lem) + 1 in
  let m := Z.max (n - Model._max_suffix_size model - 1) 0 in
  Model.update model inflected lemma count =
    Ok (fold_left (training_step inflected lemma count)
                  (descending (n - 2) m) model) /\
  forall st i, i ∈ descending (n - 2) m ->
    let infSuf := suffix_from_codepoint inf i in
    let lemSuf := suffix_from_codepoint lem i in
    let st' := training_step inflected lemma count st i in
    (i <= prefixLen ->
       accumulated_replacement (Model._replacements st)
         (Model._replacements st') infSuf lemSuf count 0) /\
    (prefixLen < i ->
       accumulated_replacement (Model._replacements st)
         (Model._replacements st') infSuf lemSuf 0 count) /\
    (exists mid,
       accumulated (Model._lemcounts st) mid lemSuf count 0 /\
       accumulated mid (Model._lemcounts st') infSuf 0 count) /\
    (exists mid,
       accumulated (Model._infcounts st) mid infSuf count 0 /\
       accumulated mid (Model._infcounts st') lemSuf 0 count) /\
    Model._max_suffix_size st' = Model._max_suffix_size st /\
    Model._is_trimmed st' = Model._is_trimmed st.
Proof.
  intros Ht Hc Hi Hl inf lem prefixLen n m. split.
  - by apply update_unfold.
  - intros st i Hin infSuf lemSuf st'.
    apply elem_of_descending in Hin.
    assert (Hst : st' = Model.record_pair infSuf lemSuf (i <=? prefixLen) count st).
    { subst st' infSuf lemSuf prefixLen inf lem.
      unfold training_step, Model.update_at.
      rewrite !suffix_at_boundaries, common_prefix_size_marked by lia.
      do 2 f_equal. lia. }
    rewrite Hst, record_pair_tables. simpl.
    split; [|split; [|split; [|split]]].
    + intros Hle. apply Z.leb_le in Hle. rewrite Hle.
      apply bump_replacement_accumulated.
    + intros Hgt. apply Z.leb_gt in Hgt. rewrite Hgt.
      apply bump_replacement_accumulated.
    + eexists. split; apply bump_accumulated.
    + eexists. split; apply bump_accumulated.
    + done.
Qed.

Lemma update_records_witness :
  Model.update (Model.mk ∅ ∅ ∅ 4 false) "cats" "cat" 5 =
  Ok (fold_left (training_step "cats" "cat" 5) [4; 3; 2; 1]
        (Model.mk ∅ ∅ ∅ 4 false)).
Proof.
  exact (proj1 (update_records (Model.mk ∅ ∅ ∅ 4 false) "cats" "cat" 5
                  eq_refl eq_refl eq_refl eq_refl)).
Defined.

(** C2 refuted as stated: "$cats" and "$cat" share [prefixLen = 4] leading
    codepoints; index 4 is enumerated and is not [<= prefixLen - 1], so
    the pair of suffixes "s" and "" cut there would be recorded as a false
    positive, [(0, 5)].  The trainer records it as a true positive: the
    store has [(5, 0)] at [replacement["s"][""]]. *)
Lemma update_records_not_false_positive :
  let inf := marked "cats" in
  let lem := marked "cat" in
  let prefixLen := shared_codepoints inf lem (boundaries inf) (boundaries lem) in
  let st := Model.mk ∅ ∅ ∅ 8 false in
  let st' := training_step "cats" "cat" 5 st 4 in
  prefixLen = 4 /\ ~ 4 <= prefixLen - 1 /\
  Model.update st "cats" "cat" 5 =
    Ok (fold_left (training_step "cats" "cat" 5) [4; 3; 2; 1; 0] st) /\
  suffix_from_codepoint inf 4 = "s" /\ suffix_from_codepoint lem 4 = "" /\
  Model._replacements st' !! "s" = Some {[ "" := (5, 0) ]} /\
  ~ accumulated_replacement (Model._replacements st) (Model._replacements st')
      "s" "" 0 5 /\
  Model._replacements (fold_left (training_step "cats" "cat" 5) [4; 3; 2; 1; 0] st)
    !! "s" = Some {[ "" := (5, 0) ]}.
Proof.
  intros inf lem prefixLen st st'.
  assert (Hp : prefixLen = 4) by reflexivity.
  assert (Hs : Model._replacements st' !! "s" = Some {[ "" := (5, 0) ]})
    by reflexivity.
  split; [done|]. split; [rewrite Hp; lia|].
  split; [reflexivity|]. split; [reflexivity|]. split; [reflexivity|].
  split; [done|]. split; [|reflexivity].
  intros [(reps' & Hr & Hacc & _) _].
  rewrite Hs in Hr. injection Hr as <-.
  vm_compute in Hacc. discriminate.
Qed.

(** C7, as amended: each of the three update primitives accumulates
    [(tp, fp)] into its table entry: the entry holds what it held, or zero
    counts when it was absent, plus [(tp, fp)], and nothing else changes.
    They do so whatever [isTrimmed] is and leave the flag as it is ([load]
    replays a trimmed file through them); the refusal of a trimmed store
    is made by [Model::update], which throws before any table is
    touched. *)
Theorem update_primitives_spec model :
  (forall inf lem tp fp,
     let model' := Model.update_replacement model inf lem tp fp in
     accumulated_replacement (Model._replacements model)
       (Model._replacements model') inf lem tp fp /\
     Model._lemcounts model' = Model._lemcounts model /\
     Model._infcounts model' = Model._infcounts model /\
     Model._max_suffix_size model' = Model._max_suffix_size model /\
     Model.is_trimmed model' = Model.is_trimmed model) /\
  (forall inf tp fp,
     let model' := Model.update_inflected model inf tp fp in
     accumulated (Model._infcounts model) (Model._infcounts model') inf tp fp /\
     Model._replacements model' = Model._replacements model /\
     Model._lemcounts model' = Model._lemcounts model /\
     Model._max_suffix_size model' = Model._max_suffix_size model /\
     Model.is_trimmed model' = Model.is_trimmed model) /\
  (forall lem tp fp,
     let model' := Model.update_lemma model lem tp fp in
     accumulated (Model._lemcounts model) (Model._lemcounts model') lem tp fp /\
     Model._replacements model' = Model._replacements model /\
     Model._infcounts model' = Model._infcounts model /\
     Model._max_suffix_size model' = Model._max_suffix_size model /\
     Model.is_trimmed model' = Model.is_trimmed model) /\
  (Model.is_trimmed model = true ->
   forall inflected lemma count,
     Model.update model inflected lemma count =
     Throw (runtime_error "Cannot update a trimmed model.")).
Proof.
  split; [|split; [|split]].
  - intros inf lem tp fp model'. subst model'. simpl.
    split; [|done].
    fold (inner (Model._replacements model) inf).
    fold (bump (inner (Model._replacements model) inf) lem tp fp).
    fold (bump_replacement (Model._replacements model) inf lem tp fp).
    apply bump_replacement_accumulated.
  - intros inf tp fp model'. subst model'. simpl. split; [|done].
    fold (bump (Model._infcounts model) inf tp fp). apply bump_accumulated.
  - intros lem tp fp model'. subst model'. simpl. split; [|done].
    fold (bump (Model._lemcounts model) lem tp fp). apply bump_accumulated.
  - intros Ht inflected lemma count. by rewrite update_cases, Ht.
Qed.

Lemma update_primitives_spec_witness :
  Model.update (Model.mk ∅ ∅ ∅ 8 true) "cats" "cat" 5 =
  Throw (runtime_error "Cannot update a trimmed model.").
Proof.
  apply (proj2 (proj2 (proj2 (update_primitives_spec (Model.mk ∅ ∅ ∅ 8 true))))).
  reflexivity.
Defined.

(** C7 refuted as stated: on a trimmed store [update_lemma],
    [update_inflected] and [update_replacement] go through and change the
    tables; [load] depends on it, reading a file whose trimmed flag is 1. *)
Lemma update_primitives_on_trimmed :
  let model := Model.mk ∅ ∅ ∅ 8 true in
  Model.is_trimmed model = true /\
  Model._lemcounts (Model.update_lemma model "s" 5 0) !! "s" = Some (5, 0) /\
  Model._infcounts (Model.update_inflected model "s" 5 0) !! "s" = Some (5, 0) /\
  Model._replacements (Model.update_replacement model "s" "t" 5 0) !! "s" =
    Some {[ "t" := (5, 0) ]} /\
  Model.load ("8" +:+ TAB +:+ "1" +:+ NL +:+ "1" +:+ NL
              +:+ "s" +:+ TAB +:+ "5" +:+ TAB +:+ "0" +:+ NL
              +:+ "0" +:+ NL +:+ "0" +:+ NL) =
    Ok (Model.mk ∅ {[ "s" := (5, 0) ]} ∅ 8 true).
Proof. vm_compute. repeat split. Qed.

(** ** Additivity of training *)

Lemma training_step_twice inflected lemma c1 c2 st i :
  training_step inflected lemma c2 (training_step inflected lemma c1 st i) i =
  training_step inflected lemma (c1 + c2) st i.
Proof. unfold training_step, Model.update_at. apply record_pair_twice. Qed.

Lemma training_step_comm inflected lemma c1 c2 st i j :
  training_step inflected lemma c2 (training_step inflected lemma c1 st i) j =
  training_step inflected lemma c1 (training_step inflected lemma c2 st j) i.
Proof. unfold training_step, Model.update_at. apply record_pair_comm. Qed.

Lemma fold_training_step_comm inflected lemma c1 c2 l : forall st j,
  training_step inflected lemma c2
    (fold_left (training_step inflected lemma c1) l st) j =
  fold_left (training_step inflected lemma c1) l
    (training_step inflected lemma c2 st j).
Proof.
  induction l as [|i l IH]; intros st j; simpl; [done|].
  by rewrite IH, training_step_comm.
Qed.

Lemma fold_training_step_twice inflected lemma c1 c2 l : forall st,
  fold_left (training_step inflected lemma c2) l
    (fold_left (training_step inflected lemma c1) l st) =
  fold_left (training_step inflected lemma (c1 + c2)) l st.
Proof.
  induction l as [|i l IH]; intros st; simpl; [done|].
  by rewrite fold_training_step_comm, training_step_twice, IH.
Qed.

(** C8: on a non-trimmed store, training a pair with [c1] and then with
    [c2] gives the store that one call with [c1 + c2] gives (and the same
    failure when a word cannot be decoded); with decodable words the
    calls go through. *)
Theorem update_additive model inflected lemma c1 c2 :
  Model.is_trimmed model = false -> 0 < c1 -> 0 < c2 ->
  (Model.update model inflected lemma c1 ≫=
     fun model1 => Model.update model1 inflected lemma c2) =
  Model.update model inflected lemma (c1 + c2) /\
  (segmentable (marked inflected) = true ->
   segmentable (marked lemma) = true ->
   exists model1 model2,
     Model.update model inflected lemma c1 = Ok model1 /\
     Model.update model1 inflected lemma c2 = Ok model2 /\
     Model.update model inflected lemma (c1 + c2) = Ok model2).
Proof.
  intros Ht Hc1 Hc2.
  assert (Hboth : segmentable (marked inflected) = true ->
                  segmentable (marked lemma) = true ->
                  exists model1 model2,
                    Model.update model inflected lemma c1 = Ok model1 /\
                    Model.update model1 inflected lemma c2 = Ok model2 /\
                    Model.update model inflected lemma (c1 + c2) = Ok model2).
  { intros Hi Hl.
    pose proof (update_unfold model inflected lemma c1 Ht Hi Hl) as H1.
    pose proof (update_unfold model inflected lemma (c1 + c2) Ht Hi Hl) as H12.
    cbv zeta in H1, H12.
    set (l := descending _ _) in H1, H12.
    set (model1 := fold_left _ l model) in H1.
    pose proof (fold_training_step_flags inflected lemma c1 l model) as Hf.
    cbv zeta in Hf. fold model1 in Hf. destruct Hf as [Hmax Htr].
    pose proof (update_unfold model1 inflected lemma c2) as H2.
    cbv zeta in H2. rewrite Hmax in H2. fold l in H2.
    exists model1, (fold_left (training_step inflected lemma c2) l model1).
    split; [done|]. split.
    - apply H2; [|done..]. unfold Model.is_trimmed. by rewrite Htr.
    - rewrite H12. f_equal. symmetry. apply fold_training_step_twice. }
  split; [|exact Hboth].
  destruct (segmentable (marked inflected)) eqn:Hi,
           (segmentable (marked lemma)) eqn:Hl.
  - destruct (Hboth eq_refl eq_refl) as (m1 & m2 & -> & H2 & ->). exact H2.
  - rewrite !update_cases, Ht, Hi, Hl. reflexivity.
  - rewrite !update_cases, Ht, Hi, Hl. reflexivity.
  - rewrite !update_cases, Ht, Hi, Hl. reflexivity.
Qed.

Lemma update_additive_witness :
  (Model.update (Model.mk ∅ ∅ ∅ 4 false) "cats" "cat" 2 ≫=
     fun model1 => Model.update model1 "cats" "cat" 3) =
  Model.update (Model.mk ∅ ∅ ∅ 4 false) "cats" "cat" (2 + 3).
Proof.
  apply (update_additive (Model.mk ∅ ∅ ∅ 4 false) "cats" "cat" 2 3);
    [reflexivity | lia | lia].
Defined.

(** ** Trimming *)

Lemma lookup_trim_inner reps reps' l p :
  Model.trim_inner reps = Some reps' ->
  reps' !! l = Some p <-> reps !! l = Some p /\ p.1 <> 0.
Proof.
  unfold Model.trim_inner. case_decide; [done|]. intros [= <-].
  by rewrite map_lookup_filter_Some.
Qed.

Lemma trim_inner_None reps l p :
  Model.trim_inner reps = None -> reps !! l = Some p -> p.1 = 0.
Proof.
  unfold Model.trim_inner. case_decide as He; [|done]. intros _ Hl.
  apply map_size_empty_iff in He.
  destruct (decide (p.1 = 0)) as [|Hne]; [done|].
  assert (filter Model.keep reps !! l = Some p) as Hf
    by by apply map_lookup_filter_Some.
  rewrite He in Hf. by rewrite lookup_empty in Hf.
Qed.

Lemma trim_inner_nonempty reps reps' :
  Model.trim_inner reps = Some reps' -> reps' <> ∅.
Proof.
  unfold Model.trim_inner. case_decide as He; [done|]. intros [= <-].
  by rewrite <- map_size_empty_iff.
Qed.

Lemma trim_replacements model k l p :
  Model.is_trimmed model = false ->
  inner (Model._replacements (Model.trim model)) k !! l = Some p <->
  inner (Model._replacements model) k !! l = Some p /\ p.1 <> 0.
Proof.
  intros Ht. unfold Model.trim. rewrite Ht. simpl.
  unfold inner. rewrite lookup_omap.
  destruct (Model._replacements model !! k) as [reps|]; simpl.
  - destruct (Model.trim_inner reps) as [reps'|] eqn:Hr.
    + by apply lookup_trim_inner.
    + rewrite lookup_empty. split; [done|]. intros [Hl Hne].
      by apply (trim_inner_None _ _ _ Hr) in Hl.
  - rewrite lookup_empty. split; [done | by intros [? _]].
Qed.

Lemma trim_trimmed model :
  Model.is_trimmed model = true -> Model.trim model = model.
Proof. intros Ht. unfold Model.trim. by rewrite Ht. Qed.

(** ** Comparison of doubles *)

Lemma SFcompare_lt_le_trans x y z :
  SFcompare x y = Some Lt ->
  SFcompare y z = Some Lt \/ SFcompare y z = Some Eq ->
  SFcompare x z = Some Lt.
Proof.
  destruct x as [sx|sx| |sx mx ex], y as [sy|sy| |sy my ey],
    z as [sz|sz| |sz mz ez]; simpl;
    try destruct sx; try destruct sy; try destruct sz; simpl;
    try (intros ? [?|?]; congruence).
  all: rewrite ?Pos.compare_cont_spec; simpl.
  all: destruct (Z.compare_spec ex ey), (Z.compare_spec ey ez),
         (Z.compare_spec ex ez); subst; try lia; simpl;
       try (intros ? [?|?]; congruence).
  all: destruct (Pos.compare_spec mx my), (Pos.compare_spec my mz),
         (Pos.compare_spec mx mz); subst; try lia; simpl;
       try (intros ? [?|?]; congruence).
Qed.

Lemma SFcompare_irrefl x : SFcompare x x <> Some Lt.
Proof.
  destruct x as [sx|sx| |sx mx ex]; simpl; try destruct sx; try congruence.
  all: rewrite Z.compare_refl, Pos.compare_cont_spec, Pos.compare_refl;
    simpl; congruence.
Qed.

Lemma ltb_leb_trans (x y z : float) :
  (x <? y)%float = true -> (y <=? z)%float = true -> (x <? z)%float = true.
Proof.
  rewrite !FloatAxioms.ltb_spec, FloatAxioms.leb_spec. unfold SFltb, SFleb.
  intros H1 H2.
  rewrite (SFcompare_lt_le_trans (Prim2SF x) (Prim2SF y) (Prim2SF z)); [done| |].
  - destruct (SFcompare (Prim2SF x) (Prim2SF y)) as [[]|]; done.
  - destruct (SFcompare (Prim2SF y) (Prim2SF z)) as [[]|]; auto; done.
Qed.

Lemma ltb_leb (x y : float) : (x <? y)%float = true -> (x <=? y)%float = true.
Proof.
  rewrite FloatAxioms.ltb_spec, FloatAxioms.leb_spec. unfold SFltb, SFleb.
  destruct (SFcompare (Prim2SF x) (Prim2SF y)) as [[]|]; done.
Qed.

Lemma ltb_trans (x y z : float) :
  (x <? y)%float = true -> (y <? z)%float = true -> (x <? z)%float = true.
Proof. intros H1 H2%ltb_leb. by apply (ltb_leb_trans x y z). Qed.

Lemma ltb_irrefl (x : float) : (x <? x)%float = false.
Proof.
  rewrite FloatAxioms.ltb_spec. unfold SFltb.
  pose proof (SFcompare_irrefl (Prim2SF x)).
  destruct (SFcompare (Prim2SF x) (Prim2SF x)) as [[]|]; done.
Qed.

(** ** Trimming the marked word *)

Lemma trim_marked w : trim (marked w) = marked (rtrim w).
Proof.
  unfold trim. change (marked w) with (String "$"%char w).
  change (marked (rtrim w)) with (String "$"%char (rtrim w)).
  simpl. by destruct (rtrim w).
Qed.

Lemma all_chars_rtrim p s : all_chars p s = true -> all_chars p (rtrim s) = true.
Proof.
  induction s as [|a s IH]; simpl; [done|].
  intros [Ha Hs]%andb_true_iff. specialize (IH Hs).
  destruct (rtrim s) as [|b r].
  - destruct (isspace a); simpl; [done | by rewrite Ha].
  - simpl in *. by rewrite Ha, IH.
Qed.

Lemma valid_utf8_marked_segmentable w :
  valid_utf8 w = true -> segmentable (trim (marked w)) = true.
Proof.
  intros Hv. rewrite trim_marked.
  change (marked (rtrim w)) with (String "$"%char (rtrim w)).
  unfold segmentable. simpl.
  apply andb_true_iff. split; [|done].
  apply all_chars_rtrim.
  by destruct (valid_utf8_segmentable_aux _ w (le_n _) Hv).
Qed.

(** ** The choice among the candidates of one suffix *)

Lemma consider_eq model inf cp prB bl bp found k :
  Model.consider model inf cp prB (bl, bp, found) k =
  match candidate_score model prB k with
  | Some z =>
      if (bp <? z)%float then (substr inf 0 cp +:+ k.1, z, true)
      else (bl, bp, found)
  | None => (bl, bp, found)
  end.
Proof.
  unfold Model.consider, candidate_score.
  by destruct (Model._lemcounts model !! k.1).
Qed.

Lemma fold_consider model inf cp prB bl0 cands :
  let st := fold_left (Model.consider model inf cp prB) cands
                      (bl0, 0%float, false) in
  (st = (bl0, 0%float, false) /\
   forall k x, k ∈ cands -> candidate_score model prB k = Some x ->
               (0 <? x)%float = false) \/
  (exists l1 k l2 x,
     cands = l1 ++ k :: l2 /\ candidate_score model prB k = Some x /\
     st = (substr inf 0 cp +:+ k.1, x, true) /\ (0 <? x)%float = true /\
     (forall k' y, k' ∈ cands -> candidate_score model prB k' = Some y ->
                   (x <? y)%float = false) /\
     (forall k' y, k' ∈ l1 -> candidate_score model prB k' = Some y ->
                   (x <=? y)%float = false)).
Proof.
  induction cands as [|k cands IH] using rev_ind; simpl.
  { left. split; [done|]. intros k x Hk. by apply elem_of_nil in Hk. }
  rewrite fold_left_app. simpl.
  set (st := fold_left (Model.consider model inf cp prB) cands
               (bl0, 0%float, false)) in *.
  destruct IH as [[Hst Hnone]|(l1 & w & l2 & x & Hsplit & Hw & Hst & Hpos & Hmax & Hfirst)].
  - rewrite Hst, consider_eq.
    destruct (candidate_score model prB k) as [z|] eqn:Hk.
    + destruct (0 <? z)%float eqn:Hz.
      * right. exists cands, k, [], z.
        repeat split; auto.
        -- intros k' y [Hk'| ->%list_elem_of_singleton]%elem_of_app.
           ++ intros Hy. specialize (Hnone k' y Hk' Hy).
              destruct (z <? y)%float eqn:Hzy; [|done].
              by rewrite (ltb_trans _ _ _ Hz Hzy) in Hnone.
           ++ rewrite Hk. intros [= <-]. apply ltb_irrefl.
        -- intros k' y Hk' Hy. specialize (Hnone k' y Hk' Hy).
           destruct (z <=? y)%float eqn:Hzy; [|done].
           by rewrite (ltb_leb_trans _ _ _ Hz Hzy) in Hnone.
      * left. split; [done|].
        intros k' y [Hk'| ->%list_elem_of_singleton]%elem_of_app; [by eauto|].
        rewrite Hk. by intros [= <-].
    + left. split; [done|].
      intros k' y [Hk'| ->%list_elem_of_singleton]%elem_of_app; [by eauto|].
      by rewrite Hk.
  - rewrite Hst, consider_eq.
    destruct (candidate_score model prB k) as [z|] eqn:Hk.
    + destruct (x <? z)%float eqn:Hz.
      * right. exists cands, k, [], z.
        repeat split; auto.
        -- by apply (ltb_trans _ _ _ Hpos Hz).
        -- intros k' y [Hk'| ->%list_elem_of_singleton]%elem_of_app.
           ++ intros Hy. specialize (Hmax k' y Hk' Hy).
              destruct (z <? y)%float eqn:Hzy; [|done].
              by rewrite (ltb_trans _ _ _ Hz Hzy) in Hmax.
           ++ rewrite Hk. intros [= <-]. apply ltb_irrefl.
        -- intros k' y Hk' Hy. specialize (Hmax k' y Hk' Hy).
           destruct (z <=? y)%float eqn:Hzy; [|done].
           by rewrite (ltb_leb_trans _ _ _ Hz Hzy) in Hmax.
      * right. exists l1, w, (l2 ++ [k]), x. rewrite Hsplit.
        repeat split; auto.
        -- by rewrite <- app_assoc.
        -- intros k' y [Hk'| ->%list_elem_of_singleton]%elem_of_app.
           ++ rewrite <- Hsplit in Hk'. by apply Hmax.
           ++ rewrite Hk. by intros [= <-].
    + right. exists l1, w, (l2 ++ [k]), x. rewrite Hsplit.
      repeat split; auto.
      * by rewrite <- app_assoc.
      * intros k' y [Hk'| ->%list_elem_of_singleton]%elem_of_app.
        -- rewrite <- Hsplit in Hk'. by apply Hmax.
        -- by rewrite Hk.
Qed.

(** ** The inferencer *)

Section Lemmatize.
Context `{Traversal}.

Lemma elem_of_entries {V : Type} (m : gmap string V) k v :
  (k, v) ∈ entries m <-> m !! k = Some v.
Proof. rewrite entries_perm. apply elem_of_map_to_list. Qed.

Lemma NoDup_fst_entries {V : Type} (m : gmap string V) :
  NoDup (entries m).*1.
Proof. rewrite entries_perm. apply NoDup_fst_map_to_list. Qed.

Lemma split_unique {V : Type} (l1 : list (string * V)) :
  forall l l2 l1' l2' b vb vb',
  NoDup l.*1 -> l = l1 ++ (b, vb) :: l2 -> l = l1' ++ (b, vb') :: l2' ->
  l1 = l1'.
Proof.
  induction l1 as [|x l1 IH]; intros l l2 l1' l2' b vb vb' Hnd -> Heq.
  - destruct l1' as [|x' l1']; [done|]. simpl in Heq.
    injection Heq as <- ->. simpl in Hnd.
    apply NoDup_cons in Hnd as [Hnin _]. exfalso. apply Hnin.
    rewrite fmap_app. apply elem_of_app. right. simpl. apply list_elem_of_here.
  - destruct l1' as [|x' l1']; simpl in Heq.
    + injection Heq as -> <-. simpl in Hnd.
      apply NoDup_cons in Hnd as [Hnin _]. exfalso. apply Hnin.
      rewrite fmap_app. apply elem_of_app. right. simpl.
      apply list_elem_of_here.
    + injection Heq as <- Heq. f_equal.
      simpl in Hnd. apply NoDup_cons in Hnd as [_ Hnd].
      by apply (IH _ l2 l1' l2' b vb vb' Hnd eq_refl).
Qed.

Lemma score_inner model infsuf infdata reps :
  Model._infcounts model !! infsuf = Some infdata ->
  Model._replacements model !! infsuf = Some reps ->
  forall l, score model infsuf l =
    match reps !! l with
    | Some c => candidate_score model (compute_prob infdata) (l, c)
    | None => None
    end.
Proof.
  intros Hi Hr l. unfold score, inner, candidate_score. rewrite Hi, Hr. simpl.
  destruct (reps !! l); [|done].
  by destruct (Model._lemcounts model !! l).
Qed.

Lemma not_applicable_no_inf model infsuf :
  Model._infcounts model !! infsuf = None -> ~ applicable model infsuf.
Proof. intros Hi (l & x & Hs & _). unfold score in Hs. by rewrite Hi in Hs. Qed.

Lemma not_applicable_no_rep model infsuf :
  Model._replacements model !! infsuf = None -> ~ applicable model infsuf.
Proof.
  intros Hr (l & x & Hs & _). unfold score, inner in Hs.
  rewrite Hr, lookup_empty in Hs.
  by destruct (Model._infcounts model !! infsuf).
Qed.

(** The loop passes over an index without a positive candidate, and
    stops at the first index that has one, with the winner there. *)
Lemma lemmatize_loop_skip model inflected inf cp cps bl :
  ~ applicable model (substr_from inf cp) ->
  exists bl',
    Model.lemmatize_loop model inflected inf (cp :: cps) bl =
    Model.lemmatize_loop model inflected inf cps bl'.
Proof.
  intros Hna. simpl.
  destruct (Model._infcounts model !! substr_from inf cp) as [infdata|] eqn:Hi;
    [|by eexists].
  destruct (Model._replacements model !! substr_from inf cp) as [reps|] eqn:Hr;
    [|by eexists].
  destruct (fold_consider model inf cp (compute_prob infdata) bl (entries reps))
    as [[-> _]|(l1 & k & l2 & x & Hsplit & Hk & _ & Hpos & _)].
  - simpl. by eexists.
  - exfalso. apply Hna. exists k.1, x. split; [|done].
    rewrite (score_inner _ _ _ _ Hi Hr).
    assert (Hin : (k.1, k.2) ∈ entries reps).
    { rewrite Hsplit, <- surjective_pairing. apply elem_of_app. right.
      apply list_elem_of_here. }
    apply elem_of_entries in Hin. rewrite Hin.
    by rewrite <- surjective_pairing.
Qed.

Lemma lemmatize_loop_hit model inflected inf cp cps bl :
  applicable model (substr_from inf cp) ->
  exists lemsuf x,
    winner model (substr_from inf cp) lemsuf x /\
    Model.lemmatize_loop model inflected inf (cp :: cps) bl =
    substr_checked (substr inf 0 cp +:+ lemsuf) 1.
Proof.
  intros Ha. simpl.
  destruct (Model._infcounts model !! substr_from inf cp) as [infdata|] eqn:Hi;
    [|by apply not_applicable_no_inf in Ha].
  destruct (Model._replacements model !! substr_from inf cp) as [reps|] eqn:Hr;
    [|by apply not_applicable_no_rep in Ha].
  pose proof (score_inner _ _ _ _ Hi Hr) as Hscore.
  assert (Hcand : forall k, k ∈ entries reps ->
            score model (substr_from inf cp) k.1 =
            candidate_score model (compute_prob infdata) k).
  { intros [l c] Hk. rewrite Hscore. simpl.
    apply elem_of_entries in Hk. by rewrite Hk. }
  destruct (fold_consider model inf cp (compute_prob infdata) bl (entries reps))
    as [[_ Hnone]|(l1 & k & l2 & x & Hsplit & Hk & -> & Hpos & Hmax & Hfirst)].
  - exfalso. destruct Ha as (l & x & Hs & Hpos).
    rewrite Hscore in Hs. destruct (reps !! l) as [c|] eqn:Hl; [|done].
    apply elem_of_entries in Hl.
    by rewrite (Hnone _ _ Hl Hs) in Hpos.
  - assert (Hin : k ∈ entries reps).
    { rewrite Hsplit. apply elem_of_app. right. apply list_elem_of_here. }
    exists k.1, x. simpl. split; [|done].
    split; [by rewrite Hcand|]. split; [done|]. split.
    + intros l y Hs. rewrite Hscore in Hs.
      destruct (reps !! l) as [c|] eqn:Hl; [|done].
      apply elem_of_entries in Hl. by apply (Hmax _ _ Hl).
    + intros l y (l1' & l2' & va & vb & Hsplit' & Hl1) Hs.
      unfold inner in Hsplit'. rewrite Hr in Hsplit'.
      assert (l1' = l1) as ->.
      { destruct k as [kl kc]. simpl in *.
        eapply split_unique; [apply (NoDup_fst_entries reps)|exact Hsplit'
                              |exact Hsplit]. }
      assert (Hin' : (l, va) ∈ entries reps).
      { rewrite Hsplit. apply elem_of_app. by left. }
      apply (Hfirst _ _ Hl1). by rewrite <- (Hcand _ Hin').
Qed.

Lemma lemmatize_loop_none model inflected inf cps : forall bl,
  (forall cp, cp ∈ cps -> ~ applicable model (substr_from inf cp)) ->
  Model.lemmatize_loop model inflected inf cps bl = Ok inflected.
Proof.
  induction cps as [|cp cps IH]; intros bl Hna; [done|].
  destruct (lemmatize_loop_skip model inflected inf cp cps bl) as [bl' ->].
  { apply Hna, list_elem_of_here. }
  apply IH. intros cp' Hcp'. apply Hna. by apply list_elem_of_further.
Qed.

Lemma lemmatize_loop_first model inflected inf c1 cp c2 : forall bl,
  (forall cp', cp' ∈ c1 -> ~ applicable model (substr_from inf cp')) ->
  applicable model (substr_from inf cp) ->
  exists lemsuf x,
    winner model (substr_from inf cp) lemsuf x /\
    Model.lemmatize_loop model inflected inf (c1 ++ cp :: c2) bl =
    substr_checked (substr inf 0 cp +:+ lemsuf) 1.
Proof.
  induction c1 as [|cp' c1 IH]; intros bl Hna Ha.
  - by apply lemmatize_loop_hit.
  - simpl app.
    destruct (lemmatize_loop_skip model inflected inf cp' (c1 ++ cp :: c2) bl)
      as [bl' ->].
    { apply Hna, list_elem_of_here. }
    apply IH; [|done]. intros cp'' Hcp''. apply Hna.
    by apply list_elem_of_further.
Qed.

(** Whatever the store holds, the loop returns the input or strips the
    first byte of a prefix followed by a candidate of that index. *)
Lemma lemmatize_loop_result model inflected inf cps : forall bl,
  Model.lemmatize_loop model inflected inf cps bl = Ok inflected \/
  exists cp lemsuf c,
    cp ∈ cps /\
    inner (Model._replacements model) (substr_from inf cp) !! lemsuf = Some c /\
    Model.lemmatize_loop model inflected inf cps bl =
    substr_checked (substr inf 0 cp +:+ lemsuf) 1.
Proof.
  induction cps as [|cp cps IH]; intros bl; [by left|]. simpl.
  assert (Hrec : forall bl',
    Model.lemmatize_loop model inflected inf cps bl' = Ok inflected \/
    exists cp0 lemsuf c,
      cp0 ∈ cp :: cps /\
      inner (Model._replacements model) (substr_from inf cp0) !! lemsuf = Some c /\
      Model.lemmatize_loop model inflected inf cps bl' =
      substr_checked (substr inf 0 cp0 +:+ lemsuf) 1).
  { intros bl'. destruct (IH bl') as [?|(cp0 & l & c & ? & ? & ?)]; [by left|].
    right. exists cp0, l, c. split; [by apply list_elem_of_further|done]. }
  destruct (Model._infcounts model !! substr_from inf cp) as [infdata|] eqn:Hi;
    [|apply Hrec].
  destruct (Model._replacements model !! substr_from inf cp) as [reps|] eqn:Hr;
    [|apply Hrec].
  destruct (fold_consider model inf cp (compute_prob infdata) bl (entries reps))
    as [[-> _]|(l1 & k & l2 & x & Hsplit & Hk & -> & _)].
  - simpl. apply Hrec.
  - simpl. right. exists cp, k.1, k.2. split; [apply list_elem_of_here|].
    split; [|done]. unfold inner. rewrite Hr. apply elem_of_entries.
    rewrite Hsplit, <- surjective_pairing. apply elem_of_app. right.
    apply list_elem_of_here.
Qed.

Lemma lemmatize_unfold model inflected :
  segmentable (trim (marked inflected)) = true ->
  Model.lemmatize model inflected =
  Model.lemmatize_loop model inflected (trim (marked inflected))
    (boundaries (trim (marked inflected))) "".
Proof.
  intros Hs. unfold Model.lemmatize. fold (marked inflected).
  by rewrite (store_codepoints_result _ Hs).
Qed.

Lemma boundaries_marked w :
  exists rest, boundaries (marked w) = 0 :: rest /\ Forall (fun x => 1 <= x) rest.
Proof.
  exists (starts_from w 1 ++ [str_size (marked w)]). split; [done|].
  apply Forall_app. split.
  - apply Forall_forall. intros x Hx%starts_from_bounds. lia.
  - repeat constructor. change (marked w) with (String "$"%char w).
    rewrite str_size_cons. pose proof (str_size_nonneg w). lia.
Qed.

Lemma strip_marker_prefix w cp lemsuf :
  1 <= cp ->
  exists stem, substr (marked w) 0 cp = "$" +:+ stem /\
    substr_checked (substr (marked w) 0 cp +:+ lemsuf) 1 = Ok (stem +:+ lemsuf).
Proof.
  intros Hcp. unfold substr. change (marked w) with (String "$"%char w).
  destruct (Z.to_nat cp) as [|n] eqn:Hn; [lia|].
  exists (stake n w). simpl. split; [done|].
  unfold substr_checked.
  change (String "$" (stake n w) +:+ lemsuf)
    with (String "$"%char (stake n w +:+ lemsuf)).
  rewrite str_size_cons.
  pose proof (str_size_nonneg (stake n w +:+ lemsuf)).
  by replace (1 + str_size (stake n w +:+ lemsuf) <? 1) with false
    by (symmetry; apply Z.ltb_ge; lia).
Qed.

Lemma strip_first_byte lemsuf :
  lemsuf <> "" -> substr_checked lemsuf 1 = Ok (substr_from lemsuf 1).
Proof.
  intros Hne. unfold substr_checked. destruct lemsuf as [|a r]; [done|].
  rewrite str_size_cons. pose proof (str_size_nonneg r).
  by replace (1 + str_size r <? 1) with false
    by (symmetry; apply Z.ltb_ge; lia).
Qed.

(** With no replacement from the whole marked word to the empty lemma
    suffix, stripping the first byte cannot fail. *)
Lemma lemmatize_succeeds model inflected :
  valid_utf8 inflected = true ->
  inner (Model._replacements model) (trim (marked inflected)) !! "" = None ->
  exists lemma, Model.lemmatize model inflected = Ok lemma.
Proof.
  intros Hv Hsafe.
  pose proof (valid_utf8_marked_segmentable _ Hv) as Hseg.
  rewrite (lemmatize_unfold model inflected Hseg).
  assert (Hinf : trim (marked inflected) = marked (rtrim inflected))
    by apply trim_marked.
  destruct (boundaries_marked (rtrim inflected)) as (rest & Hcps & Hrest).
  rewrite <- Hinf in Hcps.
  destruct (lemmatize_loop_result model inflected (trim (marked inflected))
              (boundaries (trim (marked inflected))) "")
    as [Hr|(cp & lemsuf & c & Hcp & Hc & Hr)].
  { by eexists. }
  rewrite Hr. rewrite Hcps in Hcp.
  apply elem_of_cons in Hcp as [->|Hcp].
  - assert (lemsuf <> "") as Hne.
    { intros ->. unfold substr_from in Hc. simpl in Hc.
      by rewrite Hsafe in Hc. }
    unfold substr. simpl stake.
    change ("" +:+ lemsuf) with lemsuf.
    rewrite strip_first_byte by done. by eexists.
  - assert (1 <= cp) as Hcp1 by by eapply (proj1 (Forall_forall _ _) Hrest).
    rewrite Hinf.
    destruct (strip_marker_prefix (rtrim inflected) cp lemsuf Hcp1)
      as (stem & _ & ->).
    by eexists.
Qed.

(** The run of [lemmatize] on a well-formed input, for any store.  The
    suffix-start indices of the marker-prefixed, right-trimmed word are
    tried upward from 0.  If none has a candidate of strictly positive
    score, the input is returned unchanged.  Otherwise, at the first index
    [i] that has one, the winner is the candidate of highest score, the
    first visited among equals; for [i > 0] the result is the prefix up to
    codepoint [i] without its marker, followed by the winner; for [i = 0]
    the prefix is empty and the result is the winner without its first
    byte. *)
Lemma lemmatize_steps model inflected :
  valid_utf8 inflected = true ->
  let inf := trim (marked inflected) in
  let cps := boundaries inf in
  inf = marked (rtrim inflected) /\
  ((forall cp, cp ∈ cps -> ~ applicable model (substr_from inf cp)) ->
   Model.lemmatize model inflected = Ok inflected) /\
  (forall (i : nat) cp,
     cps !! i = Some cp ->
     applicable model (substr_from inf cp) ->
     (forall (j : nat) cp', (j < i)%nat -> cps !! j = Some cp' ->
        ~ applicable model (substr_from inf cp')) ->
     exists lemsuf x,
       winner model (substr_from inf cp) lemsuf x /\
       Model.lemmatize model inflected =
         substr_checked (substr inf 0 cp +:+ lemsuf) 1 /\
       ((0 < i)%nat ->
          exists stem, substr inf 0 cp = "$" +:+ stem /\
            Model.lemmatize model inflected = Ok (stem +:+ lemsuf)) /\
       (i = 0%nat ->
          substr_from inf cp = inf /\
          Model.lemmatize model inflected = substr_checked lemsuf 1 /\
          (lemsuf <> "" ->
           Model.lemmatize model inflected = Ok (substr_from lemsuf 1)))) /\
  (inner (Model._replacements model) inf !! "" = None ->
   exists lemma, Model.lemmatize model inflected = Ok lemma).
Proof.
  intros Hv inf cps.
  pose proof (valid_utf8_marked_segmentable _ Hv) as Hseg.
  pose proof (lemmatize_unfold model inflected Hseg) as Hun.
  fold inf in Hun. fold cps in Hun.
  assert (Hinf : inf = marked (rtrim inflected)) by apply trim_marked.
  destruct (boundaries_marked (rtrim inflected)) as (rest & Hcps & Hrest).
  rewrite <- Hinf in Hcps. fold cps in Hcps.
  split; [done|]. split; [|split].
  - intros Hna. rewrite Hun. by apply lemmatize_loop_none.
  - intros i cp Hi Ha Hfirst.
    rewrite <- (take_drop_middle cps i cp Hi) in Hun.
    destruct (lemmatize_loop_first model inflected inf (take i cps) cp
                (drop (S i) cps) "") as (lemsuf & x & Hw & Hloop); [|done|].
    { intros cp' [j Hj]%list_elem_of_lookup.
      apply lookup_take_Some in Hj as [Hj Hlt]. by apply (Hfirst j). }
    rewrite <- Hun in Hloop.
    exists lemsuf, x. split; [done|]. split; [done|]. split.
    + intros Hpos. rewrite Hcps in Hi.
      destruct i as [|i]; [lia|]. simpl in Hi.
      assert (1 <= cp) as Hcp.
      { eapply (proj1 (Forall_forall _ _) Hrest).
        by eapply list_elem_of_lookup_2. }
      rewrite Hloop, Hinf.
      destruct (strip_marker_prefix (rtrim inflected) cp lemsuf Hcp)
        as (stem & Hstem & Hstrip).
      by exists stem.
    + intros ->. rewrite Hcps in Hi. injection Hi as <-.
      split; [done|].
      assert (Hl : Model.lemmatize model inflected = substr_checked lemsuf 1).
      { rewrite Hloop. unfold substr. simpl stake. done. }
      split; [done|]. intros Hne. rewrite Hl. by apply strip_first_byte.
  - intros Hsafe. by apply lemmatize_succeeds.
Qed.

End Lemmatize.

(** The scenario of the specification: the rule "s" -> "" learnt from
    three nouns is applied to an unseen one, before and after trimming. *)
Example lemmatize_rats :
  exists model,
    trained_on 4 [("cats", "cat", 5); ("dogs", "dog", 5); ("cars", "car", 3)]
      = Ok model /\
    Model.lemmatize model "rats" = Ok "rat" /\
    Model.lemmatize (Model.trim model) "rats" = Ok "rat" /\
    Model.lemmatize model "xyz" = Ok "xyz".
Proof. eexists. split; [vm_compute; reflexivity|]. vm_compute. repeat split. Qed.

(** The README warns that strings containing '$' may make the program
    crash.  A store trained on an inflected form that contains the marker
    maps the whole marked word "$a" to the empty lemma suffix; on the
    input "a" the winner at index 0 is then the empty string and
    [best_lemma.substr(1)] throws. *)
Example lemmatize_marker_in_corpus :
  exists model,
    Model.update (Model.mk ∅ ∅ ∅ 8 false) "x$a" "x" 1 = Ok model /\
    valid_utf8 "a" = true /\
    inner (Model._replacements model) (trim (marked "a")) !! "" = Some (1, 0) /\
    Model.lemmatize model "a" = Throw out_of_range.
Proof. eexists. split; [vm_compute; reflexivity|]. vm_compute. repeat split. Qed.

(** ** The empty suffix *)

Lemma length_spans s : forall cps from, length (spans s from cps) = length cps.
Proof. induction cps as [|x cps IH]; intros from; simpl; auto. Qed.

Lemma length_codepoints_of s :
  Z.of_nat (length (codepoints_of s (boundaries s))) = codepoint_count s.
Proof.
  unfold codepoint_count, boundaries.
  destruct (starts_from s 0) as [|x l]; simpl; [done|].
  rewrite length_spans, length_app. simpl. lia.
Qed.

(** C10: when the marked lemma has fewer codepoints than the marked
    inflected form (or the other way round), the first index the trainer
    visits, [n - 2], is clamped to the sentinel of the shorter word, whose
    suffix there is the empty string.  Training ("ab", "a") records the
    empty string in both flat tables, with [tp > 0] in the lemma counts,
    and that entry survives [trim]; training ("a", "ab") does the same in
    the inflected counts. *)
Theorem update_records_empty_suffix :
  (forall longer shorter,
     codepoint_count (marked shorter) < codepoint_count (marked longer) ->
     let n := Z.max (codepoint_count (marked longer))
                    (codepoint_count (marked shorter)) + 1 in
     Model.suffix_at (marked shorter) (boundaries (marked shorter)) (n - 2) = "") /\
  (exists model,
     Model.update (Model.mk ∅ ∅ ∅ 8 false) "ab" "a" 1 = Ok model /\
     Model._lemcounts model !! "" = Some (1, 0) /\
     Model._infcounts model !! "" = Some (0, 1) /\
     Model._replacements model !! "b" = Some {[ "" := (1, 0) ]} /\
     Model._lemcounts (Model.trim model) !! "" = Some (1, 0) /\
     Model._replacements (Model.trim model) !! "b" = Some {[ "" := (1, 0) ]}) /\
  (exists model,
     Model.update (Model.mk ∅ ∅ ∅ 8 false) "a" "ab" 1 = Ok model /\
     Model._infcounts model !! "" = Some (1, 0) /\
     Model._lemcounts model !! "" = Some (0, 1) /\
     Model._infcounts (Model.trim model) !! "" = Some (1, 0)).
Proof.
  split; [|split].
  - intros longer shorter Hlt n.
    pose proof (length_codepoints_of (marked shorter)) as Hlen.
    assert (0 <= codepoint_count (marked shorter))
      by (unfold codepoint_count; lia).
    rewrite suffix_at_boundaries by lia.
    unfold suffix_from_codepoint. by rewrite drop_ge by lia.
  - eexists. split; [vm_compute; reflexivity|]. vm_compute. repeat split.
  - eexists. split; [vm_compute; reflexivity|]. vm_compute. repeat split.
Qed.

Lemma update_records_empty_suffix_witness :
  Model.suffix_at (marked "a") (boundaries (marked "a"))
    (Z.max (codepoint_count (marked "ab")) (codepoint_count (marked "a")) + 1 - 2)
  = "".
Proof.
  apply (proj1 update_records_empty_suffix "ab" "a"). vm_compute. reflexivity.
Defined.

(** ** Persistence *)

(** C3 fails on the code.  Training ("x b", "xyc") records the suffix
    " b"; [save] writes it as it is, and [load], which trims every key it
    reads to drop the newline left by the previous line, merges it into
    "b".  The loaded store lemmatizes "a b" differently and is saved with
    one line less in each flat table.  (Tables are traversed in key order
    here; no key of this store is empty.) *)
Theorem load_save_mangles_keys :
  exists model loaded,
    Model.update (Model.mk ∅ ∅ ∅ 8 false) "x b" "xyc" 1 = Ok model /\
    Model.load (Model.save model) = Ok loaded /\
    Model._infcounts model !! " b" = Some (1, 0) /\
    Model._infcounts loaded !! " b" = None /\
    Model._infcounts loaded !! "b" = Some (2, 0) /\
    Model.lemmatize model "a b" = Ok "ayc" /\
    Model.lemmatize loaded "a b" = Ok "a yc" /\
    size (Model._lemcounts model) = 8%nat /\
    size (Model._lemcounts loaded) = 7%nat /\
    Model.save loaded <> Model.save model.
Proof.
  do 2 eexists. split; [vm_compute; reflexivity|].
  split; [vm_compute; reflexivity|].
  vm_compute. repeat split. discriminate.
Qed.

(** With the tables traversed in key order, a store that holds the empty
    suffix, as every store trained on a pair of different lengths does,
    is saved with that key first, and [load] cannot read a line that
    starts with the tab. *)
Example load_save_empty_key :
  exists model,
    Model.update (Model.mk ∅ ∅ ∅ 8 false) "cats" "cat" 1 = Ok model /\
    Model._lemcounts model !! "" = Some (1, 0) /\
    Model.load (Model.save model) =
      Throw (runtime_error "Could not read model data.").
Proof. eexists. split; [vm_compute; reflexivity|]. vm_compute. repeat split. Qed.

(** On a store whose keys have no surrounding space, [load] undoes
    [save]. *)
Example load_save_plain :
  exists model,
    trained_on 8 [("bb", "bc", 2); ("dd", "bd", 3)] = Ok model /\
    Model.load (Model.save model) = Ok model /\
    Model.load (Model.save (Model.trim model)) = Ok (Model.trim model).
Proof. eexists. split; [vm_compute; reflexivity|]. vm_compute. repeat split. Qed.

(** ** Stores trained on words without the marker *)

Lemma starts_with_sdrop_marker_free w : forall n,
  marker_free w = true -> starts_with is_marker (sdrop n w) = false.
Proof.
  unfold marker_free.
  induction w as [|a w IH]; intros n Hw; [by destruct n|].
  simpl in Hw. apply andb_true_iff in Hw as [Ha Hw].
  destruct n as [|n]; simpl; [by apply negb_true_iff | by apply IH].
Qed.

Lemma suffix_at_marked_later w i :
  marker_free w = true -> 1 <= i ->
  starts_with is_marker (Model.suffix_at (marked w) (boundaries (marked w)) i)
  = false.
Proof.
  intros Hw Hi.
  destruct (boundaries_marked w) as (rest & Hcps & Hrest).
  assert (Hlen : (1 <= length rest)%nat).
  { pose proof (length_boundaries (marked w)) as Hl. rewrite Hcps in Hl.
    simpl length in Hl. unfold codepoint_count in Hl.
    change (marked w) with (String "$"%char w) in Hl. simpl in Hl. lia. }
  unfold Model.suffix_at, Model.vec_at. rewrite Hcps. simpl length.
  destruct (Z.to_nat ((Z.of_nat (S (length rest)) - 1) `min` i)) as [|k] eqn:Hk;
    [lia|].
  destruct (lookup_lt_is_Some_2 rest k ltac:(lia)) as [pos Hpos].
  rewrite (list_lookup_total_correct (0 :: rest) (S k) pos) by done.
  assert (1 <= pos) as Hp.
  { eapply (proj1 (Forall_forall _ _) Hrest). by eapply list_elem_of_lookup_2. }
  unfold substr_from. change (marked w) with (String "$"%char w).
  destruct (Z.to_nat pos) as [|n] eqn:Hn; [lia|]. simpl.
  by apply starts_with_sdrop_marker_free.
Qed.

Lemma suffix_at_marked_0 w :
  Model.suffix_at (marked w) (boundaries (marked w)) 0 = marked w.
Proof.
  destruct (boundaries_marked w) as (rest & Hcps & _).
  unfold Model.suffix_at, Model.vec_at. rewrite Hcps.
  by replace (Z.to_nat (_ `min` 0)) with O by (simpl length; lia).
Qed.

Lemma record_pair_marker_safe infsuf lemsuf correct count st :
  (starts_with is_marker infsuf = true -> lemsuf <> "") ->
  marker_safe st -> marker_safe (Model.record_pair infsuf lemsuf correct count st).
Proof.
  intros Hpair Hsafe k Hk. rewrite record_pair_tables. simpl.
  rewrite inner_bump_replacement. case_decide as Heq; [|by apply Hsafe].
  subst k. rewrite lookup_bump, decide_False; [by apply Hsafe|].
  by apply Hpair.
Qed.

Lemma training_step_marker_safe inflected lemma count st i :
  marker_free inflected = true -> 0 <= i ->
  marker_safe st -> marker_safe (training_step inflected lemma count st i).
Proof.
  intros Hw Hi Hsafe. unfold training_step, Model.update_at.
  apply record_pair_marker_safe; [|done]. intros Hm.
  destruct (decide (i = 0)) as [->|Hne].
  - by rewrite suffix_at_marked_0.
  - by rewrite suffix_at_marked_later in Hm by (done || lia).
Qed.

Lemma update_marker_safe model inflected lemma count model' :
  marker_free inflected = true -> marker_safe model ->
  Model.update model inflected lemma count = Ok model' -> marker_safe model'.
Proof.
  intros Hw Hsafe. rewrite update_cases.
  destruct (Model.is_trimmed model); [done|].
  destruct (_ || _); [done|]. cbv zeta. intros [= <-].
  set (m := Z.max _ 0). assert (0 <= m) as Hm by lia. clearbody m.
  generalize (Z.max (codepoint_count (marked inflected))
                    (codepoint_count (marked lemma)) + 1 - 2).
  intros hi.
  assert (Hall : Forall (fun i => 0 <= i) (descending hi m)).
  { apply Forall_forall. intros i Hi%elem_of_descending. lia. }
  revert model Hsafe. induction Hall as [|i l Hi _ IH]; intros model Hsafe.
  - done.
  - simpl. apply IH. by apply training_step_marker_safe.
Qed.

Lemma trim_marker_safe model : marker_safe model -> marker_safe (Model.trim model).
Proof.
  intros Hsafe. destruct (Model.is_trimmed model) eqn:Ht.
  - by rewrite (trim_trimmed model Ht).
  - intros k Hk.
    destruct (inner (Model._replacements (Model.trim model)) k !! "")
      as [p|] eqn:Hp; [|done].
    apply (trim_replacements model k "" p Ht) in Hp as [Hp _].
    by rewrite (Hsafe k Hk) in Hp.
Qed.

Lemma trained_on_marker_safe max_suffix_size corpus model :
  Forall (fun line : string * string * Z => marker_free line.1.1 = true) corpus ->
  trained_on max_suffix_size corpus = Ok model -> marker_safe model.
Proof.
  unfold trained_on. intros Hfree.
  assert (Hinit : forall m, Model.new max_suffix_size = Ok m -> marker_safe m).
  { unfold Model.new. intros m. destruct (_ || _); [done|]. intros [= <-] k _.
    done. }
  revert model Hinit. generalize (Model.new max_suffix_size).
  induction Hfree as [|line corpus Hline _ IH]; intros r model Hinit; simpl.
  - apply Hinit.
  - apply IH. intros m. destruct r as [m0|e]; simpl; [|done].
    apply update_marker_safe; auto.
Qed.

Lemma starts_with_marker s :
  starts_with is_marker s = true -> exists rest, s = marked rest.
Proof.
  destruct s as [|a rest]; [done|]. simpl. intros Ha. exists rest.
  assert (a = "$"%char) as ->; [|done].
  destruct a as [[] [] [] [] [] [] [] []]; vm_compute in Ha; congruence.
Qed.

Lemma record_pair_marker_kept infsuf lemsuf correct count st :
  (starts_with is_marker infsuf = true -> starts_with is_marker lemsuf = true) ->
  marker_kept st -> marker_kept (Model.record_pair infsuf lemsuf correct count st).
Proof.
  intros Hpair Hkept k l Hk. rewrite record_pair_tables. simpl.
  rewrite inner_bump_replacement. case_decide as Heq; [|by apply Hkept].
  subst k. rewrite lookup_bump. case_decide as Hl; [|by apply Hkept].
  subst l. intros _. by apply Hpair.
Qed.

Lemma training_step_marker_kept inflected lemma count st i :
  marker_free inflected = true -> 0 <= i ->
  marker_kept st -> marker_kept (training_step inflected lemma count st i).
Proof.
  intros Hw Hi Hkept. unfold training_step, Model.update_at.
  apply record_pair_marker_kept; [|done]. intros Hm.
  destruct (decide (i = 0)) as [->|Hne].
  - by rewrite suffix_at_marked_0.
  - by rewrite suffix_at_marked_later in Hm by (done || lia).
Qed.

Lemma update_marker_kept model inflected lemma count model' :
  marker_free inflected = true -> marker_kept model ->
  Model.update model inflected lemma count = Ok model' -> marker_kept model'.
Proof.
  intros Hw Hkept. rewrite update_cases.
  destruct (Model.is_trimmed model); [done|].
  destruct (_ || _); [done|]. cbv zeta. intros [= <-].
  set (m := Z.max _ 0). assert (0 <= m) as Hm by lia. clearbody m.
  generalize (Z.max (codepoint_count (marked inflected))
                    (codepoint_count (marked lemma)) + 1 - 2).
  intros hi.
  assert (Hall : Forall (fun i => 0 <= i) (descending hi m)).
  { apply Forall_forall. intros i Hi%elem_of_descending. lia. }
  revert model Hkept. induction Hall as [|i l Hi _ IH]; intros model Hkept.
  - done.
  - simpl. apply IH. by apply training_step_marker_kept.
Qed.

Lemma trim_marker_kept model : marker_kept model -> marker_kept (Model.trim model).
Proof.
  intros Hkept. destruct (Model.is_trimmed model) eqn:Ht.
  - by rewrite (trim_trimmed model Ht).
  - intros k l Hk [p Hp].
    apply (trim_replacements model k l p Ht) in Hp as [Hp _].
    apply (Hkept k l Hk). by exists p.
Qed.

Lemma trained_on_marker_kept max_suffix_size corpus model :
  Forall (fun line : string * string * Z => marker_free line.1.1 = true) corpus ->
  trained_on max_suffix_size corpus = Ok model -> marker_kept model.
Proof.
  unfold trained_on. intros Hfree.
  assert (Hinit : forall m, Model.new max_suffix_size = Ok m -> marker_kept m).
  { unfold Model.new. intros m. destruct (_ || _); [done|].
    intros [= <-] k l _ [p Hp]. done. }
  revert model Hinit. generalize (Model.new max_suffix_size).
  induction Hfree as [|line corpus Hline _ IH]; intros r model Hinit; simpl.
  - apply Hinit.
  - apply IH. intros m. destruct r as [m0|e]; simpl; [|done].
    apply update_marker_kept; auto.
Qed.

Section Trained.
Context `{Traversal}.

(** C1: on a store built by training on inflected forms that do not
    contain the start marker, trimmed or not, [lemmatize] returns a result
    for every well-formed UTF-8 input.  The suffix-start indices of the
    marker-prefixed, white-space-trimmed word are tried upward from 0.  If
    none has a candidate of strictly positive score, the input is returned
    unchanged.  Otherwise, at the first index [i] that has one, the winner
    is the candidate of highest score, the first visited among equals, and
    the result is the prefix of the marked word up to codepoint [i]
    followed by the winner, without the leading marker. *)
Theorem lemmatize_spec max_suffix_size corpus trained model inflected :
  Forall (fun line : string * string * Z => marker_free line.1.1 = true) corpus ->
  trained_on max_suffix_size corpus = Ok trained ->
  model = trained \/ model = Model.trim trained ->
  valid_utf8 inflected = true ->
  let inf := trim (marked inflected) in
  let cps := boundaries inf in
  (exists lemma, Model.lemmatize model inflected = Ok lemma) /\
  ((forall cp, cp ∈ cps -> ~ applicable model (substr_from inf cp)) ->
   Model.lemmatize model inflected = Ok inflected) /\
  (forall (i : nat) cp,
     cps !! i = Some cp ->
     applicable model (substr_from inf cp) ->
     (forall (j : nat) cp', (j < i)%nat -> cps !! j = Some cp' ->
        ~ applicable model (substr_from inf cp')) ->
     exists lemsuf x lemma,
       winner model (substr_from inf cp) lemsuf x /\
       substr inf 0 cp +:+ lemsuf = marked lemma /\
       Model.lemmatize model inflected = Ok lemma).
Proof.
  intros Hfree Htr Hmodel Hv inf cps.
  assert (Hkept : marker_kept model).
  { pose proof (trained_on_marker_kept _ _ _ Hfree Htr) as Hk.
    destruct Hmodel as [->| ->]; [done | by apply trim_marker_kept]. }
  destruct (lemmatize_steps model inflected Hv)
    as (Hinf & Hnone & Hfirst & Hsafe).
  fold inf in Hinf, Hnone, Hfirst, Hsafe. fold cps in Hnone, Hfirst.
  assert (Hmark : starts_with is_marker inf = true) by by rewrite Hinf.
  split; [|split].
  - apply Hsafe.
    destruct (inner (Model._replacements model) inf !! "") as [p|] eqn:Hp;
      [|done].
    by pose proof (Hkept inf "" Hmark ltac:(by rewrite Hp)).
  - exact Hnone.
  - intros i cp Hi Ha Hbefore.
    destruct (Hfirst i cp Hi Ha Hbefore)
      as (lemsuf & x & Hw & Hloop & Hlater & Hzero).
    destruct i as [|i].
    + destruct (Hzero eq_refl) as (Hsuf & Hl & Hne).
      assert (Hsome : is_Some (inner (Model._replacements model) inf !! lemsuf)).
      { destruct Hw as (Hscore & _). rewrite Hsuf in Hscore.
        unfold score in Hscore.
        destruct (Model._infcounts model !! inf); [|done].
        destruct (inner (Model._replacements model) inf !! lemsuf); [|done].
        by eexists. }
      destruct (starts_with_marker lemsuf (Hkept inf lemsuf Hmark Hsome))
        as (lemma & ->).
      assert (Hcp : cp = 0).
      { destruct (boundaries_marked (rtrim inflected)) as (rest & Hcps & _).
        rewrite <- Hinf in Hcps. fold cps in Hcps. rewrite Hcps in Hi.
        by injection Hi. }
      exists (marked lemma), x, lemma. split; [done|]. split.
      * by rewrite Hcp.
      * by rewrite Hne.
    + destruct (Hlater ltac:(lia)) as (stem & Hstem & Hres).
      exists lemsuf, x, (stem +:+ lemsuf). split; [done|]. split; [|done].
      by rewrite Hstem.
Qed.

End Trained.

Lemma lemmatize_spec_witness :
  let model := fold_left (training_step "cats" "cat" 5) [4; 3; 2; 1; 0]
                 (Model.mk ∅ ∅ ∅ 8 false) in
  exists lemma, Model.lemmatize (Model.trim model) "rats" = Ok lemma.
Proof.
  intros model.
  apply (lemmatize_spec (H := ordered_map) 8 [("cats", "cat", 5)] model
           (Model.trim model) "rats").
  - repeat constructor.
  - reflexivity.
  - by right.
  - reflexivity.
Defined.

(** X1: on a store trained on words without the marker, trimmed or not,
    [lemmatize] returns a lemma for every well-formed input. *)
Lemma lemmatize_total_on_trained `{Traversal} max_suffix_size corpus model inflected :
  Forall (fun line : string * string * Z => marker_free line.1.1 = true) corpus ->
  trained_on max_suffix_size corpus = Ok model ->
  valid_utf8 inflected = true ->
  (exists lemma, Model.lemmatize model inflected = Ok lemma) /\
  (exists lemma, Model.lemmatize (Model.trim model) inflected = Ok lemma).
Proof.
  intros Hfree Htr Hv.
  pose proof (trained_on_marker_safe _ _ _ Hfree Htr) as Hsafe.
  split.
  - apply (lemmatize_succeeds model inflected Hv). apply Hsafe.
    by rewrite trim_marked.
  - apply (lemmatize_succeeds (Model.trim model) inflected Hv).
    apply (trim_marker_safe _ Hsafe). by rewrite trim_marked.
Qed.

Lemma lemmatize_total_on_trained_witness :
  let model := fold_left (training_step "cats" "cat" 5) [4; 3; 2; 1; 0]
                 (Model.mk ∅ ∅ ∅ 8 false) in
  (exists lemma, Model.lemmatize model "rats" = Ok lemma) /\
  (exists lemma, Model.lemmatize (Model.trim model) "rats" = Ok lemma).
Proof.
  apply (lemmatize_total_on_trained (H := ordered_map) 8 [("cats", "cat", 5)]).
  - repeat constructor.
  - reflexivity.
  - reflexivity.
Defined.

(* ===================================================================== *)
(** * Further properties of the code *)
(* ===================================================================== *)

(** ** White space at the ends of a string *)

Lemma string_app_cons a s t : String a s +:+ t = String a (s +:+ t).
Proof. done. Qed.

Lemma string_app_empty_l t : "" +:+ t = t.
Proof. done. Qed.

Lemma string_app_empty_r s : s +:+ "" = s.
Proof. induction s as [|a s IH]; [done|]. by rewrite string_app_cons, IH. Qed.

Lemma string_app_assoc s t u : (s +:+ t) +:+ u = s +:+ (t +:+ u).
Proof. induction s as [|a s IH]; [done|]. by rewrite !string_app_cons, IH. Qed.

Lemma all_chars_app p s t :
  all_chars p (s +:+ t) = all_chars p s && all_chars p t.
Proof.
  induction s as [|a s IH]; [done|].
  rewrite string_app_cons. simpl. by rewrite IH, andb_assoc.
Qed.

Lemma ltrim_cut s :
  exists l, s = l +:+ ltrim s /\ all_chars isspace l = true /\
    starts_with isspace (ltrim s) = false.
Proof.
  induction s as [|a s (l & Hl & Hsp & Hst)]; [by exists ""|].
  simpl. destruct (isspace a) eqn:Ha.
  - exists (String a l). rewrite string_app_cons, <- Hl. simpl. by rewrite Ha.
  - exists "". by simpl.
Qed.

Lemma rtrim_cut s :
  exists r, s = rtrim s +:+ r /\ all_chars isspace r = true /\
    ends_with isspace (rtrim s) = false.
Proof.
  induction s as [|a s (r & Hr & Hsp & He)]; [by exists ""|].
  simpl. destruct (rtrim s) as [|b k] eqn:Hk.
  - destruct (isspace a) eqn:Ha.
    + exists (String a r). rewrite string_app_empty_l in *. subst s. simpl.
      by rewrite Ha.
    + exists r. rewrite string_app_cons, string_app_empty_l in *. subst s. simpl.
      by rewrite Ha.
  - exists r. rewrite string_app_cons, <- Hr. repeat split; auto.
Qed.

Lemma ends_with_ltrim s :
  ends_with isspace s = false -> ends_with isspace (ltrim s) = false.
Proof.
  induction s as [|a s IH]; [done|]. intros He.
  change (ltrim (String a s)) with (if isspace a then ltrim s else String a s).
  destruct (isspace a) eqn:Ha; [|done].
  destruct s as [|b s]; [done|]. by apply IH.
Qed.

(** X2: [trim] takes white space off both ends and nothing else: the
    string is a run of white space, then [trim s], then a run of white
    space, and [trim s] neither starts nor ends with a white-space
    character. *)
Theorem trim_strips_spaces s :
  exists l r,
    s = l +:+ trim s +:+ r /\
    all_chars isspace l = true /\ all_chars isspace r = true /\
    starts_with isspace (trim s) = false /\
    ends_with isspace (trim s) = false.
Proof.
  destruct (rtrim_cut s) as (r & Hr & Hrs & He).
  destruct (ltrim_cut (rtrim s)) as (l & Hl & Hls & Hs).
  exists l, r. unfold trim. split.
  - rewrite <- string_app_assoc, <- Hl. exact Hr.
  - repeat split; auto. by apply ends_with_ltrim.
Qed.

(** ** The codepoints the segmenter cuts *)

Lemma string_length_app s t :
  String.length (s +:+ t) = (String.length s + String.length t)%nat.
Proof. induction s as [|a s IH]; [done|]. rewrite string_app_cons. simpl. lia. Qed.

Lemma str_size_app s t : str_size (s +:+ t) = str_size s + str_size t.
Proof. unfold str_size. rewrite string_length_app. lia. Qed.

Lemma sdrop_app_length p t : sdrop (String.length p) (p +:+ t) = t.
Proof. induction p as [|a p IH]; [done|]. by rewrite string_app_cons. Qed.

Lemma stake_app_length c t : stake (String.length c) (c +:+ t) = c.
Proof.
  induction c as [|a c IH]; [by destruct t|]. rewrite string_app_cons. simpl.
  by rewrite IH.
Qed.

Lemma substr_middle p c t :
  substr (p +:+ c +:+ t) (str_size p) (str_size c) = c.
Proof.
  unfold substr, str_size. rewrite !Nat2Z.id.
  by rewrite sdrop_app_length, stake_app_length.
Qed.

Lemma spans_starts_from t : forall p c,
  join (spans (p +:+ c +:+ t) (str_size p)
    (starts_from t (str_size p + str_size c) ++ [str_size (p +:+ c +:+ t)]))
  = c +:+ t /\
  (one_codepoint c = true ->
   all_chars (fun a => negb (is_stray a)) t = true ->
   Forall (fun x => one_codepoint x = true)
     (spans (p +:+ c +:+ t) (str_size p)
        (starts_from t (str_size p + str_size c)
         ++ [str_size (p +:+ c +:+ t)]))).
Proof.
  induction t as [|a t IH]; intros p c.
  - pose proof (substr_middle p c "") as Hm.
    rewrite (string_app_empty_r c) in *. simpl. rewrite str_size_app.
    replace (str_size p + str_size c - str_size p) with (str_size c) by lia.
    rewrite Hm, string_app_empty_r. split; [done|].
    intros Hc _. by repeat constructor.
  - assert (Hs1 : p +:+ c +:+ String a t = (p +:+ c) +:+ String a "" +:+ t).
    { by rewrite string_app_assoc. }
    assert (Hs2 : p +:+ c +:+ String a t = p +:+ (c +:+ String a "") +:+ t).
    { by rewrite string_app_assoc. }
    simpl starts_from. destruct (found_start (byte_of a)) eqn:Ha.
    + simpl.
      replace (str_size p + str_size c - str_size p) with (str_size c) by lia.
      rewrite substr_middle.
      destruct (IH (p +:+ c) (String a "")) as (IHj & IHf).
      rewrite str_size_app in IHj, IHf.
      change (str_size (String a "")) with 1 in IHj, IHf.
      rewrite <- Hs1 in IHj, IHf. rewrite IHj. split; [done|].
      intros Hc [Hna Ht]%andb_true_iff. constructor; [done|].
      apply IHf; [|done]. simpl. by rewrite Ha.
    + destruct (IH p (c +:+ String a "")) as (IHj & IHf).
      rewrite str_size_app in IHj, IHf.
      change (str_size (String a "")) with 1 in IHj, IHf.
      rewrite <- Hs2, Z.add_assoc in IHj, IHf. rewrite IHj.
      split; [by rewrite string_app_assoc|].
      intros Hc [Hna Ht]%andb_true_iff. apply IHf; [|done].
      destruct c as [|a0 r0]; [done|]. rewrite string_app_cons. simpl in *.
      apply andb_true_iff in Hc as [-> Hr0]. simpl.
      rewrite all_chars_app, Hr0. simpl.
      rewrite found_start_spec, Hna, andb_true_r in Ha.
      apply negb_false_iff in Ha. by rewrite Ha.
Qed.

Lemma codepoints_of_boundaries s :
  segmentable s = true ->
  join (codepoints_of s (boundaries s)) = s /\
  Forall (fun c => one_codepoint c = true) (codepoints_of s (boundaries s)).
Proof.
  intros Hseg. unfold boundaries.
  destruct s as [|a s]; [by repeat constructor|].
  unfold segmentable in Hseg. simpl in Hseg.
  apply andb_true_iff in Hseg as [[Hna Hs]%andb_true_iff Hc].
  assert (Ha : found_start (byte_of a) = true).
  { rewrite found_start_spec, Hna, andb_true_r. done. }
  rewrite starts_from_head by done. simpl app. unfold codepoints_of.
  destruct (spans_starts_from s "" (String a "")) as [Hj Hf].
  change (str_size "") with 0 in Hj, Hf.
  change (str_size (String a "")) with 1 in Hj, Hf.
  change ("" +:+ String a "" +:+ s) with (String a s) in Hj, Hf.
  split; [exact Hj|]. apply Hf; [|done]. simpl. by rewrite Ha.
Qed.

(** X3: when the segmenter accepts [s] and stores [v], the spans between
    consecutive offsets of [v] followed by the byte length concatenate
    back to [s]; each span is one byte that matches a start pattern
    followed by continuation bytes only, and there is one span for each
    stored offset. *)
Theorem store_codepoints_cuts s v :
  store_codepoints s = (true, v) ->
  let cps := codepoints_of s (v ++ [str_size s]) in
  join cps = s /\ Forall (fun c => one_codepoint c = true) cps /\
  length cps = length v.
Proof.
  intros Hst cps. subst cps.
  assert (Hseg : segmentable s = true).
  { by rewrite <- store_codepoints_ok, Hst. }
  rewrite (store_codepoints_result s Hseg) in Hst. injection Hst as <-.
  fold (boundaries s).
  destruct (codepoints_of_boundaries s Hseg) as [Hj Hf].
  split; [done|]. split; [done|].
  pose proof (length_codepoints_of s) as Hl. unfold codepoint_count in Hl. lia.
Qed.

Lemma store_codepoints_cuts_witness :
  let s := String "110" (String "195" (String "169" "e")) in
  let cps := codepoints_of s ([0; 1; 3] ++ [str_size s]) in
  join cps = s /\ Forall (fun c => one_codepoint c = true) cps /\
  length cps = 3%nat.
Proof.
  exact (store_codepoints_cuts
           (String "110" (String "195" (String "169" "e"))) [0; 1; 3] eq_refl).
Defined.

(** ** Range and symmetry of the common prefix *)

Lemma same_bytes_comm a b from upto :
  same_bytes a b from upto = same_bytes b a from upto.
Proof.
  apply eq_true_iff_eq. rewrite !same_bytes_true.
  split; intros H i Hi; symmetry; by apply H.
Qed.

Lemma same_bytes_refl s from upto : same_bytes s s from upto = true.
Proof. by apply same_bytes_true. Qed.

Lemma common_prefix_loop_comm a b : forall xs ys j p,
  common_prefix_loop a b xs ys j p = common_prefix_loop b a ys xs j p.
Proof.
  induction xs as [|x xs IH]; intros [|y ys] j p; simpl; try done.
  rewrite (Z.eqb_sym y x). destruct (x =? y) eqn:Hxy; simpl; [|done].
  apply Z.eqb_eq in Hxy. subst y. rewrite (same_bytes_comm b a).
  destruct (same_bytes a b p x); simpl; [|done]. apply IH.
Qed.

Lemma common_prefix_loop_range a b : forall xs ys j p,
  j <= common_prefix_loop a b xs ys j p
    <= j + Z.of_nat (length xs `min` length ys).
Proof.
  induction xs as [|x xs IH]; intros [|y ys] j p; simpl; try lia.
  destruct (negb (x =? y)); [lia|].
  destruct (negb (same_bytes a b p x)); [lia|].
  specialize (IH ys (j + 1) x). lia.
Qed.

Lemma common_prefix_loop_same s : forall xs j p,
  common_prefix_loop s s xs xs j p = j + Z.of_nat (length xs).
Proof.
  induction xs as [|x xs IH]; intros j p; simpl; [lia|].
  rewrite Z.eqb_refl, same_bytes_refl. simpl. rewrite IH. lia.
Qed.

(** X4: the value of [common_prefix_size] lies between 0 and the size of
    the shorter vector; it stays the same when the two strings are
    exchanged together with their vectors; and for a string against
    itself it is the size of the vector. *)
Theorem common_prefix_size_range a b acodepoints bcodepoints :
  0 <= common_prefix_size a b acodepoints bcodepoints
    <= Z.of_nat (length acodepoints `min` length bcodepoints) /\
  common_prefix_size a b acodepoints bcodepoints =
    common_prefix_size b a bcodepoints acodepoints /\
  common_prefix_size a a acodepoints acodepoints =
    Z.of_nat (length acodepoints).
Proof.
  unfold common_prefix_size. split; [|split].
  - pose proof (common_prefix_loop_range a b acodepoints bcodepoints 0 0). lia.
  - apply common_prefix_loop_comm.
  - by rewrite common_prefix_loop_same.
Qed.

(** ** What training keeps true of the store *)

Lemma swap_counts_bump m k a b :
  swap_counts <$> bump m k a b = bump (swap_counts <$> m) k b a.
Proof.
  unfold bump. rewrite fmap_insert. f_equal.
  unfold Model.at_key. rewrite lookup_fmap.
  by destruct (m !! k) as [[tp fp]|].
Qed.

Lemma record_pair_mirrored infsuf lemsuf correct count st :
  mirrored st -> mirrored (Model.record_pair infsuf lemsuf correct count st).
Proof.
  unfold mirrored. intros Hm. rewrite record_pair_tables. simpl.
  rewrite !swap_counts_bump, <- Hm. apply bump_comm.
Qed.

Lemma record_pair_covered infsuf lemsuf correct count st :
  covered st -> covered (Model.record_pair infsuf lemsuf correct count st).
Proof.
  intros Hc k l. rewrite record_pair_tables. simpl.
  rewrite inner_bump_replacement, !lookup_bump.
  intros Hkl.
  assert (Hold : is_Some (inner (Model._replacements st) k !! l) \/
                 (k = infsuf /\ l = lemsuf)).
  { case_decide as Hk; [|by left]. subst k.
    rewrite lookup_bump in Hkl. case_decide; [by right | by left]. }
  destruct Hold as [Hold|[-> ->]].
  - destruct (Hc k l Hold) as [Hi Hl]. split; repeat case_decide; eauto.
  - split; repeat case_decide; eauto; congruence.
Qed.

Lemma fold_training_step_inv (P : Model.t -> Prop) inflected lemma count :
  (forall f l b st, P st -> P (Model.record_pair f l b count st)) ->
  forall l st, P st -> P (fold_left (training_step inflected lemma count) l st).
Proof.
  intros Hstep l. induction l as [|i l IH]; intros st Hst; simpl; [done|].
  apply IH. unfold training_step, Model.update_at. by apply Hstep.
Qed.

Lemma update_inv (P : Model.t -> Prop) model inflected lemma count model' :
  (forall f l b st, P st -> P (Model.record_pair f l b count st)) ->
  P model -> Model.update model inflected lemma count = Ok model' -> P model'.
Proof.
  intros Hstep Hm. rewrite update_cases.
  destruct (Model.is_trimmed model); [done|].
  destruct (_ || _); [done|]. cbv zeta. intros [= <-].
  by apply fold_training_step_inv.
Qed.

Lemma trained_on_inv (P : Model.t -> Prop) max_suffix_size corpus model :
  (forall f l b c st, P st -> P (Model.record_pair f l b c st)) ->
  (forall m, Model.new max_suffix_size = Ok m -> P m) ->
  trained_on max_suffix_size corpus = Ok model -> P model.
Proof.
  intros Hstep. unfold trained_on.
  revert model. generalize (Model.new max_suffix_size).
  induction corpus as [|line corpus IH]; intros r model Hinit; simpl.
  - apply Hinit.
  - apply IH. intros m. destruct r as [m0|e]; simpl; [|done].
    apply update_inv; auto.
Qed.

(** X5: in every store built by training alone, the inflected counts are
    the lemma counts with [tp] and [fp] exchanged, and every pair of the
    replacement table has its inflected suffix in the inflected counts and
    its lemma suffix in the lemma counts. *)
Theorem trained_on_mirrored max_suffix_size corpus model :
  trained_on max_suffix_size corpus = Ok model ->
  mirrored model /\ covered model.
Proof.
  intros Htr. split.
  - eapply (trained_on_inv mirrored); [| |exact Htr].
    { intros. by apply record_pair_mirrored. }
    unfold Model.new. intros m. destruct (_ || _); [done|]. intros [= <-].
    unfold mirrored. simpl. by rewrite fmap_empty.
  - eapply (trained_on_inv covered); [| |exact Htr].
    { intros. by apply record_pair_covered. }
    unfold Model.new. intros m. destruct (_ || _); [done|]. intros [= <-].
    intros k l. unfold inner. simpl. rewrite !lookup_empty.
    intros [? ?]. done.
Qed.

Lemma trained_on_mirrored_witness :
  let model := fold_left (training_step "cats" "cat" 5) [4; 3; 2; 1; 0]
                 (Model.mk ∅ ∅ ∅ 8 false) in
  mirrored model /\ covered model.
Proof.
  apply (trained_on_mirrored 8 [("cats", "cat", 5)]). reflexivity.
Defined.

(** ** Order of the corpus lines *)

Lemma training_steps_comm a1 b1 c1 a2 b2 c2 st i j :
  training_step a2 b2 c2 (training_step a1 b1 c1 st i) j =
  training_step a1 b1 c1 (training_step a2 b2 c2 st j) i.
Proof. unfold training_step, Model.update_at. apply record_pair_comm. Qed.

Lemma fold_training_steps_comm1 a1 b1 c1 a2 b2 c2 l : forall st j,
  training_step a2 b2 c2 (fold_left (training_step a1 b1 c1) l st) j =
  fold_left (training_step a1 b1 c1) l (training_step a2 b2 c2 st j).
Proof.
  induction l as [|i l IH]; intros st j; simpl; [done|].
  by rewrite IH, training_steps_comm.
Qed.

Lemma fold_training_steps_comm a1 b1 c1 a2 b2 c2 l1 l2 : forall st,
  fold_left (training_step a2 b2 c2) l2
    (fold_left (training_step a1 b1 c1) l1 st) =
  fold_left (training_step a1 b1 c1) l1
    (fold_left (training_step a2 b2 c2) l2 st).
Proof.
  induction l2 as [|j l2 IH]; intros st; simpl; [done|].
  by rewrite fold_training_steps_comm1, IH.
Qed.

Lemma update_is_trimmed model inflected lemma count model' :
  Model.update model inflected lemma count = Ok model' ->
  Model.is_trimmed model = false /\
  Model.is_trimmed model' = false /\
  Model._max_suffix_size model' = Model._max_suffix_size model.
Proof.
  rewrite update_cases. destruct (Model.is_trimmed model) eqn:Ht; [done|].
  destruct (_ || _); [done|]. cbv zeta. intros [= <-].
  pose proof (fold_training_step_flags inflected lemma count
    (descending (Z.max (codepoint_count (marked inflected))
                       (codepoint_count (marked lemma)) + 1 - 2)
       (Z.max (Z.max (codepoint_count (marked inflected))
                     (codepoint_count (marked lemma)) + 1
               - Model._max_suffix_size model - 1) 0)) model) as Hf.
  cbv zeta in Hf. destruct Hf as [Hmax Htr].
  unfold Model.is_trimmed in *. by rewrite Htr, Hmax.
Qed.

Lemma update_decode_error model inflected lemma count :
  Model.is_trimmed model = false ->
  negb (segmentable (marked inflected)) || negb (segmentable (marked lemma))
    = true ->
  Model.update model inflected lemma count =
  Throw (runtime_error "Utf-8 decode error.").
Proof. intros Ht Hd. by rewrite update_cases, Ht, Hd. Qed.

Lemma train_line_comm r line1 line2 :
  train_line (train_line r line1) line2 = train_line (train_line r line2) line1.
Proof.
  destruct r as [model|e]; [|done].
  destruct line1 as [[a1 b1] c1], line2 as [[a2 b2] c2].
  unfold train_line. simpl.
  destruct (Model.is_trimmed model) eqn:Ht.
  { by rewrite !update_cases, Ht. }
  destruct (negb (segmentable (marked a1)) || negb (segmentable (marked b1)))
    eqn:H1;
  destruct (negb (segmentable (marked a2)) || negb (segmentable (marked b2)))
    eqn:H2.
  - by rewrite !update_decode_error.
  - rewrite (update_decode_error model a1 b1) by done. simpl.
    destruct (Model.update model a2 b2 c2) as [m2|e2] eqn:Hu2;
      [|by rewrite update_cases, Ht, H2 in Hu2].
    simpl. destruct (update_is_trimmed _ _ _ _ _ Hu2) as (_ & Ht2 & _).
    by rewrite update_decode_error.
  - rewrite (update_decode_error model a2 b2) by done. simpl.
    destruct (Model.update model a1 b1 c1) as [m1|e1] eqn:Hu1;
      [|by rewrite update_cases, Ht, H1 in Hu1].
    simpl. destruct (update_is_trimmed _ _ _ _ _ Hu1) as (_ & Ht1 & _).
    by rewrite update_decode_error.
  - destruct (Model.update model a1 b1 c1) as [m1|e1] eqn:Hu1;
      [|by rewrite update_cases, Ht, H1 in Hu1].
    destruct (Model.update model a2 b2 c2) as [m2|e2] eqn:Hu2;
      [|by rewrite update_cases, Ht, H2 in Hu2].
    simpl.
    destruct (update_is_trimmed _ _ _ _ _ Hu1) as (_ & Ht1 & Hm1).
    destruct (update_is_trimmed _ _ _ _ _ Hu2) as (_ & Ht2 & Hm2).
    rewrite update_cases, Ht, H1 in Hu1. rewrite update_cases, Ht, H2 in Hu2.
    cbv zeta in Hu1, Hu2. injection Hu1 as Hu1. injection Hu2 as Hu2.
    rewrite (update_cases m1), (update_cases m2), Ht1, Ht2, H1, H2, Hm1, Hm2.
    cbv zeta. f_equal. rewrite <- Hu1, <- Hu2.
    apply fold_training_steps_comm.
Qed.

Lemma fold_train_line_perm l1 l2 :
  l1 ≡ₚ l2 -> forall r, fold_left train_line l1 r = fold_left train_line l2 r.
Proof.
  induction 1 as [|x l1 l2 _ IH|x y l|l1 l2 l3 _ IH1 _ IH2]; intros r; simpl.
  - done.
  - apply IH.
  - by rewrite train_line_comm.
  - by rewrite IH1.
Qed.

(** X6: training does not depend on the order of the corpus lines: two
    corpora that are permutations of each other give the same store, or
    the same error. *)
Theorem trained_on_permutation max_suffix_size corpus1 corpus2 :
  corpus1 ≡ₚ corpus2 ->
  trained_on max_suffix_size corpus1 = trained_on max_suffix_size corpus2.
Proof.
  intros Hp. unfold trained_on.
  change (fold_left train_line corpus1 (Model.new max_suffix_size) =
          fold_left train_line corpus2 (Model.new max_suffix_size)).
  by apply fold_train_line_perm.
Qed.

Lemma trained_on_permutation_witness :
  trained_on 8 [("cats", "cat", 5); ("dogs", "dog", 2)] =
  trained_on 8 [("dogs", "dog", 2); ("cats", "cat", 5)].
Proof. apply trained_on_permutation. apply perm_swap. Defined.

(** ** The outcome of a training call *)

Lemma segmentable_marked w : segmentable (marked w) = stray_free w.
Proof.
  unfold segmentable, stray_free. change (marked w) with (String "$"%char w).
  simpl. by rewrite andb_true_r.
Qed.

(** X7: a training call throws "Cannot update a trimmed model." exactly on
    a trimmed store, throws "Utf-8 decode error." exactly on a store that
    is not trimmed when one of the two words has a byte 0xFE or 0xFF, and
    goes through in every other case: the marker in front shields a
    leading continuation byte, and [count] is never looked at. *)
Theorem update_outcome model inflected lemma count :
  (Model.update model inflected lemma count =
     Throw (runtime_error "Cannot update a trimmed model.") <->
   Model.is_trimmed model = true) /\
  (Model.update model inflected lemma count =
     Throw (runtime_error "Utf-8 decode error.") <->
   Model.is_trimmed model = false /\
   stray_free inflected && stray_free lemma = false) /\
  ((exists model', Model.update model inflected lemma count = Ok model') <->
   Model.is_trimmed model = false /\
   stray_free inflected && stray_free lemma = true).
Proof.
  rewrite update_cases, !segmentable_marked, <- negb_andb.
  destruct (Model.is_trimmed model),
    (stray_free inflected && stray_free lemma); simpl.
  all: split; [|split]; split.
  all: try done; try (by intros [? ?]); by eexists.
Qed.

(** ** The keys a training call adds *)

Lemma length_starts_from s : forall i j,
  length (starts_from s i) = length (starts_from s j).
Proof.
  induction s as [|a s IH]; intros i j; simpl; [done|].
  destruct (found_start (byte_of a)); simpl; auto.
Qed.

Lemma length_starts_from_conts r t i :
  all_chars is_cont r = true ->
  length (starts_from (r +:+ t) i) = length (starts_from t 0).
Proof.
  revert i. induction r as [|a r IH]; intros i Hr.
  - rewrite string_app_empty_l. apply length_starts_from.
  - simpl in Hr. apply andb_true_iff in Hr as [Ha Hr].
    rewrite string_app_cons. simpl.
    rewrite found_start_spec, Ha. simpl. by apply IH.
Qed.

Lemma codepoint_count_join l :
  Forall (fun c => one_codepoint c = true) l ->
  codepoint_count (join l) = Z.of_nat (length l).
Proof.
  unfold codepoint_count.
  induction 1 as [|c l Hc _ IH]; [done|].
  destruct c as [|a r]; [done|]. simpl in Hc.
  apply andb_true_iff in Hc as [Ha Hr].
  simpl join. rewrite string_app_cons. simpl starts_from. rewrite Ha.
  simpl length. rewrite length_starts_from_conts by done. lia.
Qed.

Lemma codepoint_count_suffix s i :
  segmentable s = true -> 0 <= i ->
  codepoint_count (Model.suffix_at s (boundaries s) i) =
  Z.max (codepoint_count s - i) 0.
Proof.
  intros Hseg Hi. rewrite suffix_at_boundaries by done.
  unfold suffix_from_codepoint.
  destruct (codepoints_of_boundaries s Hseg) as [_ Hf].
  rewrite codepoint_count_join by by apply Forall_drop.
  rewrite length_drop. pose proof (length_codepoints_of s). lia.
Qed.

Lemma suffix_at_is_suffix s cps i :
  exists n, Model.suffix_at s cps i = sdrop n s.
Proof. unfold Model.suffix_at, substr_from. by eexists. Qed.

Lemma record_pair_is_key infsuf lemsuf correct count st k :
  is_key (Model.record_pair infsuf lemsuf correct count st) k ->
  is_key st k \/ k = infsuf \/ k = lemsuf.
Proof.
  unfold is_key. rewrite record_pair_tables. simpl.
  rewrite !lookup_bump.
  intros [Hk|[Hk|[Hk|[inf Hk]]]].
  - repeat case_decide; auto.
  - repeat case_decide; auto.
  - unfold bump_replacement in Hk.
    destruct (decide (k = infsuf)) as [->|Hne]; [auto|].
    rewrite lookup_insert_ne in Hk by done. auto.
  - rewrite inner_bump_replacement in Hk. case_decide as Hinf.
    + subst inf. rewrite lookup_bump in Hk. case_decide; [auto|].
      left. right. right. right. by exists infsuf.
    + left. right. right. right. by exists inf.
Qed.

Lemma is_key_fold_training_step inflected lemma count k l : forall st,
  is_key (fold_left (training_step inflected lemma count) l st) k ->
  is_key st k \/
  exists i, i ∈ l /\
    (k = Model.suffix_at (marked inflected) (boundaries (marked inflected)) i \/
     k = Model.suffix_at (marked lemma) (boundaries (marked lemma)) i).
Proof.
  induction l as [|i l IH]; intros st; simpl; [by left|].
  intros [Hk|(j & Hj & Hk)]%IH.
  - unfold training_step, Model.update_at in Hk.
    apply record_pair_is_key in Hk as [Hk|Hk]; [by left|].
    right. exists i. split; [apply list_elem_of_here|done].
  - right. exists j. split; [by apply list_elem_of_further|done].
Qed.

(** X8: every key a training call adds to a table is a byte suffix of one
    of the two marked words and has at most [max_suffix_size]
    codepoints. *)
Theorem update_adds_bounded_suffixes model inflected lemma count model' k :
  Model.update model inflected lemma count = Ok model' ->
  is_key model' k ->
  is_key model k \/
  ((exists n, k = sdrop n (marked inflected) \/ k = sdrop n (marked lemma)) /\
   0 <= codepoint_count k <= Model._max_suffix_size model).
Proof.
  rewrite update_cases. destruct (Model.is_trimmed model); [done|].
  destruct (segmentable (marked inflected)) eqn:Hi; [|done].
  destruct (segmentable (marked lemma)) eqn:Hl; [|done].
  cbv zeta. simpl. intros [= <-] Hk.
  apply is_key_fold_training_step in Hk as [Hk|(i & Hrange & Hk)]; [by left|].
  right. apply elem_of_descending in Hrange.
  assert (0 <= codepoint_count (marked inflected))
    by (unfold codepoint_count; lia).
  assert (0 <= codepoint_count (marked lemma))
    by (unfold codepoint_count; lia).
  destruct Hk as [->| ->].
  - split.
    + destruct (suffix_at_is_suffix (marked inflected)
                  (boundaries (marked inflected)) i) as [n ->]. eauto.
    + rewrite codepoint_count_suffix by (done || lia). lia.
  - split.
    + destruct (suffix_at_is_suffix (marked lemma)
                  (boundaries (marked lemma)) i) as [n ->]. eauto.
    + rewrite codepoint_count_suffix by (done || lia). lia.
Qed.

Lemma update_adds_bounded_suffixes_witness :
  is_key (Model.mk ∅ ∅ ∅ 2 false) "ts" \/
  ((exists n, "ts" = sdrop n (marked "cats") \/ "ts" = sdrop n (marked "cat")) /\
   0 <= codepoint_count "ts" <= 2).
Proof.
  apply (update_adds_bounded_suffixes (Model.mk ∅ ∅ ∅ 2 false) "cats" "cat" 5
           (fold_left (training_step "cats" "cat" 5) [4; 3]
                      (Model.mk ∅ ∅ ∅ 2 false))).
  - reflexivity.
  - left. exists (0, 5). vm_compute. reflexivity.
Defined.

(** ** Probabilities of entries that [trim] erases *)

Lemma zero_or_nan_div x y :
  zero_or_nan x = true -> zero_or_nan (x / y) = true.
Proof.
  unfold zero_or_nan. rewrite FloatAxioms.div_spec. unfold SF64div, SFdiv.
  destruct (Prim2SF x), (Prim2SF y); done.
Qed.

Lemma zero_or_nan_mul_l x y :
  zero_or_nan x = true -> zero_or_nan (x * y) = true.
Proof.
  unfold zero_or_nan. rewrite FloatAxioms.mul_spec. unfold SF64mul, SFmul.
  destruct (Prim2SF x), (Prim2SF y); done.
Qed.

Lemma zero_or_nan_mul_r x y :
  zero_or_nan y = true -> zero_or_nan (x * y) = true.
Proof.
  unfold zero_or_nan. rewrite FloatAxioms.mul_spec. unfold SF64mul, SFmul.
  destruct (Prim2SF x), (Prim2SF y); done.
Qed.

Lemma compute_prob_zero p : p.1 = 0 -> zero_or_nan (compute_prob p) = true.
Proof.
  destruct p as [tp fp]. simpl. intros ->. unfold compute_prob. simpl fst.
  apply zero_or_nan_div. reflexivity.
Qed.

Lemma zero_or_nan_not_above b x :
  (0 <=? b)%float = true -> zero_or_nan x = true -> (b <? x)%float = false.
Proof.
  unfold zero_or_nan.
  rewrite FloatAxioms.leb_spec, FloatAxioms.ltb_spec. unfold SFleb, SFltb.
  change (Prim2SF 0) with (S754_zero false).
  destruct (Prim2SF b) as [| [] | | [] ? ?], (Prim2SF x); simpl; done.
Qed.

Lemma leb_zero_ltb b x :
  (0 <=? b)%float = true -> (b <? x)%float = true -> (0 <=? x)%float = true.
Proof.
  rewrite !FloatAxioms.leb_spec, FloatAxioms.ltb_spec. unfold SFleb, SFltb.
  change (Prim2SF 0) with (S754_zero false).
  destruct (Prim2SF b) as [| [] | | [] ? ?], (Prim2SF x) as [| [] | | [] ? ?];
    simpl; try done.
Qed.

(** ** Trimming and the inferencer *)

Lemma candidate_score_zero model prB k :
  k.2.1 = 0 \/ (forall d, Model._lemcounts model !! k.1 = Some d -> d.1 = 0) ->
  forall z, candidate_score model prB k = Some z -> zero_or_nan z = true.
Proof.
  unfold candidate_score. intros Hz z.
  destruct (Model._lemcounts model !! k.1) as [d|]; [|done]. intros [= <-].
  apply zero_or_nan_div. destruct Hz as [Hk|Hd].
  - by apply zero_or_nan_mul_l, compute_prob_zero.
  - by apply zero_or_nan_mul_r, compute_prob_zero, Hd.
Qed.

Lemma consider_nonneg model inf cp prB st k :
  (0 <=? st.1.2)%float = true ->
  (0 <=? (Model.consider model inf cp prB st k).1.2)%float = true.
Proof.
  destruct st as [[bl bp] found]. simpl. intros Hb. rewrite consider_eq.
  destruct (candidate_score model prB k) as [z|]; [|done].
  destruct (bp <? z)%float eqn:Hz; [|done]. simpl.
  by apply (leb_zero_ltb bp).
Qed.

Lemma consider_zero model inf cp prB st k :
  (0 <=? st.1.2)%float = true ->
  k.2.1 = 0 \/ (forall d, Model._lemcounts model !! k.1 = Some d -> d.1 = 0) ->
  Model.consider model inf cp prB st k = st.
Proof.
  destruct st as [[bl bp] found]. simpl. intros Hb Hz. rewrite consider_eq.
  destruct (candidate_score model prB k) as [z|] eqn:Hk; [|done].
  by rewrite (zero_or_nan_not_above bp z Hb
                (candidate_score_zero model prB k Hz z Hk)).
Qed.

Lemma lemcounts_trim model :
  Model.is_trimmed model = false ->
  Model._lemcounts (Model.trim model) = filter Model.keep (Model._lemcounts model).
Proof. intros Ht. unfold Model.trim. by rewrite Ht. Qed.

Lemma consider_trim model inf cp prB st k :
  Model.is_trimmed model = false ->
  (0 <=? st.1.2)%float = true ->
  Model.consider (Model.trim model) inf cp prB st k =
  Model.consider model inf cp prB st k.
Proof.
  intros Ht Hb.
  destruct (Model._lemcounts model !! k.1) as [d|] eqn:Hd.
  - destruct (decide (d.1 = 0)) as [Hz|Hnz].
    + rewrite (consider_zero model) by (auto || right; congruence).
      unfold Model.consider. rewrite lemcounts_trim by done.
      rewrite (proj2 (map_lookup_filter_None _ _ _)); [done|].
      right. intros d' Hd' Hkeep. unfold Model.keep in Hkeep. simpl in Hkeep.
      congruence.
    + unfold Model.consider. rewrite lemcounts_trim by done.
      rewrite (map_lookup_filter_Some_2 _ _ _ _ Hd); [by rewrite Hd|done].
  - unfold Model.consider. rewrite lemcounts_trim by done.
    rewrite Hd. rewrite (proj2 (map_lookup_filter_None _ _ _)); [done|].
    by left.
Qed.

Lemma fold_consider_trim model inf cp prB l : forall st,
  Model.is_trimmed model = false ->
  (0 <=? st.1.2)%float = true ->
  fold_left (Model.consider (Model.trim model) inf cp prB)
            (filter Model.keep l) st =
  fold_left (Model.consider model inf cp prB) l st.
Proof.
  induction l as [|k l IH]; intros st Ht Hb; [done|].
  rewrite filter_cons. simpl. case_decide as Hk.
  - simpl. rewrite consider_trim by done.
    apply IH; [done|]. by apply consider_nonneg.
  - rewrite (consider_zero model inf cp prB st k Hb).
    + by apply IH.
    + left. unfold Model.keep in Hk. lia.
Qed.

Section Trimmed.
Context `{Traversal}.
Hypothesis stable : erase_stable.

Lemma lemmatize_loop_trim model inflected inf cps : forall bl,
  Model.is_trimmed model = false -> supported model ->
  Model.lemmatize_loop (Model.trim model) inflected inf cps bl =
  Model.lemmatize_loop model inflected inf cps bl.
Proof.
  induction cps as [|cp cps IH]; intros bl Ht Hsup; [done|].
  simpl. rewrite !IH by done.
  assert (Hinf : Model._infcounts (Model.trim model) =
                 filter Model.keep (Model._infcounts model)).
  { unfold Model.trim. by rewrite Ht. }
  assert (Hrep : Model._replacements (Model.trim model) =
                 omap Model.trim_inner (Model._replacements model)).
  { unfold Model.trim. by rewrite Ht. }
  rewrite Hinf, Hrep, lookup_omap.
  destruct (Model._infcounts model !! substr_from inf cp) as [infdata|] eqn:Hi.
  2: { rewrite (proj2 (map_lookup_filter_None _ _ _)); [done|]. by left. }
  destruct (decide (infdata.1 = 0)) as [Hz|Hnz].
  { rewrite (proj2 (map_lookup_filter_None _ _ _)).
    - by rewrite (Hsup _ _ Hi Hz).
    - right. intros d Hd Hkeep. unfold Model.keep in Hkeep. simpl in Hkeep.
      congruence. }
  rewrite (map_lookup_filter_Some_2 _ _ _ _ Hi) by done.
  destruct (Model._replacements model !! substr_from inf cp) as [reps|] eqn:Hr;
    simpl; [|done].
  pose proof (fold_consider_trim model inf cp (compute_prob infdata)
                (entries reps) (bl, 0%float, false) Ht eq_refl) as Hfold.
  rewrite <- stable in Hfold.
  unfold Model.trim_inner. case_decide as Hsize.
  - apply map_size_empty_iff in Hsize. rewrite Hsize in Hfold.
    assert (Hnil : entries (∅ : gmap string (Z * Z)) = []).
    { apply Permutation_nil_r. rewrite entries_perm. by rewrite map_to_list_empty. }
    rewrite Hnil in Hfold. simpl in Hfold. by rewrite <- Hfold.
  - rewrite Hfold. destruct (fold_left _ _ _).2; [done|]. by apply IH.
Qed.

(** X9: trimming does not change what [lemmatize] returns, for any input,
    when erasing entries keeps the traversal order of those that stay and
    no inflected suffix that has replacements is counted with [tp = 0]:
    an erased entry has a probability that is a zero or not a number, and
    a candidate scored with it never passes the strict comparison with
    [best_prob]. *)
Theorem lemmatize_trim model inflected :
  supported model ->
  Model.lemmatize (Model.trim model) inflected =
  Model.lemmatize model inflected.
Proof.
  intros Hsup. destruct (Model.is_trimmed model) eqn:Ht.
  { by rewrite trim_trimmed. }
  unfold Model.lemmatize.
  destruct (store_codepoints (trim ("$" +:+ inflected))) as [ok cps].
  destruct ok; simpl; [|done]. by apply lemmatize_loop_trim.
Qed.

End Trimmed.

(** ** The key order is stable under erasure *)

Lemma StronglySorted_filter {A : Type} (R : relation A) (P : A -> Prop)
    `{forall x, Decision (P x)} (l : list A) :
  StronglySorted R l -> StronglySorted R (filter P l).
Proof.
  induction 1 as [|x l _ IH Hx]; [constructor|].
  rewrite filter_cons. case_decide; [|done].
  constructor; [done|].
  apply Forall_forall. intros y [_ Hy]%list_elem_of_filter.
  by apply (proj1 (Forall_forall _ _) Hx).
Qed.

Global Instance key_le_trans {V : Type} : Transitive (@key_le V).
Proof. intros x y z. unfold key_le. apply transitivity. Qed.

Global Instance key_le_total {V : Type} : Total (@key_le V).
Proof. intros x y. unfold key_le. apply total, _. Qed.

Lemma ordered_map_erase_stable : @erase_stable ordered_map.
Proof.
  intros m. unfold entries. simpl.
  apply (StronglySorted_unique_strong key_le).
  - intros [k1 v1] [k2 v2] H1 H2 Hle1 Hle2. unfold key_le in *. simpl in *.
    assert (k1 = k2) as <- by by apply (anti_symm String.le).
    rewrite merge_sort_Permutation in H1.
    apply elem_of_map_to_list, map_lookup_filter_Some in H1 as [H1 _].
    apply list_elem_of_filter in H2 as [_ H2].
    rewrite merge_sort_Permutation in H2. apply elem_of_map_to_list in H2.
    congruence.
  - apply StronglySorted_merge_sort; apply _.
  - apply StronglySorted_filter, StronglySorted_merge_sort; apply _.
  - rewrite !merge_sort_Permutation.
    rewrite map_filter_alt.
    apply map_to_list_to_map.
    apply (NoDup_fmap_2_strong _).
    + intros [k1 v1] [k2 v2] [_ H1]%list_elem_of_filter
        [_ H2]%list_elem_of_filter Hk. simpl in Hk. subst k2.
      apply elem_of_map_to_list in H1, H2. congruence.
    + apply NoDup_filter, NoDup_map_to_list.
Qed.

Lemma lemmatize_trim_witness :
  let model := fold_left (training_step "cats" "cat" 5) [4; 3; 2; 1; 0]
                 (Model.mk ∅ ∅ ∅ 8 false) in
  Model.lemmatize (Model.trim model) "rats" = Model.lemmatize model "rats".
Proof.
  apply (lemmatize_trim (H := ordered_map) ordered_map_erase_stable).
  apply (bool_decide_unpack
           (map_Forall (fun k (p : Z * Z) => p.1 = 0 -> _ !! k = None) _)).
  vm_compute. exact I.
Defined.

(** ** Counts that never wrap around *)

Lemma within_mono b b' p : b <= b' -> within b p -> within b' p.
Proof. unfold within. lia. Qed.

Lemma at_key_within b m k :
  0 <= b -> map_Forall (fun _ p => within b p) m ->
  within b (Model.at_key m k).
Proof.
  intros Hb Hm. unfold Model.at_key.
  destruct (m !! k) as [p|] eqn:Hk; [by apply (Hm k)|].
  unfold within. simpl. lia.
Qed.

Lemma double_bump_lookup b c m x y k :
  0 <= b -> 0 < c -> b + c < 2 ^ 63 ->
  map_Forall (fun _ p => within b p) m ->
  bump (bump m x c 0) y 0 c !! k =
  if decide (x = k) then
    Some ((Model.at_key m x).1 + c,
          (Model.at_key m x).2 + (if decide (y = k) then c else 0))
  else if decide (y = k) then
    Some ((Model.at_key m y).1, (Model.at_key m y).2 + c)
  else m !! k.
Proof.
  intros Hb Hc Hbc Hm.
  pose proof (at_key_within b m x Hb Hm) as Hx.
  pose proof (at_key_within b m y Hb Hm) as Hy.
  rewrite lookup_bump, at_key_bump, lookup_bump.
  unfold within, Model.accumulate, ladd in *.
  repeat case_decide; subst; simpl; try done; try congruence.
  all: f_equal; f_equal; rewrite ?wrap64_small; rewrite ?wrap64_small; lia.
Qed.

Lemma double_bump_within b c m x y :
  0 <= b -> 0 < c -> b + c < 2 ^ 63 ->
  map_Forall (fun _ p => within b p) m ->
  map_Forall (fun _ p => within (b + c) p) (bump (bump m x c 0) y 0 c).
Proof.
  intros Hb Hc Hbc Hm k p. rewrite (double_bump_lookup b) by done.
  pose proof (at_key_within b m x Hb Hm) as Hx.
  pose proof (at_key_within b m y Hb Hm) as Hy.
  unfold within in *.
  repeat case_decide; try (intros [= <-]; simpl; lia).
  intros Hk. specialize (Hm k p Hk). simpl in Hm. lia.
Qed.

Lemma inner_within b m inf :
  map_Forall (fun _ reps => map_Forall (fun _ p => within b p) reps) m ->
  map_Forall (fun _ p => within b p) (inner m inf).
Proof.
  intros Hm. unfold inner. destruct (m !! inf) as [reps|] eqn:Hr.
  - by apply (Hm inf).
  - apply map_Forall_empty.
Qed.

Lemma bump_replacement_within b c m inf lem tp fp :
  0 <= b -> 0 <= tp <= c -> 0 <= fp <= c -> b + c < 2 ^ 63 ->
  map_Forall (fun _ reps => map_Forall (fun _ p => within b p) reps) m ->
  map_Forall (fun _ reps => map_Forall (fun _ p => within (b + c) p) reps)
             (bump_replacement m inf lem tp fp).
Proof.
  intros Hb Htp Hfp Hbc Hm k reps. unfold bump_replacement.
  rewrite lookup_insert. case_decide.
  - intros [= <-] l p. rewrite lookup_bump.
    pose proof (at_key_within b _ lem Hb (inner_within b m inf Hm)) as Hl.
    case_decide.
    + intros [= <-]. unfold within, Model.accumulate, ladd in *. simpl.
      rewrite !wrap64_small by lia. lia.
    + intros Hp. apply (within_mono b); [lia|].
      by apply (inner_within b m inf Hm l).
  - intros Hk l p Hp. apply (within_mono b); [lia|]. by apply (Hm k reps Hk l).
Qed.

Lemma record_pair_within b infsuf lemsuf correct count st :
  0 <= b -> 0 < count -> b + count < 2 ^ 63 ->
  all_counts (within b) st -> backed st ->
  all_counts (within (b + count)) (Model.record_pair infsuf lemsuf correct count st)
  /\ backed (Model.record_pair infsuf lemsuf correct count st).
Proof.
  intros Hb Hc Hbc (Hl & Hi & Hr) Hback. rewrite record_pair_tables.
  split; [split; [|split]|]; simpl.
  - by apply double_bump_within.
  - by apply double_bump_within.
  - apply bump_replacement_within; auto; destruct correct; lia.
  - intros k Hk. simpl in *. rewrite (double_bump_lookup b) by done.
    pose proof (at_key_within b _ infsuf Hb Hi) as Hx.
    unfold within in Hx.
    case_decide as Hkf.
    + eexists. split; [done|]. simpl. lia.
    + unfold bump_replacement in Hk. rewrite lookup_insert_ne in Hk by done.
      destruct (Hback k Hk) as (p & Hp & Hpos).
      case_decide as Hkl.
      * subst k. eexists. split; [done|]. simpl.
        unfold Model.at_key. by rewrite Hp.
      * by exists p.
Qed.

Lemma fold_training_step_within inflected lemma count l : forall b st,
  0 <= b -> 0 < count -> b + Z.of_nat (length l) * count < 2 ^ 63 ->
  all_counts (within b) st -> backed st ->
  all_counts (within (b + Z.of_nat (length l) * count))
    (fold_left (training_step inflected lemma count) l st) /\
  backed (fold_left (training_step inflected lemma count) l st).
Proof.
  induction l as [|i l IH]; intros b st Hb Hc Hbc Hw Hback.
  - simpl. by rewrite Z.add_0_r.
  - simpl fold_left. simpl length in *.
    destruct (record_pair_within b
                (Model.suffix_at (marked inflected) (boundaries (marked inflected)) i)
                (Model.suffix_at (marked lemma) (boundaries (marked lemma)) i)
                (i <=? common_prefix_size (marked inflected) (marked lemma)
                         (boundaries (marked inflected))
                         (boundaries (marked lemma)) - 1)
                count st) as [Hw' Hback']; try done; try nia.
    destruct (IH (b + count) (training_step inflected lemma count st i))
      as [Hw'' Hback'']; try done; try nia.
    split; [|done].
    replace (b + Z.of_nat (S (length l)) * count)
      with (b + count + Z.of_nat (length l) * count) by lia.
    done.
Qed.

Lemma all_counts_mono (P Q : Z * Z -> Prop) model :
  (forall p, P p -> Q p) -> all_counts P model -> all_counts Q model.
Proof.
  intros HPQ (Hl & Hi & Hr). repeat split.
  - intros k p Hk. by apply HPQ, (Hl k).
  - intros k p Hk. by apply HPQ, (Hi k).
  - intros k reps Hk l p Hp. by apply HPQ, (Hr k reps Hk l).
Qed.

Lemma length_descending hi lo :
  Z.of_nat (length (descending hi lo)) = Z.max (hi - lo + 1) 0.
Proof. unfold descending. rewrite length_rev, length_seqZ. lia. Qed.

Lemma update_within b model inflected lemma count model' :
  0 <= b -> 0 < count -> b + 1024 * count < 2 ^ 63 ->
  Model._max_suffix_size model <= 1024 ->
  all_counts (within b) model -> backed model ->
  Model.update model inflected lemma count = Ok model' ->
  all_counts (within (b + 1024 * count)) model' /\ backed model'.
Proof.
  intros Hb Hc Hbc Hmax Hw Hback. rewrite update_cases.
  destruct (Model.is_trimmed model); [done|].
  destruct (_ || _); [done|]. cbv zeta. intros [= <-].
  set (l := descending _ _).
  assert (Hlen : Z.of_nat (length l) <= 1024).
  { subst l. rewrite length_descending. lia. }
  destruct (fold_training_step_within inflected lemma count l b model)
    as [Hw' Hback']; try done; try nia.
  split; [|done].
  eapply all_counts_mono; [|exact Hw'].
  intros p. apply within_mono. nia.
Qed.

Lemma fold_train_line_Throw corpus e :
  fold_left train_line corpus (Throw e) = Throw e.
Proof. by induction corpus. Qed.

Lemma fold_train_line_within corpus : forall b model model',
  Forall (fun line : string * string * Z => 0 < line.2) corpus ->
  0 <= b -> b + 1024 * total_count corpus < 2 ^ 63 ->
  Model._max_suffix_size model <= 1024 ->
  all_counts (within b) model -> backed model ->
  fold_left train_line corpus (Ok model) = Ok model' ->
  all_counts (within (b + 1024 * total_count corpus)) model' /\ backed model'.
Proof.
  induction corpus as [|line corpus IH];
    intros b model model' Hpos Hb Hbc Hmax Hw Hback.
  - simpl. intros [= <-]. by rewrite Z.add_0_r.
  - apply Forall_cons in Hpos as [Hline Hpos]. simpl in Hbc |- *.
    assert (0 <= total_count corpus).
    { clear -Hpos. induction Hpos as [|x l Hx _ IHl]; simpl; lia. }
    destruct (Model.update model line.1.1 line.1.2 line.2) as [m1|e] eqn:Hu;
      [|by rewrite fold_train_line_Throw].
    destruct (update_within b _ _ _ _ _ Hb Hline ltac:(lia) Hmax Hw Hback Hu)
      as [Hw1 Hback1].
    destruct (update_is_trimmed _ _ _ _ _ Hu) as (_ & _ & Hm1).
    intros Hfold.
    destruct (IH (b + 1024 * line.2) m1 model' Hpos ltac:(lia) ltac:(lia)
                ltac:(lia) Hw1 Hback1 Hfold) as [Hw2 Hback2].
    split; [|done].
    replace (b + 1024 * (line.2 + total_count corpus))
      with (b + 1024 * line.2 + 1024 * total_count corpus) by lia.
    done.
Qed.

(** X10: training on lines whose counts are positive and add up to less
    than 2^63 / 1024 never wraps a count around: every [tp] and [fp] of
    the store lies between 0 and 1024 times the sum of the counts, and
    every inflected suffix that has replacements is counted with a
    nonzero [tp]. *)
Theorem trained_on_within max_suffix_size corpus model :
  Forall (fun line : string * string * Z => 0 < line.2) corpus ->
  1024 * total_count corpus < 2 ^ 63 ->
  trained_on max_suffix_size corpus = Ok model ->
  all_counts (within (1024 * total_count corpus)) model /\
  supported model.
Proof.
  intros Hpos Hbc. unfold trained_on.
  change (fold_left train_line corpus (Model.new max_suffix_size) = Ok model
          -> all_counts (within (1024 * total_count corpus)) model /\
             supported model).
  unfold Model.new. destruct (_ || _) eqn:Hm.
  { by rewrite fold_train_line_Throw. }
  apply orb_false_iff in Hm as [Hm1 Hm2].
  apply Z.ltb_ge in Hm1, Hm2.
  intros Hfold.
  destruct (fold_train_line_within corpus 0
              (Model.mk ∅ ∅ ∅ max_suffix_size false) model Hpos)
    as [Hw Hback]; [lia|lia|simpl; lia| | |exact Hfold|].
  - split; [|split]; simpl; apply map_Forall_empty.
  - intros k [? Hk]. simpl in Hk. by rewrite lookup_empty in Hk.
  - split; [done|]. intros k p Hk Hz.
    destruct (Model._replacements model !! k) as [reps|] eqn:Hr; [|done].
    destruct (Hback k ltac:(eauto)) as (p' & Hp' & Hpos').
    rewrite Hk in Hp'. injection Hp' as <-. lia.
Qed.

Lemma trained_on_within_witness :
  let model := fold_left (training_step "cats" "cat" 5) [4; 3; 2; 1; 0]
                 (Model.mk ∅ ∅ ∅ 8 false) in
  all_counts (within 5120) model /\ supported model.
Proof.
  apply (trained_on_within 8 [("cats", "cat", 5)]).
  - repeat constructor.
  - reflexivity.
  - reflexivity.
Defined.

(** ** What [trim] leaves in the tables *)

(** What [trim] leaves of a store not yet trimmed are entries of that
    store whose [tp] is not 0. *)
Lemma all_counts_trim (P : Z * Z -> Prop) model :
  Model.is_trimmed model = false -> all_counts P model ->
  all_counts (fun p => P p /\ p.1 <> 0) (Model.trim model).
Proof.
  intros Ht (Hl & Hi & Hr). unfold Model.trim. rewrite Ht.
  split; [|split]; simpl.
  - intros k p [Hk Hne]%map_lookup_filter_Some. split; [by apply (Hl k)|done].
  - intros k p [Hk Hne]%map_lookup_filter_Some. split; [by apply (Hi k)|done].
  - intros k reps'. rewrite lookup_omap.
    destruct (Model._replacements model !! k) as [reps|] eqn:Hk; simpl; [|done].
    intros Hti l p Hlp. apply (lookup_trim_inner _ _ _ _ Hti) in Hlp.
    destruct Hlp as [Hlp Hne]. split; [by apply (Hr k reps Hk l)|done].
Qed.

Lemma trained_on_not_trimmed max_suffix_size corpus model :
  trained_on max_suffix_size corpus = Ok model ->
  Model.is_trimmed model = false.
Proof.
  apply (trained_on_inv (fun m => Model.is_trimmed m = false)).
  - intros f l b c st Hst. by rewrite record_pair_tables.
  - unfold Model.new. intros m. destruct (_ || _); [done|]. by intros [= <-].
Qed.

Lemma trained_on_nonneg max_suffix_size corpus model :
  Forall (fun line : string * string * Z => 0 < line.2) corpus ->
  1024 * total_count corpus < 2 ^ 63 ->
  trained_on max_suffix_size corpus = Ok model ->
  all_counts (fun p => 0 <= p.1) model.
Proof.
  intros Hpos Hbc. unfold trained_on.
  change (fold_left train_line corpus (Model.new max_suffix_size) = Ok model
          -> all_counts (fun p => 0 <= p.1) model).
  unfold Model.new. destruct (_ || _) eqn:Hm.
  { by rewrite fold_train_line_Throw. }
  apply orb_false_iff in Hm as [Hm1 Hm2].
  apply Z.ltb_ge in Hm1, Hm2.
  intros Hfold.
  destruct (fold_train_line_within corpus 0
              (Model.mk ∅ ∅ ∅ max_suffix_size false) model Hpos)
    as [Hw _]; [lia|lia|simpl; lia| | |exact Hfold|].
  - split; [|split]; simpl; apply map_Forall_empty.
  - intros k [? Hk]. simpl in Hk. by rewrite lookup_empty in Hk.
  - eapply all_counts_mono; [|exact Hw]. intros p [Hp _]. lia.
Qed.

(** C6, as amended: on a store not yet trimmed, [trim] keeps in each of
    the three tables exactly the entries whose [tp] is not 0, unchanged,
    leaves no outer replacement key with an empty inner map, and sets
    [isTrimmed]; on a store already marked trimmed it changes nothing, so
    it is idempotent.  Hence after [trim] of a store that was not marked
    trimmed every remaining entry has [tp <> 0], and [tp > 0] when no
    [tp] was negative before, as in every store trained on positive
    counts that do not overflow. *)
Theorem trim_spec model :
  (Model.is_trimmed model = false ->
   let model' := Model.trim model in
   (forall k p, Model._lemcounts model' !! k = Some p <->
                Model._lemcounts model !! k = Some p /\ p.1 <> 0) /\
   (forall k p, Model._infcounts model' !! k = Some p <->
                Model._infcounts model !! k = Some p /\ p.1 <> 0) /\
   (forall k l p, inner (Model._replacements model') k !! l = Some p <->
                  inner (Model._replacements model) k !! l = Some p /\ p.1 <> 0) /\
   (forall k, Model._replacements model' !! k <> Some ∅) /\
   Model.is_trimmed model' = true /\
   Model._max_suffix_size model' = Model._max_suffix_size model) /\
  (Model.is_trimmed model = true -> Model.trim model = model) /\
  Model.trim (Model.trim model) = Model.trim model /\
  (Model.is_trimmed model = false ->
   all_counts (fun p => p.1 <> 0) (Model.trim model)) /\
  (Model.is_trimmed model = false -> all_counts (fun p => 0 <= p.1) model ->
   all_counts (fun p => 0 < p.1) (Model.trim model)) /\
  (forall max_suffix_size corpus,
     Forall (fun line : string * string * Z => 0 < line.2) corpus ->
     1024 * total_count corpus < 2 ^ 63 ->
     trained_on max_suffix_size corpus = Ok model ->
     all_counts (fun p => 0 < p.1) (Model.trim model)).
Proof.
  assert (Hpos : Model.is_trimmed model = false ->
                 all_counts (fun p => 0 <= p.1) model ->
                 all_counts (fun p => 0 < p.1) (Model.trim model)).
  { intros Ht Hnn.
    eapply all_counts_mono; [|exact (all_counts_trim _ model Ht Hnn)].
    intros p [? ?]. simpl in *. lia. }
  split; [|split; [|split; [|split; [|split]]]].
  - intros Ht model'. subst model'. unfold Model.trim. rewrite Ht. simpl.
    split; [|split; [|split; [|split]]].
    + intros k p. apply map_lookup_filter_Some.
    + intros k p. apply map_lookup_filter_Some.
    + intros k l p. pose proof (trim_replacements model k l p Ht) as Hr.
      unfold Model.trim in Hr. by rewrite Ht in Hr.
    + intros k. rewrite lookup_omap.
      destruct (Model._replacements model !! k) as [reps|]; simpl; [|done].
      destruct (Model.trim_inner reps) as [reps'|] eqn:Hr; [|done].
      intros [= ->]. by apply trim_inner_nonempty in Hr.
    + done.
  - apply trim_trimmed.
  - unfold Model.trim at 1.
    destruct (Model.is_trimmed (Model.trim model)) eqn:Ht; [done|].
    unfold Model.trim in Ht. destruct (Model.is_trimmed model) eqn:Ht'.
    + by rewrite Ht' in Ht.
    + done.
  - intros Ht.
    eapply all_counts_mono;
      [|apply (all_counts_trim (fun _ => True) model Ht)].
    + by intros p [_ ?].
    + split; [|split]; by intros ? ? ?.
  - exact Hpos.
  - intros max_suffix_size corpus Hc Hbc Htr. apply Hpos.
    + by eapply trained_on_not_trimmed.
    + by eapply trained_on_nonneg.
Qed.

Lemma trim_spec_witness :
  let model := fold_left (training_step "cats" "cat" 5) [4; 3; 2; 1; 0]
                 (Model.mk ∅ ∅ ∅ 8 false) in
  all_counts (fun p => 0 < p.1) (Model.trim model).
Proof.
  intros model.
  apply (proj2 (proj2 (proj2 (proj2 (proj2 (trim_spec model)))))
           8 [("cats", "cat", 5)]).
  - repeat constructor.
  - reflexivity.
  - reflexivity.
Defined.

(** C6 refuted as stated: [load] takes the trimmed flag and the counts
    from the file as they are.  A file with flag 1 and an entry of
    [tp = 0] gives a store on which [trim] returns at once and the entry
    stays; a file with flag 0 and an entry of [tp = -2] gives a store
    whose entry [trim] keeps, because it only compares [tp] with 0.  In
    both stores an entry is left after [trim] whose [tp] is not
    positive. *)
Lemma trim_keeps_nonpositive :
  let flagged := "8" +:+ TAB +:+ "1" +:+ NL +:+ "1" +:+ NL
                 +:+ "s" +:+ TAB +:+ "0" +:+ TAB +:+ "5" +:+ NL
                 +:+ "0" +:+ NL +:+ "0" +:+ NL in
  let negative := "8" +:+ TAB +:+ "0" +:+ NL +:+ "1" +:+ NL
                  +:+ "s" +:+ TAB +:+ "-2" +:+ TAB +:+ "5" +:+ NL
                  +:+ "0" +:+ NL +:+ "0" +:+ NL in
  exists model1 model2,
    Model.load flagged = Ok model1 /\
    Model.is_trimmed model1 = true /\
    Model._lemcounts (Model.trim model1) !! "s" = Some (0, 5) /\
    ~ all_counts (fun p => 0 < p.1) (Model.trim model1) /\
    Model.load negative = Ok model2 /\
    Model.is_trimmed model2 = false /\
    Model._lemcounts (Model.trim model2) !! "s" = Some (-2, 5) /\
    ~ all_counts (fun p => 0 < p.1) (Model.trim model2).
Proof.
  intros flagged negative.
  exists (Model.mk ∅ {[ "s" := (0, 5) ]} ∅ 8 true),
         (Model.mk ∅ {[ "s" := (-2, 5) ]} ∅ 8 false).
  assert (H1 : Model._lemcounts (Model.trim (Model.mk ∅ {[ "s" := (0, 5) ]} ∅ 8 true))
               !! "s" = Some (0, 5)) by reflexivity.
  assert (H2 : Model._lemcounts (Model.trim (Model.mk ∅ {[ "s" := (-2, 5) ]} ∅ 8 false))
               !! "s" = Some (-2, 5)) by reflexivity.
  split; [reflexivity|]. split; [reflexivity|]. split; [exact H1|].
  split; [intros (Hl & _); specialize (Hl "s" _ H1); simpl in Hl; lia|].
  split; [reflexivity|]. split; [reflexivity|]. split; [exact H2|].
  intros (Hl & _). specialize (Hl "s" _ H2). simpl in Hl. lia.
Qed.

(** ** The outcome of [lemmatize] *)

Lemma isspace_not_stray a : isspace a = true -> negb (is_stray a) = true.
Proof.
  unfold isspace. intros H. apply negb_true_iff, in_range_false.
  pose proof (byte_of_range a). lia.
Qed.

Lemma stray_free_rtrim w : stray_free (rtrim w) = stray_free w.
Proof.
  destruct (rtrim_cut w) as (r & Hw & Hr & _).
  rewrite Hw at 2. unfold stray_free. rewrite all_chars_app.
  replace (all_chars (fun a => negb (is_stray a)) r) with true;
    [by rewrite andb_true_r|].
  symmetry. clear Hw. induction r as [|a r IH]; [done|].
  simpl in *. apply andb_true_iff in Hr as [Ha Hr].
  by rewrite (isspace_not_stray a Ha), IH.
Qed.

Lemma rtrim_fixed s : ends_with isspace s = false -> rtrim s = s.
Proof.
  induction s as [|a s IH]; [done|]. intros He.
  destruct s as [|b s].
  - simpl in *. by rewrite He.
  - change (rtrim (String a (String b s)))
      with (match rtrim (String b s) with
            | "" => if isspace a then "" else String a ""
            | kept => String a kept
            end).
    by rewrite IH.
Qed.

Lemma rtrim_rtrim s : rtrim (rtrim s) = rtrim s.
Proof. destruct (rtrim_cut s) as (r & _ & _ & He). by apply rtrim_fixed. Qed.

Section Inflected.
Context `{Traversal}.

Lemma lemmatize_loop_fallback model i1 i2 inf cps : forall bl,
  Model.lemmatize_loop model i1 inf cps bl =
  Model.lemmatize_loop model i2 inf cps bl \/
  (Model.lemmatize_loop model i1 inf cps bl = Ok i1 /\
   Model.lemmatize_loop model i2 inf cps bl = Ok i2).
Proof.
  induction cps as [|cp cps IH]; intros bl; [by right|]. simpl.
  destruct (Model._infcounts model !! substr_from inf cp); [|apply IH].
  destruct (Model._replacements model !! substr_from inf cp); [|apply IH].
  destruct (fold_left _ _ _).2; [by left|apply IH].
Qed.

Lemma lemmatize_cases model inflected :
  Model.lemmatize model inflected =
  if stray_free inflected
  then Model.lemmatize_loop model inflected (marked (rtrim inflected))
         (boundaries (marked (rtrim inflected))) ""
  else Throw (runtime_error "Utf-8 decode error!").
Proof.
  pose proof (segmentable_marked (rtrim inflected)) as Hseg.
  rewrite stray_free_rtrim, <- trim_marked in Hseg.
  destruct (stray_free inflected).
  - by rewrite lemmatize_unfold, trim_marked.
  - unfold Model.lemmatize. fold (marked inflected).
    rewrite <- store_codepoints_ok in Hseg.
    destruct (store_codepoints (trim (marked inflected))) as [ok cps].
    simpl in Hseg. by subst ok.
Qed.

(** X11: [lemmatize] throws "Utf-8 decode error!" exactly when the input
    has a byte 0xFE or 0xFF, whatever the store holds, and it throws no
    other [std::runtime_error]. *)
Theorem lemmatize_outcome model inflected :
  (Model.lemmatize model inflected =
     Throw (runtime_error "Utf-8 decode error!") <->
   stray_free inflected = false) /\
  (forall what,
     Model.lemmatize model inflected = Throw (runtime_error what) ->
     what = "Utf-8 decode error!").
Proof.
  rewrite lemmatize_cases. destruct (stray_free inflected).
  - destruct (lemmatize_loop_result model inflected (marked (rtrim inflected))
                (boundaries (marked (rtrim inflected))) "")
      as [->|(cp & lemsuf & c & _ & _ & ->)].
    + split; [split; done | done].
    + unfold substr_checked. destruct (_ <? _); split; try done; split; done.
  - split; [done|]. by intros what [= <-].
Qed.

(** X12: white space at the end of the input plays no part in the
    lookup: the input and the input without it are lemmatized alike,
    unless nothing is found, when each is returned as it was given. *)
Theorem lemmatize_trailing_space model inflected :
  Model.lemmatize model inflected = Model.lemmatize model (rtrim inflected) \/
  (Model.lemmatize model inflected = Ok inflected /\
   Model.lemmatize model (rtrim inflected) = Ok (rtrim inflected)).
Proof.
  rewrite !lemmatize_cases, stray_free_rtrim, rtrim_rtrim.
  destruct (stray_free inflected); [|by left].
  apply lemmatize_loop_fallback.
Qed.

End Inflected.

(** ** Reading back a printed [long] *)

Lemma scan_digits_uint_acc d rest : forall acc,
  starts_with is_digit rest = false ->
  scan_digits (NilEmpty.string_of_uint d +:+ rest) (Z.pos acc) =
  (Z.pos (Pos.of_uint_acc d acc), rest).
Proof.
  induction d; intros acc Hrest; simpl NilEmpty.string_of_uint;
    rewrite ?string_app_cons; simpl scan_digits.
  1: { rewrite string_app_empty_l. destruct rest as [|a r]; [done|].
       simpl in *. by rewrite Hrest. }
  all: cbn [Pos.of_uint_acc]; rewrite <- IHd by done; f_equal.
  all: unfold byte_of; simpl N_of_ascii; lia.
Qed.

Lemma scan_digits_uint d rest :
  starts_with is_digit rest = false ->
  scan_digits (NilEmpty.string_of_uint d +:+ rest) 0 =
  (Z.of_N (Pos.of_uint d), rest).
Proof.
  intros Hrest.
  induction d; simpl NilEmpty.string_of_uint;
    rewrite ?string_app_cons; simpl scan_digits.
  1: { rewrite string_app_empty_l. destruct rest as [|a r]; [done|].
       simpl in *. by rewrite Hrest. }
  1: { exact IHd. }
  all: cbn [Pos.of_uint Z.of_N]; by rewrite <- scan_digits_uint_acc.
Qed.

Lemma is_digit_not_space a : is_digit a = true -> isspace a = false.
Proof.
  unfold is_digit, isspace. intros H%in_range_true.
  apply orb_false_iff. split; [apply Z.eqb_neq; lia|].
  apply andb_false_iff. right. apply Z.leb_gt. lia.
Qed.

Lemma scan_integer_digit a r :
  is_digit a = true ->
  scan_integer (String a r) =
  Some ((scan_digits (String a r) 0).1, (scan_digits (String a r) 0).2).
Proof.
  intros Ha. unfold scan_integer. cbn [ltrim].
  rewrite (is_digit_not_space a Ha).
  destruct a as [[] [] [] [] [] [] [] []]; try discriminate Ha.
  all: cbv beta iota zeta; cbn [starts_with]; rewrite Ha.
  all: by destruct (scan_digits _ 0).
Qed.

Lemma string_of_uint_head d :
  d <> Decimal.Nil ->
  exists a r, NilEmpty.string_of_uint d = String a r /\ is_digit a = true.
Proof. destruct d; [done|..]; intros _; by do 2 eexists. Qed.

Lemma scan_integer_minus s :
  scan_integer (String "-" s) =
  if starts_with is_digit s
  then Some (- (scan_digits s 0).1, (scan_digits s 0).2)
  else None.
Proof.
  unfold scan_integer. change (ltrim (String "-" s)) with (String "-"%char s).
  cbv beta iota zeta. destruct (starts_with is_digit s); [|done].
  by destruct (scan_digits s 0).
Qed.

Lemma scan_integer_uint p rest :
  starts_with is_digit rest = false ->
  scan_integer (NilEmpty.string_of_uint (Pos.to_uint p) +:+ rest) =
  Some (Z.pos p, rest).
Proof.
  intros Hrest.
  pose proof (scan_digits_uint (Pos.to_uint p) rest Hrest) as Hs.
  rewrite DecimalPos.Unsigned.of_to in Hs.
  destruct (string_of_uint_head (Pos.to_uint p)) as (a & r & Hd & Ha).
  { apply Unsigned.to_uint_nonnil. }
  rewrite Hd in *. rewrite string_app_cons in *.
  by rewrite scan_integer_digit, Hs.
Qed.

Lemma scan_integer_print z rest :
  starts_with is_digit rest = false ->
  scan_integer (print_long z +:+ rest) = Some (z, rest).
Proof.
  intros Hrest. unfold print_long.
  destruct z as [|p|p]; simpl Z.to_int; unfold NilZero.string_of_int.
  - pose proof (scan_digits_uint (Decimal.D0 Decimal.Nil) rest Hrest) as Hs.
    change (NilEmpty.string_of_uint (Decimal.D0 Decimal.Nil) +:+ rest)
      with (String "0" rest) in Hs.
    change (NilZero.string_of_uint (Decimal.D0 Decimal.Nil) +:+ rest)
      with (String "0" rest).
    by rewrite scan_integer_digit, Hs.
  - replace (NilZero.string_of_uint (Pos.to_uint p))
      with (NilEmpty.string_of_uint (Pos.to_uint p)).
    + by apply scan_integer_uint.
    + pose proof (Unsigned.to_uint_nonnil p). by destruct (Pos.to_uint p).
  - replace (NilZero.string_of_uint (Pos.to_uint p))
      with (NilEmpty.string_of_uint (Pos.to_uint p)).
    + pose proof (scan_digits_uint (Pos.to_uint p) rest Hrest) as Hs.
      rewrite DecimalPos.Unsigned.of_to in Hs.
      rewrite string_app_cons, scan_integer_minus, Hs.
      destruct (string_of_uint_head (Pos.to_uint p)) as (a & r & Hd & Ha).
      { apply Unsigned.to_uint_nonnil. }
      rewrite Hd, string_app_cons. simpl starts_with. by rewrite Ha.
    + pose proof (Unsigned.to_uint_nonnil p). by destruct (Pos.to_uint p).
Qed.

Lemma print_long_head z :
  exists a r, print_long z = String a r /\ isspace a = false.
Proof.
  unfold print_long. destruct z as [|p|p]; simpl Z.to_int.
  - by do 2 eexists.
  - destruct (string_of_uint_head (Pos.to_uint p)) as (a & r & Hd & Ha).
    { apply Unsigned.to_uint_nonnil. }
    exists a, r. split; [|by apply is_digit_not_space].
    unfold NilZero.string_of_int, NilZero.string_of_uint.
    rewrite <- Hd. by destruct (Pos.to_uint p).
  - by do 2 eexists.
Qed.

(** ** Scan sets *)

Lemma scan_set_stop negated chars s rest : forall w,
  all_chars (in_set negated chars) s = true ->
  (String.length s <= w)%nat ->
  starts_with (in_set negated chars) rest = false ->
  scan_set w negated chars (s +:+ rest) = (s, rest).
Proof.
  induction s as [|a s IH]; intros w Hs Hw Hrest.
  - rewrite string_app_empty_l. destruct w as [|w], rest as [|b rest]; try done.
    simpl in *. by rewrite Hrest.
  - simpl in Hs, Hw. apply andb_true_iff in Hs as [Ha Hs].
    destruct w as [|w]; [lia|]. rewrite string_app_cons. simpl.
    by rewrite Ha, IH by (done || lia).
Qed.

Lemma in_set_not_tab a :
  in_set true ["009"%char] a = negb (byte_of a =? 0x09).
Proof. destruct a as [[] [] [] [] [] [] [] []]; reflexivity. Qed.

Lemma in_set_not_nl a :
  in_set true ["010"%char] a = negb (byte_of a =? 0x0A).
Proof. destruct a as [[] [] [] [] [] [] [] []]; reflexivity. Qed.

Lemma in_set_nl a :
  in_set false ["010"%char] a = (byte_of a =? 0x0A).
Proof. destruct a as [[] [] [] [] [] [] [] []]; reflexivity. Qed.

(** ** The directives of [fscanf], one at a time *)

Lemma fscanf_whitespace format fin :
  fscanf (whitespace :: format) fin = fscanf format (ltrim fin).
Proof. done. Qed.

Lemma fscanf_ld format fin z rest :
  scan_integer fin = Some (z, rest) ->
  fscanf (conv_ld :: format) fin =
  (scanned_long (clamp_long z) :: (fscanf format rest).1,
   (fscanf format rest).2).
Proof. intros Hs. simpl. rewrite Hs. by destruct (fscanf format rest). Qed.

Lemma fscanf_d format fin z rest :
  scan_integer fin = Some (z, rest) ->
  fscanf (conv_d :: format) fin =
  (scanned_int (wrap32 (clamp_long z)) :: (fscanf format rest).1,
   (fscanf format rest).2).
Proof. intros Hs. simpl. rewrite Hs. by destruct (fscanf format rest). Qed.

Lemma fscanf_set assign width negated chars format fin a str rest :
  scan_set (match width with
            | Some w => Z.to_nat w
            | None => String.length fin
            end) negated chars fin = (String a str, rest) ->
  fscanf (conv_set assign width negated chars :: format) fin =
  ((if assign then scanned_str (String a str) :: (fscanf format rest).1
    else (fscanf format rest).1),
   (fscanf format rest).2).
Proof. intros Hs. simpl. rewrite Hs. by destruct (fscanf format rest). Qed.

Lemma fscanf_set_fail assign width negated chars format fin rest :
  scan_set (match width with
            | Some w => Z.to_nat w
            | None => String.length fin
            end) negated chars fin = ("", rest) ->
  fscanf (conv_set assign width negated chars :: format) fin = ([], fin).
Proof. intros Hs. simpl. by rewrite Hs. Qed.

Lemma clamp_long_id z : is_long z -> clamp_long z = z.
Proof. unfold is_long, clamp_long. lia. Qed.

Lemma scan_set_fail w negated chars s :
  starts_with (in_set negated chars) s = false ->
  scan_set w negated chars s = ("", s).
Proof.
  intros Hs. destruct w as [|w], s as [|a s]; try done.
  simpl in *. by rewrite Hs.
Qed.

Lemma fscanf_set_ok assign width negated chars format fin str rest :
  scan_set (match width with
            | Some w => Z.to_nat w
            | None => String.length fin
            end) negated chars fin = (str, rest) ->
  str <> "" ->
  fscanf (conv_set assign width negated chars :: format) fin =
  ((if assign then scanned_str str :: (fscanf format rest).1
    else (fscanf format rest).1),
   (fscanf format rest).2).
Proof. intros Hs Hne. destruct str as [|a str]; [done|]. by apply fscanf_set. Qed.

Lemma tab_cons s : TAB +:+ s = String "009"%char s.
Proof. done. Qed.

Lemma nl_cons s : NL +:+ s = String "010"%char s.
Proof. done. Qed.

Lemma ltrim_fixed s : starts_with isspace s = false -> ltrim s = s.
Proof. destruct s as [|a s]; [done|]. simpl. by intros ->. Qed.

Lemma starts_with_app p s t :
  s <> "" -> starts_with p (s +:+ t) = starts_with p s.
Proof. by destruct s. Qed.

Lemma print_long_not_space z r :
  starts_with isspace (print_long z +:+ r) = false.
Proof.
  destruct (print_long_head z) as (a & s & -> & Ha). by rewrite string_app_cons.
Qed.

Lemma ltrim_space_print a z r :
  isspace a = true ->
  ltrim (String a (print_long z +:+ r)) = print_long z +:+ r.
Proof.
  intros Ha. simpl. rewrite Ha. apply ltrim_fixed, print_long_not_space.
Qed.

(** ** Clean keys *)

Lemma clean_key_facts k :
  clean_key k = true ->
  k <> "" /\
  all_chars (in_set true ["009"%char]) k = true /\
  c_str k = k /\
  starts_with isspace k = false /\ ends_with isspace k = false /\
  (String.length k <= 1023)%nat.
Proof.
  unfold clean_key. rewrite !andb_true_iff, !negb_true_iff.
  intros [[[[Hne Hall] Hs] He] Hlen].
  apply bool_decide_eq_false in Hne. apply Z.leb_le in Hlen.
  unfold str_size in Hlen.
  repeat split; try done; try lia.
  - clear -Hall. induction k as [|a k IH]; [done|]. cbn [all_chars] in *.
    apply andb_true_iff in Hall as [[Ha _]%andb_true_iff Hk].
    by rewrite in_set_not_tab, Ha, IH.
  - clear -Hall. induction k as [|a k IH]; [done|]. simpl in *.
    apply andb_true_iff in Hall as [[_ Ha]%andb_true_iff Hk].
    apply negb_true_iff in Ha. by rewrite Ha, IH.
Qed.

Lemma trim_clean pre k :
  clean_key k = true -> pre = "" \/ pre = NL ->
  trim (c_str (pre +:+ k)) = k /\
  pre +:+ k <> "" /\
  all_chars (in_set true ["009"%char]) (pre +:+ k) = true /\
  (String.length (pre +:+ k) <= 1024)%nat.
Proof.
  intros (Hne & Hall & Hc & Hs & He & Hlen)%clean_key_facts [-> | ->].
  - rewrite string_app_empty_l, Hc. unfold trim.
    rewrite rtrim_fixed, ltrim_fixed by done.
    repeat split; try done. lia.
  - rewrite nl_cons. simpl c_str. rewrite Hc. unfold trim.
    rewrite (rtrim_fixed (String "010" k)).
    + cbn [ltrim]. change (isspace "010") with true. cbv iota.
      rewrite ltrim_fixed by done.
      split; [done|]. split; [done|]. split; [|simpl; lia].
      cbn [all_chars]. by rewrite Hall.
    + destruct k; [done|]. exact He.
Qed.

(** ** The lines of a model file *)

Lemma scan_integer_pre pre s :
  pre = "" \/ pre = NL -> scan_integer (pre +:+ s) = scan_integer s.
Proof. by intros [-> | ->]. Qed.

Lemma fscanf_counts_line pre k tp fp rest :
  clean_key k = true -> pre = "" \/ pre = NL -> is_long tp -> is_long fp ->
  fscanf format_counts
    (pre +:+ k +:+ TAB +:+ print_long tp +:+ TAB +:+ print_long fp
     +:+ NL +:+ rest) =
  ([scanned_str (pre +:+ k); scanned_long tp; scanned_long fp], NL +:+ rest).
Proof.
  intros Hk Hpre Htp Hfp. unfold format_counts.
  destruct (trim_clean pre k Hk Hpre) as (_ & Hne & Hall & Hlen).
  rewrite <- (string_app_assoc pre k).
  erewrite fscanf_set_ok; [|apply scan_set_stop; [done|simpl; lia|done]|done].
  rewrite tab_cons, fscanf_whitespace, ltrim_space_print by done.
  erewrite fscanf_ld; [|by apply scan_integer_print].
  rewrite tab_cons, fscanf_whitespace, ltrim_space_print by done.
  erewrite fscanf_ld; [|by apply scan_integer_print].
  erewrite fscanf_set_fail; [|by apply scan_set_fail].
  by rewrite !clamp_long_id.
Qed.

Lemma fscanf_inflected_line pre k n rest :
  clean_key k = true -> pre = "" \/ pre = NL -> is_long n ->
  fscanf format_inflected
    (pre +:+ k +:+ TAB +:+ print_long n +:+ NL +:+ rest) =
  ([scanned_str (pre +:+ k); scanned_long n], NL +:+ rest).
Proof.
  intros Hk Hpre Hn. unfold format_inflected.
  destruct (trim_clean pre k Hk Hpre) as (_ & Hne & Hall & Hlen).
  rewrite <- (string_app_assoc pre k).
  erewrite fscanf_set_ok; [|apply scan_set_stop; [done|simpl; lia|done]|done].
  rewrite tab_cons, fscanf_whitespace, ltrim_space_print by done.
  erewrite fscanf_ld; [|by apply scan_integer_print].
  erewrite fscanf_set_fail; [|by apply scan_set_fail].
  by rewrite !clamp_long_id.
Qed.

Lemma fscanf_number_line pre n rest :
  pre = "" \/ pre = NL -> is_long n ->
  starts_with (in_set false ["010"%char]) rest = false ->
  fscanf format_number (pre +:+ print_long n +:+ NL +:+ rest) =
  ([scanned_long n], rest).
Proof.
  intros Hpre Hn Hrest. unfold format_number.
  erewrite fscanf_ld;
    [|rewrite scan_integer_pre by done; by apply scan_integer_print].
  erewrite fscanf_set_ok;
    [|apply (scan_set_stop false ["010"%char] NL rest); [done|simpl; lia|done]
     |done].
  by rewrite !clamp_long_id.
Qed.

Lemma fscanf_header_line m (t : bool) rest :
  is_long m ->
  starts_with (in_set false ["010"%char]) rest = false ->
  fscanf format_header
    (print_long m +:+ TAB +:+ print_long (if t then 1 else 0) +:+ NL +:+ rest) =
  ([scanned_long m; scanned_int (if t then 1 else 0)], rest).
Proof.
  intros Hm Hrest. unfold format_header.
  erewrite fscanf_ld; [|by apply scan_integer_print].
  rewrite tab_cons, fscanf_whitespace, ltrim_space_print by done.
  erewrite fscanf_d; [|by apply scan_integer_print].
  erewrite fscanf_set_ok;
    [|apply (scan_set_stop false ["010"%char] NL rest); [done|simpl; lia|done]
     |done].
  rewrite !clamp_long_id by done. by destruct t.
Qed.

(** ** Reading back a section *)

Lemma left_over_cases {A : Type} pre (l : list A) :
  pre = "" \/ pre = NL -> left_over pre l = "" \/ left_over pre l = NL.
Proof. destruct l; simpl; auto. Qed.

Lemma left_over_nl {A : Type} (l : list A) : left_over NL l = NL.
Proof. by destruct l. Qed.

Lemma load_counts_lines record l : forall pre rest model,
  Forall clean_entry l -> pre = "" \/ pre = NL ->
  Model.load_counts (length l) record
    (pre +:+ join (Model.counts_line <$> l) +:+ rest) model =
  Ok (fold_left (fun m kv => record m kv.1 kv.2.1 kv.2.2) l model,
      left_over pre l +:+ rest).
Proof.
  induction l as [|[k [tp fp]] l IH]; intros pre rest model Hl Hpre.
  - by rewrite string_app_empty_l.
  - apply Forall_cons in Hl as [(Hk & Htp & Hfp) Hl]. simpl in Hk, Htp, Hfp.
    destruct (clean_key_facts k Hk) as (_ & _ & Hc & _).
    destruct (trim_clean pre k Hk Hpre) as (Htrim & _).
    simpl length. cbn [Model.load_counts]. rewrite fmap_cons. cbn [join].
    unfold Model.counts_line at 1. simpl fst. simpl snd. rewrite Hc.
    rewrite !string_app_assoc.
    rewrite fscanf_counts_line by done.
    rewrite Htrim. rewrite IH by auto. simpl. by destruct l.
Qed.

Section Persistence.
Context `{Traversal}.

Lemma length_entries {V : Type} (m : gmap string V) :
  length (entries m) = size m.
Proof. rewrite entries_perm. apply length_map_to_list. Qed.

Lemma Forall_entries {V : Type} (P : string * V -> Prop) (m : gmap string V) :
  map_Forall (fun k v => P (k, v)) m -> Forall P (entries m).
Proof.
  intros Hm. apply Forall_forall. intros [k v] Hkv%elem_of_entries.
  by apply (Hm k v).
Qed.

Lemma load_counts_table record m pre rest model :
  clean_table m -> pre = "" \/ pre = NL ->
  Model.load_counts (Z.to_nat (Z.of_nat (size m))) record
    (pre +:+ Model.counts_lines m +:+ rest) model =
  Ok (fold_left (fun m kv => record m kv.1 kv.2.1 kv.2.2) (entries m) model,
      left_over pre (entries m) +:+ rest).
Proof.
  intros [Hm _] Hpre. rewrite Nat2Z.id, <- length_entries.
  apply load_counts_lines; [|done]. by apply Forall_entries.
Qed.

Lemma load_replacements_lines l : forall pre rest model,
  Forall (fun kv : string * gmap string (Z * Z) =>
            clean_key kv.1 = true /\ clean_table kv.2) l ->
  pre = "" \/ pre = NL ->
  Model.load_replacements (length l)
    (pre +:+ join (Model.replacement_lines <$> l) +:+ rest) model =
  Ok (fold_left
        (fun m kv =>
           fold_left (fun m' e => Model.update_replacement m' kv.1 e.1 e.2.1 e.2.2)
                     (entries kv.2) m) l model,
      left_over pre l +:+ rest).
Proof.
  induction l as [|[k reps] l IH]; intros pre rest model Hl Hpre.
  - by rewrite string_app_empty_l.
  - apply Forall_cons in Hl as [[Hk Hreps] Hl]. simpl in Hk, Hreps.
    destruct (clean_key_facts k Hk) as (_ & _ & Hc & _).
    destruct (trim_clean pre k Hk Hpre) as (Htrim & _).
    simpl length. cbn [Model.load_replacements]. rewrite fmap_cons. cbn [join].
    unfold Model.replacement_lines at 1. simpl fst. simpl snd. rewrite Hc.
    rewrite !string_app_assoc.
    rewrite fscanf_inflected_line by (done || apply Hreps).
    rewrite Htrim.
    rewrite (load_counts_table
               (fun model lem => Model.update_replacement model k lem)) by auto.
    simpl mbind. cbn [result_bind fst snd].
    rewrite left_over_nl, IH by auto.
    by rewrite left_over_nl.
Qed.

End Persistence.

(** ** Replaying the entries of a table *)

Lemma fold_left_insert {V : Type}
    (f : gmap string V -> string * V -> gmap string V)
    (P : string * V -> Prop) :
  (forall m kv, P kv -> m !! kv.1 = None -> f m kv = <[kv.1 := kv.2]> m) ->
  forall l m, NoDup l.*1 -> Forall P l ->
    Forall (fun kv => m !! kv.1 = None) l ->
    fold_left f l m = list_to_map l ∪ m.
Proof.
  intros Hf. induction l as [|x l IH]; intros m Hnd HP Hfresh.
  - simpl. by rewrite (left_id ∅ (∪)).
  - simpl in Hnd. apply NoDup_cons in Hnd as [Hx Hnd].
    apply Forall_cons in HP as [HPx HP].
    apply Forall_cons in Hfresh as [Hmx Hfresh].
    simpl. rewrite Hf by done. rewrite IH; [|done|done|].
    + rewrite <- insert_union_l. rewrite insert_union_r; [done|].
      by apply not_elem_of_list_to_map_1.
    + apply Forall_forall. intros kv Hkv.
      rewrite lookup_insert_ne.
      * by apply (proj1 (Forall_forall _ _) Hfresh).
      * intros Heq. apply Hx. rewrite Heq. by apply list_elem_of_fmap_2.
Qed.

Lemma bump_fresh m k tp fp :
  m !! k = None -> is_long tp -> is_long fp ->
  bump m k tp fp = <[k := (tp, fp)]> m.
Proof.
  intros Hk Htp Hfp. unfold bump, Model.at_key, Model.accumulate, ladd.
  rewrite Hk. simpl. unfold is_long in *. by rewrite !wrap64_small by lia.
Qed.

Lemma fold_update_lemma l : forall model,
  fold_left (fun m (kv : string * (Z * Z)) =>
               Model.update_lemma m kv.1 kv.2.1 kv.2.2) l model =
  Model.mk (Model._replacements model)
    (fold_left (fun t kv => bump t kv.1 kv.2.1 kv.2.2) l (Model._lemcounts model))
    (Model._infcounts model) (Model._max_suffix_size model)
    (Model._is_trimmed model).
Proof.
  induction l as [|kv l IH]; intros model; simpl; [by destruct model|].
  by rewrite IH.
Qed.

Lemma fold_update_inflected l : forall model,
  fold_left (fun m (kv : string * (Z * Z)) =>
               Model.update_inflected m kv.1 kv.2.1 kv.2.2) l model =
  Model.mk (Model._replacements model) (Model._lemcounts model)
    (fold_left (fun t kv => bump t kv.1 kv.2.1 kv.2.2) l (Model._infcounts model))
    (Model._max_suffix_size model) (Model._is_trimmed model).
Proof.
  induction l as [|kv l IH]; intros model; simpl; [by destruct model|].
  by rewrite IH.
Qed.

Lemma fold_update_replacement k l : forall model,
  fold_left (fun m (e : string * (Z * Z)) =>
               Model.update_replacement m k e.1 e.2.1 e.2.2) l model =
  Model.mk
    (fold_left (fun t e => bump_replacement t k e.1 e.2.1 e.2.2) l
               (Model._replacements model))
    (Model._lemcounts model) (Model._infcounts model)
    (Model._max_suffix_size model) (Model._is_trimmed model).
Proof.
  induction l as [|e l IH]; intros model; simpl; [by destruct model|].
  by rewrite IH.
Qed.

Lemma fold_bump_replacement k l : forall t,
  l <> [] ->
  fold_left (fun t (e : string * (Z * Z)) =>
               bump_replacement t k e.1 e.2.1 e.2.2) l t =
  <[k := fold_left (fun t e => bump t e.1 e.2.1 e.2.2) l (inner t k)]> t.
Proof.
  induction l as [|e l IH]; intros t Hne; [done|]. simpl.
  destruct l as [|e' l]; [done|].
  rewrite IH by done.
  rewrite inner_bump_replacement, decide_True by done.
  unfold bump_replacement. by rewrite insert_insert_eq.
Qed.

Section Replay.
Context `{Traversal}.

Lemma list_to_map_entries {V : Type} (m : gmap string V) :
  list_to_map (entries m) = m.
Proof.
  rewrite (list_to_map_proper (entries m) (map_to_list m)).
  - apply list_to_map_to_list.
  - apply NoDup_fst_entries.
  - apply entries_perm.
Qed.

Lemma fold_bump_entries m :
  clean_table m ->
  fold_left (fun t kv => bump t kv.1 kv.2.1 kv.2.2) (entries m) ∅ = m.
Proof.
  intros [Hm _].
  rewrite (fold_left_insert _ clean_entry).
  - by rewrite (right_id ∅ (∪)), list_to_map_entries.
  - intros t [k [tp fp]] (_ & Htp & Hfp) Hk. by apply bump_fresh.
  - apply NoDup_fst_entries.
  - by apply Forall_entries.
  - apply Forall_forall. intros kv _. apply lookup_empty.
Qed.

Lemma entries_nonempty {V : Type} (m : gmap string V) :
  m <> ∅ -> entries m <> [].
Proof.
  intros Hne Hnil. apply Hne. rewrite <- (list_to_map_entries m). by rewrite Hnil.
Qed.

Lemma fold_update_replacements (l : list (string * gmap string (Z * Z))) :
  forall model,
  fold_left
    (fun m kv =>
       fold_left (fun m' (e : string * (Z * Z)) =>
                    Model.update_replacement m' kv.1 e.1 e.2.1 e.2.2)
                 (entries kv.2) m) l model =
  Model.mk
    (fold_left
       (fun t kv =>
          fold_left (fun t (e : string * (Z * Z)) =>
                       bump_replacement t kv.1 e.1 e.2.1 e.2.2)
                    (entries kv.2) t) l (Model._replacements model))
    (Model._lemcounts model) (Model._infcounts model)
    (Model._max_suffix_size model) (Model._is_trimmed model).
Proof.
  induction l as [|kv l IH]; intros model; simpl; [by destruct model|].
  by rewrite IH, fold_update_replacement.
Qed.

Lemma fold_replacement_entries t :
  map_Forall (fun k reps => clean_key k = true /\ clean_table reps /\ reps <> ∅) t ->
  fold_left
    (fun t (kv : string * gmap string (Z * Z)) =>
       fold_left (fun t e => bump_replacement t kv.1 e.1 e.2.1 e.2.2)
                 (entries kv.2) t) (entries t) ∅ = t.
Proof.
  intros Ht.
  rewrite (fold_left_insert _
             (fun kv => clean_key kv.1 = true /\ clean_table kv.2 /\ kv.2 <> ∅)).
  - by rewrite (right_id ∅ (∪)), list_to_map_entries.
  - intros t' [k reps] (_ & Hreps & Hne) Hk. simpl in *.
    rewrite fold_bump_replacement by by apply entries_nonempty.
    unfold inner. rewrite Hk. by rewrite fold_bump_entries.
  - apply NoDup_fst_entries.
  - by apply Forall_entries.
  - apply Forall_forall. intros kv _. apply lookup_empty.
Qed.

End Replay.

(** ** [load] after [save] *)

Lemma print_long_not_nl z r :
  starts_with (in_set false ["010"%char]) (print_long z +:+ r) = false.
Proof.
  destruct (print_long_head z) as (a & s & -> & Ha). rewrite string_app_cons.
  cbn [starts_with]. rewrite in_set_nl. unfold isspace in Ha.
  apply orb_false_iff in Ha as [_ Ha]. apply Z.eqb_neq. intros Heq.
  rewrite Heq in Ha. done.
Qed.

Lemma clean_key_not_nl k r :
  clean_key k = true ->
  starts_with (in_set false ["010"%char]) (k +:+ r) = false.
Proof.
  intros (Hne & _ & _ & Hs & _)%clean_key_facts.
  destruct k as [|a k]; [done|]. rewrite string_app_cons. cbn [starts_with] in *.
  rewrite in_set_nl. unfold isspace in Hs.
  apply orb_false_iff in Hs as [_ Ha]. apply Z.eqb_neq. intros Heq.
  rewrite Heq in Ha. done.
Qed.

Lemma counts_lines_not_nl l z r :
  Forall clean_entry l ->
  starts_with (in_set false ["010"%char])
    (join (Model.counts_line <$> l) +:+ print_long z +:+ r) = false.
Proof.
  intros Hl. destruct l as [|[k p] l].
  - rewrite string_app_empty_l. apply print_long_not_nl.
  - apply Forall_cons in Hl as [(Hk & _) _]. simpl in Hk.
    rewrite fmap_cons. cbn [join]. unfold Model.counts_line at 1. simpl fst.
    destruct (clean_key_facts k Hk) as (_ & _ & -> & _).
    rewrite !string_app_assoc. by apply clean_key_not_nl.
Qed.

Lemma bind_Ok {A B : Type} (a : A) (k : A -> result B) : Ok a ≫= k = k a.
Proof. done. Qed.

Section RoundTrip.
Context `{Traversal}.

Lemma replacement_lines_not_nl l :
  Forall (fun kv : string * gmap string (Z * Z) =>
            clean_key kv.1 = true /\ clean_table kv.2) l ->
  starts_with (in_set false ["010"%char])
    (join (Model.replacement_lines <$> l)) = false.
Proof.
  intros Hl. destruct l as [|[k reps] l]; [done|].
  apply Forall_cons in Hl as [[Hk _] _]. simpl in Hk.
  rewrite fmap_cons. cbn [join]. unfold Model.replacement_lines at 1.
  simpl fst.
  destruct (clean_key_facts k Hk) as (_ & _ & -> & _).
  rewrite !string_app_assoc. by apply clean_key_not_nl.
Qed.

(** X13: [load] reads back what [save] wrote, whatever the order in which
    the tables are written, when the maximal suffix size is within 1 and
    1024, every key is not empty, has neither tab nor NUL nor white space
    at either end and at most 1023 bytes, every count and table size is a
    value of a [long], and no inflected suffix has an empty inner
    table. *)
Theorem load_save model :
  persistable model -> Model.load (Model.save model) = Ok model.
Proof.
  intros (Hmax & Hlem & Hinf & Hsize & Hreps).
  assert (Hl : Forall clean_entry (entries (Model._lemcounts model)))
    by (apply Forall_entries, Hlem).
  assert (Hi : Forall clean_entry (entries (Model._infcounts model)))
    by (apply Forall_entries, Hinf).
  assert (Hr : Forall (fun kv : string * gmap string (Z * Z) =>
                         clean_key kv.1 = true /\ clean_table kv.2)
                      (entries (Model._replacements model))).
  { apply Forall_entries. intros k reps Hk. destruct (Hreps k reps Hk) as (? & ? & _).
    done. }
  unfold Model.save, Model.load.
  rewrite fscanf_header_line;
    [|unfold is_long; lia|apply print_long_not_nl].
  cbv beta iota. unfold Model.new.
  replace ((Model._max_suffix_size model <? 1)
           || (1024 <? Model._max_suffix_size model)) with false
    by (symmetry; apply orb_false_iff; split; apply Z.ltb_ge; lia).
  rewrite bind_Ok. cbv beta zeta.
  cbn [Model._replacements Model._lemcounts Model._infcounts
       Model._max_suffix_size].
  rewrite <- (string_app_empty_l (print_long (Z.of_nat (size (Model._lemcounts model)))
                           +:+ _)).
  rewrite (fscanf_number_line "");
    [|by left|apply Hlem|apply counts_lines_not_nl, Hl].
  cbv beta iota.
  rewrite <- (string_app_empty_l (Model.counts_lines (Model._lemcounts model) +:+ _)).
  rewrite load_counts_table by (done || by left).
  rewrite bind_Ok. cbv beta. cbn [fst snd].
  rewrite fscanf_number_line;
    [|by apply left_over_cases; left|apply Hinf|apply counts_lines_not_nl, Hi].
  cbv beta iota.
  rewrite <- (string_app_empty_l (Model.counts_lines (Model._infcounts model) +:+ _)).
  rewrite load_counts_table by (done || by left).
  rewrite bind_Ok. cbv beta. cbn [fst snd].
  rewrite fscanf_number_line;
    [|by apply left_over_cases; left|apply Hsize
     |by apply replacement_lines_not_nl].
  cbv beta iota.
  rewrite <- (string_app_empty_r (join _)).
  rewrite <- (string_app_empty_l (join _ +:+ "")).
  rewrite <- length_entries, Nat2Z.id.
  rewrite load_replacements_lines by (done || by left).
  rewrite bind_Ok. cbv beta. cbn [fst snd]. f_equal.
  rewrite fold_update_lemma, fold_update_inflected.
  cbn [Model._replacements Model._lemcounts Model._infcounts
       Model._max_suffix_size Model._is_trimmed].
  rewrite !fold_bump_entries by done.
  rewrite fold_update_replacements.
  cbn [Model._replacements Model._lemcounts Model._infcounts
       Model._max_suffix_size Model._is_trimmed].
  rewrite fold_replacement_entries by done.
  destruct model as [reps lem inf maxsuf trimmed]. simpl.
  by destruct trimmed.
Qed.

End RoundTrip.

Lemma load_save_witness :
  let model := fold_left (training_step "bb" "bc" 2) [2; 1; 0]
                 (Model.mk ∅ ∅ ∅ 8 false) in
  Model.load (Model.save model) = Ok model.
Proof.
  apply (load_save (H := ordered_map)).
  split; [by vm_compute|].
  split; [split; [apply (bool_decide_unpack _); vm_compute; exact I
                 |by vm_compute]|].
  split; [split; [apply (bool_decide_unpack _); vm_compute; exact I
                 |by vm_compute]|].
  split; [by vm_compute|].
  unfold clean_table, clean_entry, is_long.
  apply (bool_decide_unpack _). vm_compute. exact I.
Defined.

(** ** The training file *)

Lemma ltrim_tab_key k r :
  clean_key k = true -> ltrim (String "009" (k +:+ r)) = k +:+ r.
Proof.
  intros (Hne & _ & _ & Hs & _)%clean_key_facts.
  cbn [ltrim]. change (isspace "009") with true. cbv iota.
  apply ltrim_fixed. by rewrite starts_with_app.
Qed.

Lemma fscanf_corpus_line inflected lemma count rest :
  clean_key inflected = true -> clean_key lemma = true -> is_long count ->
  starts_with (in_set false ["010"%char]) rest = false ->
  fscanf format_line (corpus_line (inflected, lemma, count) +:+ rest) =
  ([scanned_str inflected; scanned_str lemma; scanned_long count], rest).
Proof.
  intros Hi Hl Hc Hrest. unfold corpus_line, format_line. simpl fst. simpl snd.
  rewrite !string_app_assoc.
  destruct (clean_key_facts _ Hi) as (Hine & Hiall & _ & _ & _ & Hilen).
  destruct (clean_key_facts _ Hl) as (Hlne & Hlall & _ & _ & _ & Hllen).
  erewrite fscanf_set_ok; [|apply scan_set_stop; [done|simpl; lia|done]|done].
  rewrite tab_cons, fscanf_whitespace, ltrim_tab_key by done.
  erewrite fscanf_set_ok; [|apply scan_set_stop; [done|simpl; lia|done]|done].
  rewrite tab_cons, fscanf_whitespace, ltrim_space_print by done.
  erewrite fscanf_ld; [|by apply scan_integer_print].
  erewrite fscanf_set_ok;
    [|apply (scan_set_stop false ["010"%char] NL rest); [done|simpl; lia|done]
     |done].
  by rewrite !clamp_long_id.
Qed.

Lemma corpus_file_not_nl corpus tail :
  Forall clean_line corpus ->
  starts_with (in_set false ["010"%char]) tail = false ->
  starts_with (in_set false ["010"%char]) (corpus_file corpus +:+ tail) = false.
Proof.
  intros Hc Ht. destruct corpus as [|[[a b] c] corpus]; [done|].
  apply Forall_cons in Hc as [(Ha & _) _]. simpl in Ha.
  unfold corpus_file. rewrite fmap_cons. cbn [join].
  unfold corpus_line at 1. simpl fst.
  rewrite !string_app_assoc. by apply clean_key_not_nl.
Qed.

Lemma trim_clean_key k : clean_key k = true -> trim (c_str k) = k /\ str_size k <> 0.
Proof.
  intros Hk. destruct (trim_clean "" k Hk) as (Ht & _); [by left|].
  rewrite string_app_empty_l in Ht. split; [done|].
  destruct (clean_key_facts k Hk) as (Hne & _). destruct k; [done|].
  rewrite str_size_cons. pose proof (str_size_nonneg k). lia.
Qed.

Lemma train_loop_lines good : forall fuel tail model lineno,
  Forall (fun line => clean_line line /\ 0 < line.2) good ->
  starts_with (in_set false ["010"%char]) tail = false ->
  Model.train_loop (length good + fuel) (corpus_file good +:+ tail) model lineno =
  fold_left train_line good (Ok model) ≫= fun model' =>
    Model.train_loop fuel tail model'
      (Nat.iter (length good) (fun n => ladd n 1) lineno).
Proof.
  induction good as [|[[a b] c] good IH]; intros fuel tail model lineno Hg Ht.
  - done.
  - apply Forall_cons in Hg as [[(Ha & Hb & Hc) Hpos] Hg]. simpl in Ha, Hb, Hc, Hpos.
    simpl length. cbn [Nat.add Model.train_loop].
    unfold corpus_file. rewrite fmap_cons. cbn [join]. fold (corpus_file good).
    rewrite string_app_assoc.
    rewrite fscanf_corpus_line; try done.
    2: { apply corpus_file_not_nl; [|done].
         eapply Forall_impl; [exact Hg|]. by intros ? [? _]. }
    destruct (trim_clean_key a Ha) as [-> Hna].
    destruct (trim_clean_key b Hb) as [-> Hnb].
    replace ((str_size a =? 0) || (str_size b =? 0)) with false
      by (symmetry; apply orb_false_iff; split; by apply Z.eqb_neq).
    replace (c <=? 0) with false by (symmetry; apply Z.leb_gt; lia).
    cbn [fold_left]. unfold train_line at 2. simpl fst. simpl snd.
    rewrite bind_Ok.
    destruct (Model.update model a b c) as [model'|e].
    + by rewrite bind_Ok, IH, Nat.iter_succ_r by done.
    + by rewrite fold_train_line_Throw.
Qed.

Lemma length_corpus_file corpus :
  (length corpus <= String.length (corpus_file corpus))%nat.
Proof.
  unfold corpus_file. induction corpus as [|line corpus IH]; [done|].
  rewrite fmap_cons. cbn [join]. unfold corpus_line at 1.
  rewrite !string_length_app. simpl length. simpl String.length. lia.
Qed.

Lemma corpus_file_app c1 c2 :
  corpus_file (c1 ++ c2) = corpus_file c1 +:+ corpus_file c2.
Proof.
  unfold corpus_file. induction c1 as [|line c1 IH]; [done|].
  rewrite <- app_comm_cons, !fmap_cons. cbn [join].
  by rewrite IH, string_app_assoc.
Qed.

Lemma iter_ladd n :
  is_long (Z.of_nat n) -> Nat.iter n (fun x => ladd x 1) 0 = Z.of_nat n.
Proof.
  unfold is_long. induction n as [|n IH]; intros Hn; [done|].
  simpl. rewrite IH by lia. unfold ladd. rewrite wrap64_small; lia.
Qed.

(** X14: on a file of lines "inflected<TAB>lemma<TAB>count<NL>" whose
    fields are clean and whose counts are positive, [Model::train] returns
    the store that the training calls on these lines build, in file
    order, or throws the decode error of the first of them that
    fails. *)
Theorem train_corpus_file max_suffix_size corpus :
  Forall (fun line => clean_line line /\ 0 < line.2) corpus ->
  Model.train (corpus_file corpus) max_suffix_size =
  trained_on max_suffix_size corpus.
Proof.
  intros Hc. unfold Model.train, trained_on.
  change (fold_left _ corpus (Model.new max_suffix_size))
    with (fold_left train_line corpus (Model.new max_suffix_size)).
  destruct (Model.new max_suffix_size) as [model|e];
    [|by rewrite fold_train_line_Throw].
  rewrite bind_Ok. pose proof (length_corpus_file corpus) as Hlen.
  replace (S (String.length (corpus_file corpus)))
    with (length corpus
          + S (String.length (corpus_file corpus) - length corpus))%nat by lia.
  rewrite <- (string_app_empty_r (corpus_file corpus)) at 2.
  rewrite train_loop_lines by done.
  by destruct (fold_left train_line corpus (Ok model)).
Qed.

Lemma train_corpus_file_witness :
  Model.train (corpus_file [("cats", "cat", 5); ("dogs", "dog", 2)]) 8 =
  trained_on 8 [("cats", "cat", 5); ("dogs", "dog", 2)].
Proof.
  apply train_corpus_file.
  repeat constructor; vm_compute; congruence.
Defined.

(** X15: the first line whose count is not positive stops
    [Model::train] with "count<=0 on line N", where N is the number of
    lines before it (lines are numbered from 0); the lines before it have
    been trained on, and an error of theirs comes first; the lines after
    it are not looked at. *)
Theorem train_rejects_count max_suffix_size good bad rest :
  Forall (fun line => clean_line line /\ 0 < line.2) good ->
  clean_line bad -> bad.2 <= 0 -> Forall clean_line rest ->
  is_long (Z.of_nat (length good)) ->
  Model.train (corpus_file (good ++ bad :: rest)) max_suffix_size =
  trained_on max_suffix_size good ≫= fun _ =>
    Throw (runtime_error
             ("count<=0 on line " +:+ print_long (Z.of_nat (length good)))).
Proof.
  intros Hg (Ha & Hb & Hc) Hneg Hrest Hlen. unfold Model.train, trained_on.
  change (fold_left _ good (Model.new max_suffix_size))
    with (fold_left train_line good (Model.new max_suffix_size)).
  destruct (Model.new max_suffix_size) as [model|e];
    [|by rewrite fold_train_line_Throw].
  rewrite bind_Ok.
  pose proof (length_corpus_file (good ++ bad :: rest)) as Hfile.
  rewrite length_app in Hfile. simpl in Hfile.
  set (file := corpus_file (good ++ bad :: rest)) in *.
  replace (S (String.length file))
    with (length good + S (String.length file - length good))%nat by lia.
  subst file. rewrite corpus_file_app.
  assert (Htail : corpus_file (bad :: rest) =
                  corpus_line (bad.1.1, bad.1.2, bad.2) +:+ corpus_file rest).
  { by destruct bad as [[a b] c]. }
  rewrite train_loop_lines; [|done|].
  2: { rewrite <- (string_app_empty_r (corpus_file (bad :: rest))).
       apply corpus_file_not_nl; [|done]. by constructor. }
  destruct (fold_left train_line good (Ok model)) as [model'|e]; [|done].
  rewrite !bind_Ok, Htail. cbn [Model.train_loop].
  rewrite fscanf_corpus_line; try done.
  2: { rewrite <- (string_app_empty_r (corpus_file rest)).
       by apply corpus_file_not_nl. }
  destruct (trim_clean_key _ Ha) as [-> Hna].
  destruct (trim_clean_key _ Hb) as [-> Hnb].
  replace ((str_size bad.1.1 =? 0) || (str_size bad.1.2 =? 0)) with false
    by (symmetry; apply orb_false_iff; split; by apply Z.eqb_neq).
  replace (bad.2 <=? 0) with true by (symmetry; apply Z.leb_le; lia).
  by rewrite iter_ladd.
Qed.

Lemma train_rejects_count_witness :
  Model.train (corpus_file ([("cats", "cat", 5)] ++ ("dogs", "dog", 0)
                      :: [("mice", "mouse", 1)])) 8 =
  trained_on 8 [("cats", "cat", 5)] ≫= fun _ =>
    Throw (runtime_error ("count<=0 on line " +:+ print_long 1)).
Proof.
  apply (train_rejects_count 8 [("cats", "cat", 5)] ("dogs", "dog", 0)
           [("mice", "mouse", 1)]).
  - repeat constructor; vm_compute; congruence.
  - repeat constructor; vm_compute; congruence.
  - simpl. lia.
  - repeat constructor; vm_compute; congruence.
  - vm_compute. split; congruence.
Defined.

(** ** A corpus of identical pairs *)

Lemma record_pair_diagonal suf correct count st :
  diagonal st -> diagonal (Model.record_pair suf suf correct count st).
Proof.
  intros Hd k l. rewrite record_pair_tables. simpl.
  rewrite inner_bump_replacement. case_decide as Hk; [|apply Hd].
  subst k. rewrite lookup_bump. case_decide; [done|apply Hd].
Qed.

Lemma update_diagonal model word count model' :
  diagonal model -> Model.update model word word count = Ok model' ->
  diagonal model'.
Proof.
  intros Hd. rewrite update_cases.
  destruct (Model.is_trimmed model); [done|].
  destruct (_ || _); [done|]. cbv zeta. intros [= <-].
  generalize (descending
    (Z.max (codepoint_count (marked word)) (codepoint_count (marked word))
     + 1 - 2)
    (Z.max (Z.max (codepoint_count (marked word)) (codepoint_count (marked word))
            + 1 - Model._max_suffix_size model - 1) 0)).
  intros l. revert model Hd.
  induction l as [|i l IH]; intros model Hd; [done|].
  simpl. apply IH. unfold training_step, Model.update_at.
  by apply record_pair_diagonal.
Qed.

Lemma trained_on_diagonal max_suffix_size corpus model :
  Forall (fun line : string * string * Z => line.1.1 = line.1.2) corpus ->
  trained_on max_suffix_size corpus = Ok model -> diagonal model.
Proof.
  unfold trained_on. intros Hid.
  assert (Hinit : forall m, Model.new max_suffix_size = Ok m -> diagonal m).
  { unfold Model.new. intros m. destruct (_ || _); [done|]. intros [= <-] k l.
    unfold inner. simpl. rewrite !lookup_empty. by intros [? ?]. }
  revert model Hinit. generalize (Model.new max_suffix_size).
  induction Hid as [|[[a b] c] corpus Hline _ IH]; intros r model Hinit; simpl.
  - apply Hinit.
  - apply IH. intros m. destruct r as [m0|e]; simpl; [|done].
    simpl in Hline. subst b. apply update_diagonal; auto.
Qed.

Lemma trim_diagonal model : diagonal model -> diagonal (Model.trim model).
Proof.
  intros Hd. destruct (Model.is_trimmed model) eqn:Ht.
  - by rewrite (trim_trimmed model Ht).
  - intros k l [p Hp].
    apply (trim_replacements model k l p Ht) in Hp as [Hp _].
    apply Hd. by exists p.
Qed.

Section Identity.
Context `{Traversal}.

Lemma lemmatize_diagonal model inflected :
  diagonal model -> stray_free inflected = true ->
  Model.lemmatize model inflected = Ok inflected \/
  Model.lemmatize model inflected = Ok (rtrim inflected).
Proof.
  intros Hd Hs. rewrite lemmatize_cases, Hs.
  destruct (lemmatize_loop_result model inflected (marked (rtrim inflected))
              (boundaries (marked (rtrim inflected))) "")
    as [->|(cp & lemsuf & c & _ & Hc & ->)]; [by left|].
  right. rewrite <- (Hd _ lemsuf ltac:(eauto)).
  unfold substr, substr_from. simpl sdrop. rewrite stake_sdrop.
  unfold substr_checked. change (marked (rtrim inflected))
    with (String "$"%char (rtrim inflected)).
  rewrite str_size_cons. pose proof (str_size_nonneg (rtrim inflected)).
  by replace (1 + str_size (rtrim inflected) <? 1) with false
    by (symmetry; apply Z.ltb_ge; lia).
Qed.

(** X16: a store trained on pairs whose lemma is the inflected word itself,
    trimmed afterwards or not, lemmatizes every input that has no byte
    0xFE or 0xFF to itself, or to itself without the white space at its
    end. *)
Theorem identity_corpus_lemmatize max_suffix_size corpus model inflected :
  Forall (fun line : string * string * Z => line.1.1 = line.1.2) corpus ->
  trained_on max_suffix_size corpus = Ok model ->
  stray_free inflected = true ->
  (Model.lemmatize model inflected = Ok inflected \/
   Model.lemmatize model inflected = Ok (rtrim inflected)) /\
  (Model.lemmatize (Model.trim model) inflected = Ok inflected \/
   Model.lemmatize (Model.trim model) inflected = Ok (rtrim inflected)).
Proof.
  intros Hid Htr Hs.
  pose proof (trained_on_diagonal _ _ _ Hid Htr) as Hd.
  split; apply lemmatize_diagonal; auto using trim_diagonal.
Qed.

End Identity.

Lemma identity_corpus_lemmatize_witness :
  let model := fold_left (training_step "cats" "cats" 5) [4; 3; 2; 1; 0]
                 (Model.mk ∅ ∅ ∅ 8 false) in
  (Model.lemmatize model "rats " = Ok "rats " \/
   Model.lemmatize model "rats " = Ok (rtrim "rats ")) /\
  (Model.lemmatize (Model.trim model) "rats " = Ok "rats " \/
   Model.lemmatize (Model.trim model) "rats " = Ok (rtrim "rats ")).
Proof.
  apply (identity_corpus_lemmatize (H := ordered_map) 8 [("cats", "cats", 5)]).
  - repeat constructor.
  - reflexivity.
  - reflexivity.
Defined.

(** ** Lines that [Model::train] refuses *)

Lemma scan_integer_no_number a s :
  no_number_start a = true ->
  scan_integer (String a s) = None /\
  fscanf_feof [conv_ld; conv_set false None false ["010"%char]] (String a s)
  = false.
Proof.
  intros Ha.
  destruct a as [[] [] [] [] [] [] [] []]; try discriminate Ha; by split.
Qed.

Lemma fscanf_feof_whitespace format fin a s :
  ltrim fin = String a s ->
  fscanf_feof (whitespace :: format) fin = fscanf_feof format (String a s).
Proof. intros Hl. simpl. by rewrite Hl. Qed.

Lemma fscanf_feof_set assign w negated chars format fin a s b rest :
  scan_set (Z.to_nat w) negated chars fin = (String a s, String b rest) ->
  (String.length (String a s) < Z.to_nat w)%nat ->
  fscanf_feof (conv_set assign (Some w) negated chars :: format) fin =
  fscanf_feof format (String b rest).
Proof.
  intros Hs Hw. cbn [fscanf_feof]. rewrite Hs. cbv zeta.
  by replace (Z.to_nat w <=? String.length (String a s))%nat with false
    by (symmetry; apply Nat.leb_gt; lia).
Qed.

Lemma fscanf_bad_count inflected lemma a junk :
  clean_key inflected = true -> clean_key lemma = true ->
  no_number_start a = true ->
  let fin := inflected +:+ TAB +:+ lemma +:+ TAB +:+ String a junk in
  fscanf format_line fin =
    ([scanned_str inflected; scanned_str lemma], String a junk) /\
  fscanf_feof format_line fin = false.
Proof.
  intros Hi Hl Ha fin. subst fin. unfold format_line.
  destruct (clean_key_facts _ Hi) as (Hine & Hiall & _ & _ & _ & Hilen).
  destruct (clean_key_facts _ Hl) as (Hlne & Hlall & _ & _ & _ & Hllen).
  destruct (scan_integer_no_number a junk Ha) as [Hnone Hfeof].
  assert (Hsp : isspace a = false).
  { unfold no_number_start in Ha. rewrite !andb_true_iff in Ha.
    by destruct Ha as [[[?%negb_true_iff _] _] _]. }
  assert (Hs1 : forall r, scan_set (Z.to_nat 1024) true ["009"%char]
                            (inflected +:+ TAB +:+ r) = (inflected, TAB +:+ r)).
  { intros r. apply scan_set_stop; [done|simpl; lia|done]. }
  assert (Hs2 : forall r, scan_set (Z.to_nat 1024) true ["009"%char]
                            (lemma +:+ TAB +:+ r) = (lemma, TAB +:+ r)).
  { intros r. apply scan_set_stop; [done|simpl; lia|done]. }
  split.
  - erewrite fscanf_set_ok; [|apply Hs1|done].
    rewrite tab_cons, fscanf_whitespace, ltrim_tab_key by done.
    erewrite fscanf_set_ok; [|apply Hs2|done].
    rewrite tab_cons, fscanf_whitespace.
    cbn [ltrim]. change (isspace "009") with true. cbv iota. rewrite Hsp.
    cbn [fscanf]. by rewrite Hnone.
  - destruct inflected as [|i0 inflected]; [done|].
    destruct lemma as [|l0 lemma]; [done|].
    erewrite fscanf_feof_set; [|rewrite Hs1, tab_cons; reflexivity|simpl in *; lia].
    erewrite fscanf_feof_whitespace; [|by rewrite ltrim_tab_key, string_app_cons].
    rewrite <- string_app_cons.
    erewrite fscanf_feof_set; [|rewrite Hs2, tab_cons; reflexivity|simpl in *; lia].
    erewrite fscanf_feof_whitespace;
      [|cbn [ltrim]; change (isspace "009") with true; cbv iota; by rewrite Hsp].
    exact Hfeof.
Qed.

(** X17: a line whose count field begins with a byte that is neither
    white space nor a digit nor a sign stops [Model::train] with
    "Read error after line N", where N is the number of lines before it;
    the lines before it have been trained on, and an error of theirs
    comes first. *)
Theorem train_read_error max_suffix_size good inflected lemma a junk :
  Forall (fun line => clean_line line /\ 0 < line.2) good ->
  clean_key inflected = true -> clean_key lemma = true ->
  no_number_start a = true ->
  is_long (Z.of_nat (length good)) ->
  Model.train (corpus_file good +:+ inflected +:+ TAB +:+ lemma +:+ TAB
         +:+ String a junk) max_suffix_size =
  trained_on max_suffix_size good ≫= fun _ =>
    Throw (runtime_error
             ("Read error after line " +:+ print_long (Z.of_nat (length good)))).
Proof.
  intros Hg Hi Hl Ha Hlen. unfold Model.train, trained_on.
  change (fold_left _ good (Model.new max_suffix_size))
    with (fold_left train_line good (Model.new max_suffix_size)).
  destruct (Model.new max_suffix_size) as [model|e];
    [|by rewrite fold_train_line_Throw].
  rewrite bind_Ok.
  set (tail := inflected +:+ TAB +:+ lemma +:+ TAB +:+ String a junk).
  pose proof (length_corpus_file good) as Hfile.
  assert (Hsize : (String.length (corpus_file good)
                   <= String.length (corpus_file good +:+ tail))%nat)
    by (rewrite string_length_app; lia).
  replace (S (String.length (corpus_file good +:+ tail)))
    with (length good
          + S (String.length (corpus_file good +:+ tail) - length good))%nat
    by lia.
  rewrite train_loop_lines; [|done|by apply clean_key_not_nl].
  destruct (fold_left train_line good (Ok model)) as [model'|e]; [|done].
  rewrite !bind_Ok. cbn [Model.train_loop]. subst tail.
  destruct (fscanf_bad_count inflected lemma a junk Hi Hl Ha) as [-> ->].
  by rewrite iter_ladd.
Qed.

Lemma rtrim_all_space s : all_chars isspace s = true -> rtrim s = "".
Proof.
  induction s as [|a s IH]; [done|]. simpl.
  intros [Ha Hs]%andb_true_iff. by rewrite IH, Ha.
Qed.

Lemma blank_field_facts f :
  blank_field f = true ->
  f <> "" /\ all_chars (in_set true ["009"%char]) f = true /\
  (String.length f <= 1024)%nat /\ trim (c_str f) = "" /\
  forall r, starts_with (in_set false ["010"%char]) (f +:+ r) = false.
Proof.
  unfold blank_field. rewrite !andb_true_iff, !negb_true_iff.
  intros [[[Hne Hall] Hnl] Hlen].
  apply bool_decide_eq_false in Hne. apply Z.leb_le in Hlen.
  unfold str_size in Hlen.
  split; [done|]. split; [|split; [lia|split]].
  - clear -Hall. induction f as [|a f IH]; [done|]. cbn [all_chars] in *.
    apply andb_true_iff in Hall as [[_ Ha]%andb_true_iff Hf].
    by rewrite in_set_not_tab, Ha, IH.
  - assert (Hsp : all_chars isspace f = true).
    { clear -Hall. induction f as [|a f IH]; [done|]. cbn [all_chars] in *.
      apply andb_true_iff in Hall as [[Ha _]%andb_true_iff Hf].
      by rewrite Ha, IH. }
    assert (Hc : c_str f = f).
    { clear -Hsp. induction f as [|a f IH]; [done|]. simpl in *.
      apply andb_true_iff in Hsp as [Ha Hf]. rewrite IH by done.
      replace (byte_of a =? 0) with false; [done|].
      symmetry. apply Z.eqb_neq. intros H0. unfold isspace in Ha.
      rewrite H0 in Ha. done. }
    rewrite Hc. unfold trim. by rewrite rtrim_all_space.
  - intros r. destruct f as [|a f]; [done|]. rewrite string_app_cons.
    cbn [starts_with] in *. by rewrite in_set_nl.
Qed.

Lemma fscanf_blank_line f lemma count rest :
  blank_field f = true -> clean_key lemma = true -> is_long count ->
  starts_with (in_set false ["010"%char]) rest = false ->
  fscanf format_line
    (f +:+ TAB +:+ lemma +:+ TAB +:+ print_long count +:+ NL +:+ rest) =
  ([scanned_str f; scanned_str lemma; scanned_long count], rest).
Proof.
  intros Hf Hl Hc Hrest. unfold format_line.
  destruct (blank_field_facts _ Hf) as (Hfne & Hfall & Hflen & _).
  destruct (clean_key_facts _ Hl) as (Hlne & Hlall & _ & _ & _ & Hllen).
  erewrite fscanf_set_ok; [|apply scan_set_stop; [done|simpl; lia|done]|done].
  rewrite tab_cons, fscanf_whitespace, ltrim_tab_key by done.
  erewrite fscanf_set_ok; [|apply scan_set_stop; [done|simpl; lia|done]|done].
  rewrite tab_cons, fscanf_whitespace, ltrim_space_print by done.
  erewrite fscanf_ld; [|by apply scan_integer_print].
  erewrite fscanf_set_ok;
    [|apply (scan_set_stop false ["010"%char] NL rest); [done|simpl; lia|done]
     |done].
  by rewrite !clamp_long_id.
Qed.

(** X18: a line whose inflected field is made of white space only stops
    [Model::train] with "Zero-length string on line N", where N is the
    number of lines before it, whatever its count is; the lines before it
    have been trained on, and an error of theirs comes first. *)
Theorem train_zero_length max_suffix_size good f lemma count rest :
  Forall (fun line => clean_line line /\ 0 < line.2) good ->
  blank_field f = true -> clean_key lemma = true -> is_long count ->
  Forall clean_line rest ->
  is_long (Z.of_nat (length good)) ->
  Model.train (corpus_file good +:+ f +:+ TAB +:+ lemma +:+ TAB
         +:+ print_long count +:+ NL +:+ corpus_file rest) max_suffix_size =
  trained_on max_suffix_size good ≫= fun _ =>
    Throw (runtime_error
             ("Zero-length string on line "
              +:+ print_long (Z.of_nat (length good)))).
Proof.
  intros Hg Hf Hl Hc Hrest Hlen. unfold Model.train, trained_on.
  change (fold_left _ good (Model.new max_suffix_size))
    with (fold_left train_line good (Model.new max_suffix_size)).
  destruct (Model.new max_suffix_size) as [model|e];
    [|by rewrite fold_train_line_Throw].
  rewrite bind_Ok.
  destruct (blank_field_facts _ Hf) as (_ & _ & _ & Htrim & Hnl).
  set (tail := f +:+ TAB +:+ lemma +:+ TAB +:+ print_long count +:+ NL
               +:+ corpus_file rest).
  pose proof (length_corpus_file good) as Hfile.
  assert (Hsize : (String.length (corpus_file good)
                   <= String.length (corpus_file good +:+ tail))%nat)
    by (rewrite string_length_app; lia).
  replace (S (String.length (corpus_file good +:+ tail)))
    with (length good
          + S (String.length (corpus_file good +:+ tail) - length good))%nat
    by lia.
  rewrite train_loop_lines; [|done|by apply Hnl].
  destruct (fold_left train_line good (Ok model)) as [model'|e]; [|done].
  rewrite !bind_Ok. cbn [Model.train_loop]. subst tail.
  rewrite fscanf_blank_line; try done.
  2: { rewrite <- (string_app_empty_r (corpus_file rest)).
       by apply corpus_file_not_nl. }
  rewrite Htrim. change (str_size "" =? 0) with true. cbn [orb].
  by rewrite iter_ladd.
Qed.

Lemma train_read_error_witness :
  Model.train (corpus_file [("cats", "cat", 5)] +:+ "dogs" +:+ TAB +:+ "dog" +:+ TAB
         +:+ String "x" "") 8 =
  trained_on 8 [("cats", "cat", 5)] ≫= fun _ =>
    Throw (runtime_error ("Read error after line " +:+ print_long 1)).
Proof.
  apply (train_read_error 8 [("cats", "cat", 5)] "dogs" "dog" "x" "").
  - repeat constructor; vm_compute; congruence.
  - reflexivity.
  - reflexivity.
  - reflexivity.
  - vm_compute. split; congruence.
Defined.

Lemma train_zero_length_witness :
  Model.train (corpus_file [("cats", "cat", 5)] +:+ " " +:+ TAB +:+ "dog" +:+ TAB
         +:+ print_long 2 +:+ NL +:+ corpus_file [("mice", "mouse", 1)]) 8 =
  trained_on 8 [("cats", "cat", 5)] ≫= fun _ =>
    Throw (runtime_error ("Zero-length string on line " +:+ print_long 1)).
Proof.
  apply (train_zero_length 8 [("cats", "cat", 5)] " " "dog" 2
           [("mice", "mouse", 1)]).
  - repeat constructor; vm_compute; congruence.
  - reflexivity.
  - reflexivity.
  - vm_compute. split; congruence.
  - repeat constructor; vm_compute; congruence.
  - vm_compute. split; congruence.
Defined.

(** ** A last line that is cut short *)

Lemma scan_set_all negated chars s w :
  all_chars (in_set negated chars) s = true -> (String.length s <= w)%nat ->
  scan_set w negated chars s = (s, "").
Proof.
  intros Hs Hw. rewrite <- (string_app_empty_r s) at 1. by apply scan_set_stop.
Qed.

Lemma fscanf_feof_set_end assign w negated chars format fin a s :
  scan_set (Z.to_nat w) negated chars fin = (String a s, "") ->
  (String.length (String a s) < Z.to_nat w)%nat ->
  fscanf_feof (conv_set assign (Some w) negated chars :: format) fin = true.
Proof.
  intros Hs Hw. cbn [fscanf_feof]. rewrite Hs. cbv zeta.
  by replace (Z.to_nat w <=? String.length (String a s))%nat with false
    by (symmetry; apply Nat.leb_gt; lia).
Qed.

Lemma fscanf_one_field inflected :
  clean_key inflected = true ->
  (fscanf format_line inflected).1 = [scanned_str inflected] /\
  fscanf_feof format_line inflected = true.
Proof.
  intros Hi. unfold format_line.
  destruct (clean_key_facts _ Hi) as (Hine & Hiall & _ & _ & _ & Hilen).
  assert (Hs : scan_set (Z.to_nat 1024) true ["009"%char] inflected
               = (inflected, "")).
  { apply scan_set_all; [done|simpl; lia]. }
  split.
  - by erewrite fscanf_set_ok; [|apply Hs|done].
  - destruct inflected as [|a s]; [done|].
    eapply fscanf_feof_set_end; [apply Hs|simpl in *; lia].
Qed.

Lemma fscanf_two_fields inflected lemma :
  clean_key inflected = true -> clean_key lemma = true ->
  (fscanf format_line (inflected +:+ TAB +:+ lemma)).1 =
    [scanned_str inflected; scanned_str lemma] /\
  fscanf_feof format_line (inflected +:+ TAB +:+ lemma) = true.
Proof.
  intros Hi Hl. unfold format_line.
  destruct (clean_key_facts _ Hi) as (Hine & Hiall & _ & _ & _ & Hilen).
  destruct (clean_key_facts _ Hl) as (Hlne & Hlall & _ & Hlsp & _ & Hllen).
  assert (Hs1 : scan_set (Z.to_nat 1024) true ["009"%char]
                  (inflected +:+ TAB +:+ lemma) = (inflected, TAB +:+ lemma)).
  { apply scan_set_stop; [done|simpl; lia|done]. }
  assert (Hs2 : scan_set (Z.to_nat 1024) true ["009"%char] lemma = (lemma, "")).
  { apply scan_set_all; [done|simpl; lia]. }
  assert (Hlt : ltrim (String "009" lemma) = lemma).
  { cbn [ltrim]. change (isspace "009") with true. cbv iota.
    by apply ltrim_fixed. }
  split.
  - erewrite fscanf_set_ok; [|apply Hs1|done].
    rewrite tab_cons, fscanf_whitespace, Hlt.
    by erewrite fscanf_set_ok; [|apply Hs2|done].
  - destruct inflected as [|a s]; [done|]. destruct lemma as [|b t]; [done|].
    erewrite fscanf_feof_set; [|rewrite Hs1, tab_cons; reflexivity|simpl in *; lia].
    erewrite fscanf_feof_whitespace; [|exact Hlt].
    eapply fscanf_feof_set_end; [apply Hs2|simpl in *; lia].
Qed.

Lemma train_loop_incomplete fuel fin model lineno :
  length (fscanf format_line fin).1 <> 3%nat ->
  fscanf_feof format_line fin = true ->
  Model.train_loop (S fuel) fin model lineno = Ok model.
Proof.
  intros Hlen Hfeof. cbn [Model.train_loop]. rewrite Hfeof.
  destruct (fscanf format_line fin) as [[|[] [|[] [|[] [|]]]] fin'];
    simpl in Hlen; done.
Qed.

Lemma train_tail max_suffix_size good tail :
  Forall (fun line => clean_line line /\ 0 < line.2) good ->
  starts_with (in_set false ["010"%char]) tail = false ->
  length (fscanf format_line tail).1 <> 3%nat ->
  fscanf_feof format_line tail = true ->
  Model.train (corpus_file good +:+ tail) max_suffix_size =
  trained_on max_suffix_size good.
Proof.
  intros Hg Hnl Hlen Hfeof. unfold Model.train, trained_on.
  change (fold_left _ good (Model.new max_suffix_size))
    with (fold_left train_line good (Model.new max_suffix_size)).
  destruct (Model.new max_suffix_size) as [model|e];
    [|by rewrite fold_train_line_Throw].
  rewrite bind_Ok.
  pose proof (length_corpus_file good) as Hfile.
  assert (Hsize : (String.length (corpus_file good)
                   <= String.length (corpus_file good +:+ tail))%nat)
    by (rewrite string_length_app; lia).
  replace (S (String.length (corpus_file good +:+ tail)))
    with (length good
          + S (String.length (corpus_file good +:+ tail) - length good))%nat
    by lia.
  rewrite train_loop_lines by done.
  destruct (fold_left train_line good (Ok model)) as [model'|e]; [|done].
  rewrite bind_Ok. by apply train_loop_incomplete.
Qed.

(** X19: a last line that ends after its first or after its second field
    is dropped without an error: the read that fails has reached the end
    of the file, so [Model::train] returns what the lines before it
    gave. *)
Theorem train_drops_incomplete_line max_suffix_size good inflected lemma :
  Forall (fun line => clean_line line /\ 0 < line.2) good ->
  clean_key inflected = true -> clean_key lemma = true ->
  Model.train (corpus_file good +:+ inflected) max_suffix_size =
    trained_on max_suffix_size good /\
  Model.train (corpus_file good +:+ inflected +:+ TAB +:+ lemma) max_suffix_size =
    trained_on max_suffix_size good.
Proof.
  intros Hg Hi Hl.
  destruct (fscanf_one_field inflected Hi) as [H1 F1].
  destruct (fscanf_two_fields inflected lemma Hi Hl) as [H2 F2].
  split; apply train_tail; try done.
  - rewrite <- (string_app_empty_r inflected). by apply clean_key_not_nl.
  - by rewrite H1.
  - by apply clean_key_not_nl.
  - by rewrite H2.
Qed.

Lemma train_drops_incomplete_line_witness :
  Model.train (corpus_file [("cats", "cat", 5)] +:+ "dogs") 8 =
    trained_on 8 [("cats", "cat", 5)] /\
  Model.train (corpus_file [("cats", "cat", 5)] +:+ "dogs" +:+ TAB +:+ "dog") 8 =
    trained_on 8 [("cats", "cat", 5)].
Proof.
  apply (train_drops_incomplete_line 8 [("cats", "cat", 5)] "dogs" "dog").
  - repeat constructor; vm_compute; congruence.
  - reflexivity.
  - reflexivity.
Defined.
